(** * gogcli: markdown to Google Docs conversion (internal/cmd/docs.go)

    A shallow embedding of the markdown writer of [internal/cmd/docs.go]:
    [utf16CodeUnitCount], [clearDocsContent], [writeMarkdownToDoc] and the
    [Run] methods of [DocsWriteCmd] and [DocsAppendCmd], together with the
    parts of Go's [strings], [unicode] and [unicode/utf8] packages they call.
    It also covers the plain-text reader ([docsPlainText],
    [appendDocsElementText], [appendLimited]), [DocsClearCmd.Run] and
    [processInlineFormatting] of the earlier revision of the file.

    Conventions.  A Go [string] is its sequence of bytes ([list byte]).
    Values of type [int64] are integers in [Z] and every [int64] addition
    is followed by [wrap64].  Values of type [int] that index a string or a
    slice stay between [-1] and the length of the indexed value plus a
    small constant, so they are kept in [Z] as they are.  The Docs service
    is an interface of two operations acting on an abstract remote state. *)

From Stdlib Require Import Strings.String Strings.Byte.
From Stdlib Require Import ZArith List Lia Bool.
Import ListNotations.
Local Open Scope Z_scope.

(** ** Machine integers *)

(** Two's complement reduction of an integer to the range of [int64]. *)
Definition wrap64 (z : Z) : Z := (z + 2 ^ 63) mod 2 ^ 64 - 2 ^ 63.

(** ** Go strings *)

Definition gostring := list byte.

(** A string literal of the source. *)
Definition lit (s : string) : gostring := list_byte_of_string s.

(** [len(s)] *)
Definition len {A : Type} (s : list A) : Z := Z.of_nat (length s).

(** The numeric value of a byte. *)
Definition byteZ (b : byte) : Z := Z.of_N (Byte.to_N b).

(** [s[i]] as a number; the callers below only read inside the string. *)
Definition at_ (s : gostring) (i : nat) : Z := byteZ (nth i s x00).

(** [s[:i]] and [s[i:]]; every use below has [0 <= i <= len(s)]. *)
Definition slice_to {A : Type} (s : list A) (i : Z) : list A := firstn (Z.to_nat i) s.
Definition slice_from {A : Type} (s : list A) (i : Z) : list A := skipn (Z.to_nat i) s.

(** [s[i:j]] *)
Definition slice {A : Type} (s : list A) (i j : Z) : list A :=
  slice_from (slice_to s j) i.

Definition bytes_eqb (a b : gostring) : bool :=
  if list_eq_dec Byte.byte_eq_dec a b then true else false.

(** [strings.HasPrefix] *)
Fixpoint HasPrefix (s prefix : gostring) {struct prefix} : bool :=
  match prefix, s with
  | [], _ => true
  | _ :: _, [] => false
  | p :: prefix', c :: s' => Byte.eqb c p && HasPrefix s' prefix'
  end.

(** [strings.TrimPrefix] *)
Definition TrimPrefix (s prefix : gostring) : gostring :=
  if HasPrefix s prefix then slice_from s (len prefix) else s.

(** [strings.Index]: the byte index of the first occurrence of [substr]
    in [s], or [-1]. *)
Fixpoint Index (s substr : gostring) : Z :=
  if HasPrefix s substr then 0
  else match s with
       | [] => -1
       | _ :: s' => let i := Index s' substr in
                    if i =? -1 then -1 else i + 1
       end.

(** [strings.Split] for a non-empty separator (the loop of [genSplit]). *)
Fixpoint Split_loop (fuel : nat) (s sep : gostring) : list gostring :=
  match fuel with
  | O => [s]
  | S fuel' =>
      let m := Index s sep in
      if m <? 0 then [s]
      else slice_to s m :: Split_loop fuel' (slice_from s (m + len sep)) sep
  end.

Definition Split (s sep : gostring) : list gostring :=
  Split_loop (length s) s sep.

(** [strings.TrimRight] with a cutset of one ASCII byte ([trimRightByte]). *)
Fixpoint dropWhile {A : Type} (f : A -> bool) (l : list A) : list A :=
  match l with
  | [] => []
  | x :: l' => if f x then dropWhile f l' else l
  end.

Definition trimRightByte (s : gostring) (c : byte) : gostring :=
  rev (dropWhile (Byte.eqb c) (rev s)).

(** ** UTF-8 decoding ([unicode/utf8]) *)

Definition RuneError : Z := 0xFFFD.
Definition RuneSelf : Z := 0x80.
Definition locb : Z := 0x80.
Definition hicb : Z := 0xBF.

(** The entries of the table [first], with the accept range of the second
    byte already looked up in [acceptRanges]. *)
Inductive firstInfo : Type :=
| ASCII
| Invalid
| Lead (sz : Z) (lo hi : Z).

Definition first (b : Z) : firstInfo :=
  if b <? 0x80 then ASCII
  else if b <? 0xC2 then Invalid
  else if b <? 0xE0 then Lead 2 locb hicb
  else if b =? 0xE0 then Lead 3 0xA0 hicb
  else if b <? 0xED then Lead 3 locb hicb
  else if b =? 0xED then Lead 3 locb 0x9F
  else if b <? 0xF0 then Lead 3 locb hicb
  else if b =? 0xF0 then Lead 4 0x90 hicb
  else if b <? 0xF4 then Lead 4 locb hicb
  else if b =? 0xF4 then Lead 4 locb 0x8F
  else Invalid.

(** [utf8.DecodeRuneInString]: the rune at the start of [s] and its width
    in bytes; an invalid or short encoding gives [(RuneError, 1)]. *)
Definition DecodeRuneInString (s : gostring) : Z * Z :=
  let n := len s in
  if n <? 1 then (RuneError, 0)
  else
    let s0 := at_ s 0 in
    match first s0 with
    | ASCII => (s0, 1)
    | Invalid => (RuneError, 1)
    | Lead sz lo hi =>
        if n <? sz then (RuneError, 1)
        else
          let s1 := at_ s 1 in
          if (s1 <? lo) || (hi <? s1) then (RuneError, 1)
          else if sz <=? 2 then
            (Z.lor (Z.shiftl (Z.land s0 0x1F) 6) (Z.land s1 0x3F), 2)
          else
            let s2 := at_ s 2 in
            if (s2 <? locb) || (hicb <? s2) then (RuneError, 1)
            else if sz <=? 3 then
              (Z.lor (Z.lor (Z.shiftl (Z.land s0 0x0F) 12)
                            (Z.shiftl (Z.land s1 0x3F) 6))
                     (Z.land s2 0x3F), 3)
            else
              let s3 := at_ s 3 in
              if (s3 <? locb) || (hicb <? s3) then (RuneError, 1)
              else
                (Z.lor (Z.lor (Z.lor (Z.shiftl (Z.land s0 0x07) 18)
                                     (Z.shiftl (Z.land s1 0x3F) 12))
                              (Z.shiftl (Z.land s2 0x3F) 6))
                       (Z.land s3 0x3F), 4)
    end.

(** The decoding steps of [for _, r := range s]: each rune with its width. *)
Fixpoint decodeAll_loop (fuel : nat) (s : gostring) : list (Z * Z) :=
  match fuel with
  | O => []
  | S fuel' =>
      match s with
      | [] => []
      | _ :: _ =>
          let rw := DecodeRuneInString s in
          rw :: decodeAll_loop fuel' (slice_from s (snd rw))
      end
  end.

Definition decodeAll (s : gostring) : list (Z * Z) := decodeAll_loop (length s) s.

(** The runes visited by [for _, r := range s]. *)
Definition range_runes (s : gostring) : list Z := map fst (decodeAll s).

(** [utf8.ValidString] *)
Definition ValidString (s : gostring) : bool :=
  forallb (fun rw => negb ((fst rw =? RuneError) && (snd rw =? 1))) (decodeAll s).

(** [utf8.RuneStart] *)
Definition RuneStart (b : Z) : bool := negb (Z.land b 0xC0 =? 0x80).

(** [utf8.DecodeLastRuneInString] *)
Definition DecodeLastRuneInString (s : gostring) : Z * Z :=
  let end_ := len s in
  if end_ =? 0 then (RuneError, 0)
  else
    let start := end_ - 1 in
    let r := at_ s (Z.to_nat start) in
    if r <? RuneSelf then (r, 1)
    else
      let lim := if end_ - 4 <? 0 then 0 else end_ - 4 in
      (* for start--; start >= lim; start-- { if RuneStart(s[start]) { break } } *)
      let fix back (fuel : nat) (start : Z) : Z :=
        match fuel with
        | O => start
        | S fuel' =>
            if start <? lim then start
            else if RuneStart (at_ s (Z.to_nat start)) then start
            else back fuel' (start - 1)
        end in
      let start := back 4%nat (start - 1) in
      let start := if start <? 0 then 0 else start in
      let '(r, size) := DecodeRuneInString (slice s start end_) in
      if negb (start + size =? end_) then (RuneError, 1) else (r, size).

(** ** White space ([unicode.IsSpace], [strings.TrimSpace]) *)

Definition IsSpace (r : Z) : bool :=
  if r <=? 0xFF then
    (r =? 0x09) || (r =? 0x0A) || (r =? 0x0B) || (r =? 0x0C) || (r =? 0x0D)
    || (r =? 0x20) || (r =? 0x85) || (r =? 0xA0)
  else
    (r =? 0x1680) || ((0x2000 <=? r) && (r <=? 0x200A)) || (r =? 0x2028)
    || (r =? 0x2029) || (r =? 0x202F) || (r =? 0x205F) || (r =? 0x3000).

(** The table [asciiSpace]. *)
Definition asciiSpace (c : Z) : bool :=
  (c =? 0x09) || (c =? 0x0A) || (c =? 0x0B) || (c =? 0x0C) || (c =? 0x0D)
  || (c =? 0x20).

(** [indexFunc(s, f, false)]: the index of the first rune not satisfying [f]. *)
Fixpoint indexFunc_false (fuel : nat) (f : Z -> bool) (s : gostring) (i : Z) : Z :=
  match fuel with
  | O => -1
  | S fuel' =>
      match s with
      | [] => -1
      | _ :: _ =>
          let '(r, w) := DecodeRuneInString s in
          if negb (f r) then i
          else indexFunc_false fuel' f (slice_from s w) (i + w)
      end
  end.

(** [strings.TrimLeftFunc] *)
Definition TrimLeftFunc (s : gostring) (f : Z -> bool) : gostring :=
  let i := indexFunc_false (length s) f s 0 in
  if i =? -1 then [] else slice_from s i.

(** [lastIndexFunc(s, f, false)] *)
Fixpoint lastIndexFunc_false (fuel : nat) (f : Z -> bool) (s : gostring) (i : Z) : Z :=
  match fuel with
  | O => -1
  | S fuel' =>
      if 0 <? i then
        let '(r, size) := DecodeLastRuneInString (slice_to s i) in
        let i := i - size in
        if negb (f r) then i else lastIndexFunc_false fuel' f s i
      else -1
  end.

(** [strings.TrimRightFunc] *)
Definition TrimRightFunc (s : gostring) (f : Z -> bool) : gostring :=
  let i := lastIndexFunc_false (length s) f s (len s) in
  let i :=
    if (0 <=? i) && (RuneSelf <=? at_ s (Z.to_nat i))
    then i + snd (DecodeRuneInString (slice_from s i))
    else i + 1 in
  slice_to s i.

(** [strings.TrimFunc] *)
Definition TrimFunc (s : gostring) (f : Z -> bool) : gostring :=
  TrimRightFunc (TrimLeftFunc s f) f.

(** [strings.TrimSpace]: two ASCII scans, falling back to the rune-wise
    functions at the first byte that is not ASCII. *)
Fixpoint TrimSpace_stop (fuel : nat) (s : gostring) (start stop : Z) : gostring :=
  match fuel with
  | O => slice s start stop
  | S fuel' =>
      if start <? stop then
        let c := at_ s (Z.to_nat (stop - 1)) in
        if RuneSelf <=? c then TrimRightFunc (slice s start stop) IsSpace
        else if negb (asciiSpace c) then slice s start stop
        else TrimSpace_stop fuel' s start (stop - 1)
      else slice s start stop
  end.

Fixpoint TrimSpace_start (fuel : nat) (s : gostring) (start : Z) : gostring :=
  match fuel with
  | O => TrimSpace_stop (length s) s start (len s)
  | S fuel' =>
      if start <? len s then
        let c := at_ s (Z.to_nat start) in
        if RuneSelf <=? c then TrimFunc (slice_from s start) IsSpace
        else if negb (asciiSpace c) then TrimSpace_stop (length s) s start (len s)
        else TrimSpace_start fuel' s (start + 1)
      else TrimSpace_stop (length s) s start (len s)
  end.

Definition TrimSpace (s : gostring) : gostring := TrimSpace_start (length s) s 0.

(** ** The Docs API as the code uses it *)

(** [docs.Range] *)
Record Range : Type := { StartIndex : Z; EndIndex : Z }.

(** [docs.Request]: the request kinds built by this file, each with the
    fields the code sets. *)
Inductive Request : Type :=
| InsertText (index : Z) (text : gostring)
| DeleteContentRange (range : Range)
| UpdateParagraphStyle (range : Range) (namedStyleType : string) (fields : string)
| CreateParagraphBullets (range : Range) (bulletPreset : string)
| UpdateTextStyle (range : Range) (bold italic : bool) (fields : string).

(** [docs.StructuralElement], [docs.Body] and [docs.Document]: the fields
    read by the code.  A nil [Body] pointer is [None]. *)
Record StructuralElement : Type := { el_EndIndex : Z }.
Record Body : Type := { Content : list StructuralElement }.
Record Document : Type := { DocBody : option Body }.

(** Go [error] values met on these paths. *)
Inductive error : Type :=
| ApiError (code : Z)                       (* a [*googleapi.Error] *)
| OtherError (msg : string)                 (* any other failure *)
| UsageError (msg : string)                 (* [usage(msg)] *)
| NotFoundError (docID : gostring)          (* "doc not found or not a Google Doc (id=%s)" *)
| Wrapf (prefix : string) (err : error).    (* [fmt.Errorf(prefix + ": %w", err)] *)

(** [isDocsNotFound]: [errors.As] walks the chain of wrapped errors. *)
Fixpoint isDocsNotFound (err : error) : bool :=
  match err with
  | ApiError code => code =? 404
  | Wrapf _ e => isDocsNotFound e
  | _ => false
  end.

(** What the program does to the outside, in order. *)
Inductive event : Type :=
| EvGet (docID : gostring)
| EvBatchUpdate (docID : gostring) (requests : list Request)
| EvWriteJSON (docID : gostring)
| EvPrintf (format : string) (docID : gostring).

(** The two operations of [docs.Service] used here, over a remote state [W]. *)
Record DocsAPI (W : Type) : Type := {
  Documents_Get : gostring -> W -> W * (error + Document);
  Documents_BatchUpdate : gostring -> list Request -> W -> W * option error
}.
Arguments Documents_Get {W} _ _ _.
Arguments Documents_BatchUpdate {W} _ _ _ _.

(** The state threaded through a command: the remote state and the trace
    of events so far. *)
Record St (W : Type) : Type := { remote : W; trace : list event }.
Arguments Build_St {W} _ _.
Arguments remote {W} _.
Arguments trace {W} _.

(** Computations: [None] when the fuel of a loop runs out, otherwise the
    new state with an error or a value. *)
Definition M (W A : Type) : Type := St W -> option (St W * (error + A)).

Definition ret {W A : Type} (a : A) : M W A := fun s => Some (s, inr a).
Definition raise {W A : Type} (e : error) : M W A := fun s => Some (s, inl e).
Definition diverge {W A : Type} : M W A := fun _ => None.
Definition bind {W A B : Type} (m : M W A) (k : A -> M W B) : M W B :=
  fun s => match m s with
           | None => None
           | Some (s', inl e) => Some (s', inl e)
           | Some (s', inr a) => k a s'
           end.
Definition emit {W : Type} (ev : event) : M W unit :=
  fun s => Some ({| remote := remote s; trace := trace s ++ [ev] |}, inr tt).

Declare Scope go_scope.
Delimit Scope go_scope with go.
Notation "x <- m ;; k" := (bind m (fun x => k))
  (at level 61, m at next level, right associativity) : go_scope.
Notation "m ;;; k" := (bind m (fun _ => k))
  (at level 61, right associativity) : go_scope.

Section Service.
Context {W : Type} (api : DocsAPI W).

(** [svc.Documents.Get(id).Context(ctx).Do()] *)
Definition docsGet (docID : gostring) : M W Document :=
  fun s =>
    let '(w, r) := Documents_Get api docID (remote s) in
    Some ({| remote := w; trace := trace s ++ [EvGet docID] |}, r).

(** [svc.Documents.BatchUpdate(id, req).Context(ctx).Do()], result dropped. *)
Definition docsBatchUpdate (docID : gostring) (requests : list Request) : M W unit :=
  fun s =>
    let '(w, r) := Documents_BatchUpdate api docID requests (remote s) in
    Some ({| remote := w; trace := trace s ++ [EvBatchUpdate docID requests] |},
          match r with Some e => inl e | None => inr tt end).
End Service.

(** ** internal/cmd/docs.go *)

(** [utf16CodeUnitCount] *)
Definition utf16CodeUnitCount (s : gostring) : Z :=
  fold_left (fun count r => if 0x10000 <=? r then wrap64 (count + 2)
                            else wrap64 (count + 1))
            (range_runes s) 0.

(** The local types of [writeMarkdownToDoc]. *)
Record formatRange : Type := { start : Z; end_ : Z; bold : bool; italic : bool }.

Record segment : Type := {
  text : gostring;
  style : string;
  isBullet : bool;
  isNumbered : bool;
  ranges : list formatRange
}.

Definition newline : gostring := [x0a].
Definition star : gostring := [x2a].
Definition starstar : gostring := [x2a; x2a].

(** The local variables of the bold/italic loop after one iteration: the
    loop either breaks with the finished text, or goes round again. *)
Inductive loopStep : Type :=
| Break (cleanText : gostring) (ranges : list formatRange)
| Continue (tempText cleanText : gostring) (currentOffset : Z)
           (ranges : list formatRange).

(** One iteration of the bold/italic loop (lines 599-651). *)
Definition inlineBody (tempText cleanText : gostring) (currentOffset : Z)
    (ranges : list formatRange) : loopStep :=
  let boldStart := Index tempText starstar in
  let italicStart := Index tempText star in
  if (boldStart =? -1) && (italicStart =? -1) then
    Break (cleanText ++ tempText) ranges
  else if negb (boldStart =? -1)
          && ((italicStart =? -1) || (boldStart <=? italicStart)) then
    let beforeBold := slice_to tempText boldStart in
    let cleanText := cleanText ++ beforeBold in
    let currentOffset := wrap64 (currentOffset + utf16CodeUnitCount beforeBold) in
    let tempText := slice_from tempText (boldStart + 2) in
    let boldEnd := Index tempText starstar in
    if negb (boldEnd =? -1) then
      let innerText := slice_to tempText boldEnd in
      let ranges := ranges ++
        [{| start := currentOffset;
            end_ := wrap64 (currentOffset + utf16CodeUnitCount innerText);
            bold := true; italic := false |}] in
      let cleanText := cleanText ++ innerText in
      let currentOffset := wrap64 (currentOffset + utf16CodeUnitCount innerText) in
      Continue (slice_from tempText (boldEnd + 2)) cleanText currentOffset ranges
    else
      Continue tempText (cleanText ++ starstar) (wrap64 (currentOffset + 2)) ranges
  else if negb (italicStart =? -1) then
    let beforeItalic := slice_to tempText italicStart in
    let cleanText := cleanText ++ beforeItalic in
    let currentOffset := wrap64 (currentOffset + utf16CodeUnitCount beforeItalic) in
    let tempText := slice_from tempText (italicStart + 1) in
    let italicEnd := Index tempText star in
    if negb (italicEnd =? -1) then
      let innerText := slice_to tempText italicEnd in
      let ranges := ranges ++
        [{| start := currentOffset;
            end_ := wrap64 (currentOffset + utf16CodeUnitCount innerText);
            bold := false; italic := true |}] in
      let cleanText := cleanText ++ innerText in
      let currentOffset := wrap64 (currentOffset + utf16CodeUnitCount innerText) in
      Continue (slice_from tempText (italicEnd + 1)) cleanText currentOffset ranges
    else
      Continue tempText (cleanText ++ star) (wrap64 (currentOffset + 1)) ranges
  else
    Continue tempText cleanText currentOffset ranges.

(** The loop [for { ... }] itself (lines 598-652), one unit of fuel per
    iteration. *)
Fixpoint inlineLoop (fuel : nat) (tempText cleanText : gostring)
    (currentOffset : Z) (ranges : list formatRange)
  : option (gostring * list formatRange) :=
  match fuel with
  | O => None
  | S fuel' =>
      match inlineBody tempText cleanText currentOffset ranges with
      | Break cleanText' ranges' => Some (cleanText', ranges')
      | Continue tempText' cleanText' currentOffset' ranges' =>
          inlineLoop fuel' tempText' cleanText' currentOffset' ranges'
      end
  end.

(** The span extractor on the remaining text of one line: the loop started
    with an empty builder and offset 0. *)
Definition parseInline (text : gostring) : option (gostring * list formatRange) :=
  inlineLoop (S (length text)) text [] 0 [].

(** The heading switch (lines 567-579): the style and the text handed on. *)
Definition headingOf (line trimmed : gostring) : string * gostring :=
  if HasPrefix trimmed (lit "### "%string) then ("HEADING_3"%string, TrimPrefix line (lit "### "%string))
  else if HasPrefix trimmed (lit "## "%string) then ("HEADING_2"%string, TrimPrefix line (lit "## "%string))
  else if HasPrefix trimmed (lit "# "%string) then ("HEADING_1"%string, TrimPrefix line (lit "# "%string))
  else ("NORMAL_TEXT"%string, line).

(** The list-item check (lines 582-590): [isBullet], [isNumbered], text. *)
Definition listItemOf (style : string) (text : gostring) : bool * bool * gostring :=
  if String.eqb style "NORMAL_TEXT" then
    if HasPrefix text (lit "- "%string) || HasPrefix text (lit "* "%string) then
      (true, false, slice_from text 2)
    else if (3 <=? len text) && (0x30 <=? at_ text 0) && (at_ text 0 <=? 0x39)
            && (at_ text 1 =? 0x2E) && (at_ text 2 =? 0x20) then
      (false, true, slice_from text 3)
    else (false, false, text)
  else (false, false, text).

(** The body of the loop over [lines] (lines 549-656). *)
Definition parseLine (line : gostring) : option segment :=
  let line := trimRightByte line x0d in
  let trimmed := TrimSpace line in
  if bytes_eqb trimmed [] then
    Some {| text := newline; style := "NORMAL_TEXT"; isBullet := false;
            isNumbered := false; ranges := [] |}
  else if bytes_eqb trimmed (lit "---"%string) then
    Some {| text := newline; style := "NORMAL_TEXT"; isBullet := false;
            isNumbered := false; ranges := [] |}
  else
    let '(sty, text0) := headingOf line trimmed in
    let '(bullet, numbered, text1) := listItemOf sty text0 in
    match parseInline text1 with
    | None => None
    | Some (cleanText, rs) =>
        Some {| text := cleanText ++ newline; style := sty; isBullet := bullet;
                isNumbered := numbered; ranges := rs |}
    end.

Fixpoint parseLines (lines : list gostring) : option (list segment) :=
  match lines with
  | [] => Some []
  | line :: rest =>
      match parseLine line, parseLines rest with
      | Some s, Some ss => Some (s :: ss)
      | _, _ => None
      end
  end.

(** The segments of a markdown text (lines 546-656). *)
Definition parseMarkdown (markdown : gostring) : option (list segment) :=
  parseLines (Split markdown newline).

(** [fullText] (lines 659-662). *)
Definition fullText (segments : list segment) : gostring :=
  fold_left (fun acc seg => acc ++ text seg) segments [].

(** The text-style request built for one range (lines 727-748). *)
Definition textStyleRequest (paraStartIdx : Z) (r : formatRange) : Request :=
  let fields := (if bold r then ["bold"%string] else [])
                ++ (if italic r then ["italic"%string] else []) in
  UpdateTextStyle {| StartIndex := wrap64 (paraStartIdx + start r);
                     EndIndex := wrap64 (paraStartIdx + end_ r) |}
                  (bold r) (italic r) (String.concat "," fields).

(** [paraEndIdx] of the iteration that starts at [idx] (lines 686-688):
    [idx + int64(len(seg.text))]. *)
Definition paraEndIdx (idx : Z) (seg : segment) : Z := wrap64 (idx + len (text seg)).

(** The requests appended by one iteration of the style loop (lines 686-748). *)
Definition segmentRequests (idx : Z) (seg : segment) : list Request :=
  let paraStartIdx := idx in
  let paraEnd := paraEndIdx idx seg in
  let para := {| StartIndex := paraStartIdx; EndIndex := paraEnd |} in
  (if negb (String.eqb (style seg) "") && negb (String.eqb (style seg) "NORMAL_TEXT")
   then [UpdateParagraphStyle para (style seg) "namedStyleType"] else [])
  ++ (if isBullet seg then [CreateParagraphBullets para "BULLET_DISC_CIRCLE_SQUARE"]
      else if isNumbered seg then [CreateParagraphBullets para "NUMBERED_DECIMAL_NESTED"]
      else [])
  ++ map (textStyleRequest paraStartIdx) (ranges seg).

(** The style loop (lines 683-751). *)
Fixpoint styleLoop (segments : list segment) (idx : Z) (styleRequests : list Request)
  : list Request :=
  match segments with
  | [] => styleRequests
  | seg :: rest =>
      styleLoop rest (paraEndIdx idx seg) (styleRequests ++ segmentRequests idx seg)
  end.

(** The pair [(paraStartIdx, paraEndIdx)] of every iteration of that loop. *)
Fixpoint paraRanges (segments : list segment) (idx : Z) : list Range :=
  match segments with
  | [] => []
  | seg :: rest =>
      {| StartIndex := idx; EndIndex := paraEndIdx idx seg |}
      :: paraRanges rest (paraEndIdx idx seg)
  end.

Definition batchSize : Z := 50.

Section Commands.
Context {W : Type} (api : DocsAPI W).
Local Open Scope go_scope.

(** [return fmt.Errorf(prefix + ": %w", err)] on failure of [m]. *)
Definition wrapErr {A : Type} (prefix : string) (m : M W A) : M W A :=
  fun s => match m s with
           | Some (s', inl err) => Some (s', inl (Wrapf prefix err))
           | r => r
           end.

(** [clearDocsContent] *)
Definition clearDocsContent (docID : gostring) : M W unit :=
  doc <- docsGet api docID ;;
  match DocBody doc with
  | None => ret tt
  | Some body =>
      if len (Content body) =? 0 then ret tt
      else
        let endIndex :=
          fold_left (fun endIndex el =>
                       if endIndex <? el_EndIndex el then el_EndIndex el else endIndex)
                    (Content body) 0 in
        if endIndex <=? 2 then ret tt
        else
          docsBatchUpdate api docID
            [DeleteContentRange {| StartIndex := 1; EndIndex := wrap64 (endIndex - 1) |}]
  end.

(** The batch loop of [writeMarkdownToDoc] (lines 756-768). *)
Fixpoint batchLoop (fuel : nat) (docID : gostring) (styleRequests : list Request)
    (i : Z) : M W unit :=
  match fuel with
  | O => diverge
  | S fuel' =>
      if i <? len styleRequests then
        let end_ := if len styleRequests <? i + batchSize
                    then len styleRequests else i + batchSize in
        wrapErr "apply styles batch"
                (docsBatchUpdate api docID (slice styleRequests i end_)) ;;;
        batchLoop fuel' docID styleRequests (i + batchSize)
      else ret tt
  end.

(** The submission of the style requests (lines 753-769). *)
Definition applyStyleBatches (docID : gostring) (styleRequests : list Request)
  : M W unit :=
  if 0 <? len styleRequests then
    batchLoop (S (length styleRequests)) docID styleRequests 0
  else ret tt.

(** [writeMarkdownToDoc] *)
Definition writeMarkdownToDoc (docID markdown : gostring) (startIdx : Z) : M W unit :=
  match parseMarkdown markdown with
  | None => diverge
  | Some segments =>
      wrapErr "insert text"
              (docsBatchUpdate api docID [InsertText startIdx (fullText segments)]) ;;;
      applyStyleBatches docID (styleLoop segments startIdx [])
  end.

(** What the commands take from the rest of the program: the results of
    [requireAccount], [newDocsService] and [readInput], whether the
    output format is JSON, and the result of [outfmt.WriteJSON]. *)
Record Env : Type := {
  requireAccount : error + gostring;
  newDocsService : option error;
  readInput : error + gostring;
  IsJSON : bool;
  WriteJSON : option error
}.

Definition lift {A : Type} (r : error + A) : M W A :=
  fun s => Some (s, r).
Definition check (r : option error) : M W unit :=
  fun s => Some (s, match r with Some e => inl e | None => inr tt end).

(** The report at the end of a command (lines 376-383 and 434-441). *)
Definition report (env : Env) (format : string) (id : gostring) : M W unit :=
  if IsJSON env then emit (EvWriteJSON id) ;;; check (WriteJSON env)
  else emit (EvPrintf format id).

(** [DocsWriteCmd.Run] *)
Definition DocsWriteCmd_Run (env : Env) (DocID : gostring) : M W unit :=
  _ <- lift (requireAccount env) ;;
  let id := TrimSpace DocID in
  if bytes_eqb id [] then raise (UsageError "empty docId")
  else
    check (newDocsService env) ;;;
    input <- lift (readInput env) ;;
    wrapErr "clear doc content" (clearDocsContent id) ;;;
    writeMarkdownToDoc id input 1 ;;;
    report env "wrote document %s" id.

(** The insertion index computed by [DocsAppendCmd.Run] (lines 424-427). *)
Definition appendEndIndex (doc : Document) : Z :=
  match DocBody doc with
  | None => 1
  | Some body =>
      if 0 <? len (Content body)
      then el_EndIndex (nth (Z.to_nat (len (Content body) - 1)) (Content body)
                            {| el_EndIndex := 0 |})
      else 1
  end.

(** [DocsAppendCmd.Run] *)
Definition DocsAppendCmd_Run (env : Env) (DocID : gostring) : M W unit :=
  _ <- lift (requireAccount env) ;;
  let id := TrimSpace DocID in
  if bytes_eqb id [] then raise (UsageError "empty docId")
  else
    check (newDocsService env) ;;;
    input <- lift (readInput env) ;;
    doc <- (fun s => match docsGet api id s with
                     | Some (s', inl err) =>
                         Some (s', inl (if isDocsNotFound err
                                        then NotFoundError id else err))
                     | r => r
                     end) ;;
    let endIndex := appendEndIndex doc in
    writeMarkdownToDoc id input endIndex ;;;
    report env "appended to document %s" id.
End Commands.

(** A service for running examples: the remote state counts the calls, the
    document returned by [Get] is fixed, and the [failAt]-th call fails. *)
Definition scriptedAPI (doc : Document) (failAt : Z) : DocsAPI Z :=
  {| Documents_Get := fun _ n =>
       (n + 1, if n =? failAt then inl (ApiError 500) else inr doc);
     Documents_BatchUpdate := fun _ _ n =>
       (n + 1, if n =? failAt then Some (ApiError 500) else None) |}.

Definition okEnv (input : gostring) : Env :=
  {| requireAccount := inr (lit "me"%string); newDocsService := None;
     readInput := inr input; IsJSON := false; WriteJSON := None |}.

Definition st0 : St Z := {| remote := 0; trace := [] |}.

(** ** Vocabulary of the statements *)

(** The range recorded for a closed span that starts at offset [o]. *)
Definition spanRange (o : Z) (innerText : gostring) (isBold : bool) : formatRange :=
  {| start := o; end_ := wrap64 (o + utf16CodeUnitCount innerText);
     bold := isBold; italic := negb isBold |}.

(** Well-formed UTF-8, rune by rune. *)
Definition wellFormed (rw : Z * Z) : bool :=
  negb ((fst rw =? RuneError) && (snd rw =? 1)).

Definition unitsOf (r : Z) : Z := if 0x10000 <=? r then 2 else 1.

Definition units (s : gostring) : Z :=
  fold_right (fun rw acc => unitsOf (fst rw) + acc) 0 (decodeAll s).





(** Inputs of the examples below. *)
Definition emoji : gostring := [xf0; x9f; x98; x80].
Definition brokenEacuteLine : gostring :=
  [xc3] ++ lit "****" ++ [xa9] ++ lit "**y**".

(** The claim of C4 for one range: its offsets are UTF-16 offsets of a
    span of the stripped text. *)
Definition utf16Span (clean : gostring) (r : formatRange) : Prop :=
  exists pre inner post,
    clean = pre ++ inner ++ post /\
    start r = utf16CodeUnitCount pre /\
    end_ r = utf16CodeUnitCount (pre ++ inner).

Definition boldThenItalic : gostring := lit "x **b** *c*".
Definition italicThenBold : gostring := lit "*a* **b**".
Definition boldNeverClosed : gostring := lit "x **b *c*".

Definition headingEacute : gostring := lit "# " ++ [xc3; xa9].

(** Consecutive chunks of at most [n] elements, in order. *)
Fixpoint chunks_loop {A : Type} (fuel n : nat) (l : list A) : list (list A) :=
  match fuel with
  | O => []
  | S fuel' =>
      match l with
      | [] => []
      | _ :: _ => firstn n l :: chunks_loop fuel' n (skipn n l)
      end
  end.

Definition chunks {A : Type} (n : nat) (l : list A) : list (list A) :=
  chunks_loop (length l) n l.

(** The remote state after a sequence of batch calls, with the outcome of
    each call. *)
Fixpoint replay {W : Type} (api : DocsAPI W) (docID : gostring)
    (batches : list (list Request)) (w : W) : W * list (option error) :=
  match batches with
  | [] => (w, [])
  | b :: bs =>
      let '(w', r) := Documents_BatchUpdate api docID b w in
      let '(w'', rs) := replay api docID bs w' in
      (w'', r :: rs)
  end.

(** The end-of-document offset: the largest [EndIndex] of the content. *)
Definition endOfDoc (doc : Document) : Z :=
  match DocBody doc with
  | None => 0
  | Some body => fold_right Z.max 0 (map el_EndIndex (Content body))
  end.

(** The [EndIndex] of the last content element, or 1 without content. *)
Definition lastEndIndex (doc : Document) : Z :=
  match DocBody doc with
  | None => 1
  | Some body =>
      match rev (Content body) with
      | [] => 1
      | el :: _ => el_EndIndex el
      end
  end.

(** A document with content elements ending at the given indices. *)
Definition docWithEnds (ends : list Z) : Document :=
  {| DocBody := Some {| Content := map Build_StructuralElement ends |} |}.

(** ** Plain text of a document ([docsPlainText] and its helpers) *)

(** [docs.TextRun], [docs.ParagraphElement] and [docs.Paragraph]: the fields
    read by [appendDocsElementText].  A nil [TextRun] pointer is [None]. *)
Record TextRun : Type := { tr_Content : gostring }.
Record ParagraphElement : Type := { pe_TextRun : option TextRun }.
Record Paragraph : Type := { Elements : list ParagraphElement }.

(** [docs.StructuralElement] with the three fields the text walk reads.  A
    table is its rows ([TableRows]), a row its cells ([TableCells]), a cell
    its [Content]; a table of contents is its [Content].  Content lists
    hold pointers, so an entry can be nil ([None]). *)
Local Unset Elimination Schemes.
Inductive Element : Type :=
| mkElement (el_Paragraph : option Paragraph)
            (el_Table : option (list (list (list (option Element)))))
            (el_TableOfContents : option (list (option Element))).
Local Set Elimination Schemes.

(** [docs.Document] as [docsPlainText] reads it: a nil [Body] is [None]. *)
Record TextDocument : Type := { td_Body : option (list (option Element)) }.

(** [appendLimited]: the new buffer and the result. *)
Definition appendLimited (buf : gostring) (maxBytes : Z) (s : gostring)
  : gostring * bool :=
  if maxBytes <=? 0 then (buf ++ s, true)
  else
    let remaining := maxBytes - len buf in
    if remaining <=? 0 then (buf, false)
    else if remaining <? len s then (buf ++ slice_to s remaining, false)
    else (buf ++ s, true).

(** A step of the text walk takes the buffer and answers with the new
    buffer and whether to go on ([false] is the source's [return false]). *)
Definition walk : Type := gostring -> gostring * bool.

(** [if !first(...) { return false }; next(...)] *)
Definition andThen (first next : walk) : walk :=
  fun buf =>
    let '(buf', ok) := first buf in
    if ok then next buf' else (buf', false).

(** A loop [for i, x := range l { if !body(i, x) { return false } }]. *)
Definition forRange {A : Type} (body : Z -> A -> walk) : Z -> list A -> walk :=
  fix go (i : Z) (l : list A) : walk :=
    match l with
    | [] => fun buf => (buf, true)
    | x :: l' => andThen (body i x) (go (i + 1) l')
    end.

(** [if idx > 0 { if !appendLimited(buf, maxBytes, sep) { return false } }] *)
Definition separator (maxBytes idx : Z) (sep : gostring) : walk :=
  fun buf => if 0 <? idx then appendLimited buf maxBytes sep else (buf, true).

(** The paragraph case of [appendDocsElementText] (lines 256-263). *)
Definition appendParagraph (maxBytes : Z) (p : Paragraph) : walk :=
  forRange (fun _ pe buf =>
              match pe_TextRun pe with
              | None => (buf, true)
              | Some tr => appendLimited buf maxBytes (tr_Content tr)
              end)
           0 (Elements p).

(** [appendDocsElementText] on an element that is not nil.  Rows, cells and
    paragraph elements are dereferenced by the source without a nil check,
    so they are taken as present. *)
Fixpoint appendElement (maxBytes : Z) (el : Element) {struct el} : walk :=
  let appendContent : list (option Element) -> walk :=
    forRange (fun _ (content : option Element) buf =>
                match content with
                | None => (buf, true)
                | Some e => appendElement maxBytes e buf
                end) 0 in
  match el with
  | mkElement (Some p) _ _ => appendParagraph maxBytes p
  | mkElement None (Some rows) _ =>
      forRange (fun rowIdx row =>
                  andThen (separator maxBytes rowIdx [x0a])
                          (forRange (fun cellIdx cell =>
                                       andThen (separator maxBytes cellIdx [x09])
                                               (appendContent cell))
                                    0 row))
               0 rows
  | mkElement None None (Some content) => appendContent content
  | mkElement None None None => fun buf => (buf, true)
  end.

(** [appendDocsElementText] *)
Definition appendDocsElementText (buf : gostring) (maxBytes : Z) (el : option Element)
  : gostring * bool :=
  match el with
  | None => (buf, true)
  | Some e => appendElement maxBytes e buf
  end.

(** [docsPlainText]; a nil [doc] is [None]. *)
Definition docsPlainText (doc : option TextDocument) (maxBytes : Z) : gostring :=
  match doc with
  | None => []
  | Some d =>
      match td_Body d with
      | None => []
      | Some content =>
          fst (forRange (fun _ el buf => appendDocsElementText buf maxBytes el)
                        0 content [])
      end
  end.

(** [docsWebViewLink] *)
Definition docsWebViewLink (id : gostring) : gostring :=
  let id := TrimSpace id in
  if bytes_eqb id [] then []
  else lit "https://docs.google.com/document/d/" ++ id ++ lit "/edit".

Section MoreCommands.
Context {W : Type} (api : DocsAPI W).
Local Open Scope go_scope.

(** [DocsClearCmd.Run] *)
Definition DocsClearCmd_Run (env : Env) (DocID : gostring) : M W unit :=
  _ <- lift (requireAccount env) ;;
  let id := TrimSpace DocID in
  if bytes_eqb id [] then raise (UsageError "empty docId")
  else
    check (newDocsService env) ;;;
    clearDocsContent api id ;;;
    report env "cleared document %s" id.
End MoreCommands.

(** ** The earlier revision of the writer (src/unnamed/part_001) *)

(** [strings.ReplaceAll(s, old, "")] for a non-empty [old]: the occurrences
    of [old] found from left to right, without overlap, are dropped. *)
Fixpoint removeAll_loop (fuel : nat) (s old : gostring) : gostring :=
  match fuel with
  | O => s
  | S fuel' =>
      let j := Index s old in
      if j <? 0 then s
      else slice_to s j ++ removeAll_loop fuel' (slice_from s (j + len old)) old
  end.

Definition removeAll (s old : gostring) : gostring :=
  removeAll_loop (length s) s old.

(** [processInlineFormatting] of the earlier revision (lines 538-550). *)
Definition processInlineFormatting (text : gostring) : gostring :=
  let text := removeAll text starstar in
  let text := removeAll text star in
  text.

(** ** Vocabulary of the further statements *)

(** [P] on an entry of a content list, when the entry is not nil. *)
Definition onSome (P : Element -> Prop) (c : option Element) : Prop :=
  match c with
  | Some e => P e
  | None => True
  end.

(** A walk that never stops and only adds to the buffer. *)
Definition extends (w : walk) : Prop :=
  forall buf, snd (w buf) = true /\ exists t, fst (w buf) = buf ++ t.

(** [lim] is [unl] cut at [m] bytes: from a buffer of at most [m] bytes,
    [lim] either goes on with the buffer of [unl], still within [m], or
    stops with exactly the first [m] bytes of it. *)
Definition truncates (m : Z) (lim unl : walk) : Prop :=
  forall buf, len buf <= m ->
    if snd (lim buf)
    then fst (lim buf) = fst (unl buf) /\ len (fst (lim buf)) <= m
    else len (fst (lim buf)) = m /\ fst (lim buf) = slice_to (fst (unl buf)) m.

(** A walk that adds the same text to whatever buffer it gets. *)
Definition selfContained (w : walk) : Prop :=
  forall buf, w buf = (buf ++ fst (w []), true).

(** The text of one content entry, without limit. *)
Definition plainOf (el : option Element) : gostring :=
  fst (appendDocsElementText [] 0 el).

(** An element made of one paragraph with one text run. *)
Definition textElement (s : gostring) : option Element :=
  Some (mkElement (Some {| Elements := [{| pe_TextRun := Some {| tr_Content := s |} |}] |})
                  None None).

(** A paragraph element with the given runs; [None] is a paragraph element
    without a text run. *)
Definition paragraphElement (runs : list (option gostring)) : option Element :=
  Some (mkElement
          (Some {| Elements :=
                     map (fun r => {| pe_TextRun :=
                                        match r with
                                        | Some s => Some {| tr_Content := s |}
                                        | None => None
                                        end |}) runs |})
          None None).

(** The text of the runs of a paragraph. *)
Definition runsText (runs : list (option gostring)) : gostring :=
  concat (map (fun r => match r with Some s => s | None => [] end) runs).

(** A document for the examples: a paragraph, a table of two rows of two
    cells, a nil entry and a last paragraph. *)
Definition sampleDoc : option TextDocument :=
  Some {| td_Body :=
            Some [textElement (lit "Hello ");
                  Some (mkElement None
                          (Some [[[textElement (lit "a")]; [textElement (lit "b")]];
                                 [[textElement (lit "c")]; [textElement (lit "d")]]])
                          None);
                  None;
                  textElement (lit "end")] |}.

(** A table element. *)
Definition tableElement (rows : list (list (list (option Element)))) : option Element :=
  Some (mkElement None (Some rows) None).

(** The pieces of [l] with [sep] between them. *)
Fixpoint joinWith (sep : gostring) (l : list gostring) : gostring :=
  match l with
  | [] => []
  | [x] => x
  | x :: l' => x ++ sep ++ joinWith sep l'
  end.

(** Ranges in increasing order from [o] on: each starts at or after the
    end of the one before it and does not end before it starts. *)
Fixpoint orderedFrom (o : Z) (rs : list formatRange) : Prop :=
  match rs with
  | [] => True
  | r :: rs' => o <= start r /\ start r <= end_ r /\ orderedFrom (end_ r) rs'
  end.

(** The four paragraph styles the tokenizer hands out. *)
Definition knownStyle (s : string) : Prop :=
  s = "NORMAL_TEXT"%string \/ s = "HEADING_1"%string \/
  s = "HEADING_2"%string \/ s = "HEADING_3"%string.

(** Events that only print. *)
Definition isOutput (ev : event) : Prop :=
  match ev with
  | EvWriteJSON _ | EvPrintf _ _ => True
  | _ => False
  end.

(** A service on which no call fails. *)
Definition neverFails {W : Type} (api : DocsAPI W) : Prop :=
  forall docID reqs w, snd (Documents_BatchUpdate api docID reqs w) = None.


(** The bytes of [s] other than [*], in order. *)
Definition withoutStars (s : gostring) : gostring :=
  filter (fun b => negb (Byte.eqb b x2a)) s.

(** How often the byte [c] occurs in [s]. *)
Definition countByte (c : byte) (s : gostring) : nat :=
  count_occ Byte.byte_eq_dec s c.

(** Text of ASCII bytes only. *)
Definition allAscii (s : gostring) : Prop :=
  Forall (fun b => byteZ b < 0x80) s.

(** [t] is made of bytes of [s] and is not longer than [s]. *)
Definition byteCut (s t : gostring) : Prop :=
  len t <= len s /\ incl t s.

(** A service on which every call succeeds and [Get] returns [doc]. *)
Definition quietAPI (doc : Document) : DocsAPI unit :=
  {| Documents_Get := fun _ w => (w, inr doc);
     Documents_BatchUpdate := fun _ _ w => (w, None) |}.

(** Bytes that start no markdown construct of the writer. *)
Definition plainByte (b : byte) : Prop :=
  b <> x2a /\ b <> x23 /\ b <> x2d /\ b <> x2e.

(** The text of a line that holds no markdown construct: the line
    without its trailing carriage returns, or nothing for a blank line,
    and a newline. *)
Definition plainLineText (line : gostring) : gostring :=
  let l := trimRightByte line x0d in
  (if bytes_eqb (TrimSpace l) [] then [] else l) ++ newline.

(** Requests that style text already in the document. *)
Definition isStyleRequest (rq : Request) : Prop :=
  match rq with
  | UpdateParagraphStyle _ _ _ | CreateParagraphBullets _ _
  | UpdateTextStyle _ _ _ _ => True
  | _ => False
  end.

(** Requests that remove nothing from the document. *)
Definition keepsContent (rq : Request) : Prop :=
  match rq with
  | DeleteContentRange _ => False
  | _ => True
  end.

(** An event of a command run on document [id]: a call names [id], and a
    batch holds only requests satisfying [P]. *)
Definition eventOn (id : gostring) (P : Request -> Prop) (ev : event) : Prop :=
  match ev with
  | EvGet d => d = id
  | EvBatchUpdate d reqs => d = id /\ Forall P reqs
  | EvWriteJSON d => d = id
  | EvPrintf _ d => d = id
  end.

(** ** The cut of a line by the scan *)

(** The scan cuts the remaining text of a line into pieces: text without a
    star, followed by a closed span or by a delimiter that is never closed.
    What is left behind the last piece holds no star. *)
Inductive piece : Type :=
| Closed (before : gostring) (isBold : bool) (inner : gostring)
| Unclosed (before : gostring) (isBold : bool).

Definition delimiter (isBold : bool) : gostring :=
  if isBold then starstar else star.

(** The bytes of the line a piece stands for. *)
Definition pieceSource (p : piece) : gostring :=
  match p with
  | Closed before k inner => before ++ delimiter k ++ inner ++ delimiter k
  | Unclosed before k => before ++ delimiter k
  end.

(** What a piece leaves in the plain text: a closed span loses its
    delimiters, a delimiter that is never closed is kept. *)
Definition pieceText (p : piece) : gostring :=
  match p with
  | Closed before _ inner => before ++ inner
  | Unclosed before k => before ++ delimiter k
  end.

Fixpoint sourceOf (ps : list piece) (tail : gostring) : gostring :=
  match ps with
  | [] => tail
  | p :: ps' => pieceSource p ++ sourceOf ps' tail
  end.

Fixpoint strippedOf (ps : list piece) (tail : gostring) : gostring :=
  match ps with
  | [] => tail
  | p :: ps' => pieceText p ++ strippedOf ps' tail
  end.

(** The ranges of the closed spans as UTF-16 offsets into the plain text:
    [pre] is the plain text that stands before the pieces, a range starts
    at the UTF-16 length of the plain text before its span and ends at the
    UTF-16 length of the plain text up to the end of its span. *)
Fixpoint utf16Ranges (pre : gostring) (ps : list piece) : list formatRange :=
  match ps with
  | [] => []
  | Closed before k inner :: ps' =>
      {| start := utf16CodeUnitCount (pre ++ before);
         end_ := utf16CodeUnitCount (pre ++ before ++ inner);
         bold := k; italic := negb k |}
      :: utf16Ranges (pre ++ before ++ inner) ps'
  | Unclosed before k :: ps' => utf16Ranges (pre ++ before ++ delimiter k) ps'
  end.

(** The cut is the one the scan makes, from left to right: the text before
    a delimiter holds no star; a bold span is closed by the first double
    star behind its opening one; an italic span opens at a star that is not
    doubled and is closed by the next star; a double star is left unclosed
    when no double star follows, a star when no star follows. *)
Fixpoint scanned (ps : list piece) (tail : gostring) : Prop :=
  match ps with
  | [] => ~ In x2a tail
  | p :: ps' =>
      let rest := sourceOf ps' tail in
      match p with
      | Closed before true inner =>
          ~ In x2a before /\ Index (inner ++ starstar ++ rest) starstar = len inner
      | Closed before false inner =>
          ~ In x2a before /\ ~ In x2a inner /\
          HasPrefix (inner ++ star ++ rest) star = false
      | Unclosed before true => ~ In x2a before /\ Index rest starstar = -1
      | Unclosed before false => ~ In x2a before /\ ~ In x2a rest
      end /\ scanned ps' tail
  end.

(** What stands behind the text before the first delimiter of a piece. *)
Definition behind (p : piece) (rest : gostring) : gostring :=
  match p with
  | Closed _ true inner => x2a :: inner ++ starstar ++ rest
  | Closed _ false inner => inner ++ star ++ rest
  | Unclosed _ true => x2a :: rest
  | Unclosed _ false => rest
  end.

Definition beforeOf (p : piece) : gostring :=
  match p with
  | Closed before _ _ => before
  | Unclosed before _ => before
  end.

(** A range moved by [k] code units. *)
Definition shift (k : Z) (r : formatRange) : formatRange :=
  {| start := k + start r; end_ := k + end_ r; bold := bold r; italic := italic r |}.

(** [clean] is [text] with some of its stars left out: every other byte is
    kept, in its place, and nothing is added. *)
Inductive starsDropped : gostring -> gostring -> Prop :=
| sd_nil : starsDropped [] []
| sd_keep b text clean : starsDropped text clean -> starsDropped (b :: text) (b :: clean)
| sd_drop text clean : starsDropped text clean -> starsDropped (x2a :: text) clean.

(** Further inputs of the examples. *)
Definition emojiBeforeSecondBold : gostring :=
  lit "**a** " ++ emoji ++ lit " **b** b".
Definition loneStarThenBold : gostring := lit "*a **b".

(** * Properties *)

Lemma len_nonneg {A} (s : list A) : 0 <= len s.
Proof. unfold len; lia. Qed.

Lemma len_app {A} (a b : list A) : len (a ++ b) = len a + len b.
Proof. unfold len; rewrite length_app; lia. Qed.

Lemma slice_to_from {A} (s : list A) i : slice_to s i ++ slice_from s i = s.
Proof. apply firstn_skipn. Qed.

Lemma slice_to_app_len {A} (a b : list A) : slice_to (a ++ b) (len a) = a.
Proof.
  unfold slice_to, len. rewrite Nat2Z.id, firstn_app, Nat.sub_diag, firstn_all.
  simpl. apply app_nil_r.
Qed.

Lemma slice_from_app_len {A} (a b : list A) : slice_from (a ++ b) (len a) = b.
Proof.
  unfold slice_from, len. rewrite Nat2Z.id, skipn_app, Nat.sub_diag, skipn_all.
  reflexivity.
Qed.

Lemma slice_from_app_len_plus {A} (a m b : list A) k :
  k = len a + len m -> slice_from (a ++ m ++ b) k = b.
Proof.
  intros ->. rewrite app_assoc, <- len_app. apply slice_from_app_len.
Qed.

Lemma HasPrefix_true s p : HasPrefix s p = true <-> exists t, s = p ++ t.
Proof.
  revert s; induction p as [|c p IH]; intros s; simpl.
  - split; [intros _; exists s; reflexivity | auto].
  - destruct s as [|d s].
    + split; [discriminate | intros [t H]; discriminate].
    + rewrite andb_true_iff, IH. split.
      * intros [E [t ->]]. apply Byte.byte_dec_bl in E; subst. eauto.
      * intros [t H]; injection H as -> ->. split; eauto.
        destruct (Byte.eqb c c) eqn:E; auto.
        apply Byte.eqb_false in E; congruence.
Qed.

Lemma Index_found s sub :
  Index s sub <> -1 ->
  exists a b, s = a ++ sub ++ b /\ Index s sub = len a.
Proof.
  induction s as [|c s IH]; simpl.
  - destruct (HasPrefix [] sub) eqn:E; [|congruence].
    intros _. apply HasPrefix_true in E as [t E]. exists [], t; auto.
  - destruct (HasPrefix (c :: s) sub) eqn:E.
    + intros _. apply HasPrefix_true in E as [t E]. exists [], t; auto.
    + destruct (Index s sub =? -1) eqn:E1; [congruence|].
      intros _. apply Z.eqb_neq in E1. destruct (IH E1) as (a & b & -> & Hi).
      exists (c :: a), b. split; auto. rewrite Hi. unfold len; simpl length; lia.
Qed.

Lemma Index_ge s sub : -1 <= Index s sub.
Proof.
  destruct (Z.eq_dec (Index s sub) (-1)) as [->|H]; [lia|].
  destruct (Index_found _ _ H) as (a & b & _ & ->). pose proof (len_nonneg a); lia.
Qed.

(** Everything the loop needs when [Index] finds the marker. *)
Lemma Index_split s sub :
  Index s sub <> -1 ->
  0 <= Index s sub /\
  s = slice_to s (Index s sub) ++ sub ++ slice_from s (Index s sub + len sub) /\
  len s = Index s sub + len sub + len (slice_from s (Index s sub + len sub)).
Proof.
  intros H. destruct (Index_found _ _ H) as (a & b & E & Hi).
  rewrite Hi. split; [apply len_nonneg|].
  assert (E1 : slice_to s (len a) = a) by (rewrite E; apply slice_to_app_len).
  assert (E2 : slice_from s (len a + len sub) = b)
    by (rewrite E; apply slice_from_app_len_plus; reflexivity).
  rewrite E1, E2. split; [exact E|].
  rewrite E at 1. rewrite !len_app. lia.
Qed.

Lemma Index_star_none s : Index s star = -1 <-> ~ In x2a s.
Proof.
  induction s as [|c s IH]; simpl.
  - split; auto.
  - destruct (Byte.eqb c x2a) eqn:E; simpl.
    + apply Byte.byte_dec_bl in E; subst. split; [discriminate | intros H0; exfalso; auto].
    + apply Byte.eqb_false in E.
      destruct (Index s star =? -1) eqn:E1.
      * apply Z.eqb_eq in E1. split; auto. intros _ [H|H]; [congruence|].
        apply IH in E1; auto.
      * apply Z.eqb_neq in E1. pose proof (Index_ge s star).
        split; [lia|]. intros H0. exfalso. apply E1, IH. intros H1; apply H0; auto.
Qed.

Lemma Index_star_before s :
  Index s star <> -1 -> ~ In x2a (slice_to s (Index s star)).
Proof.
  induction s as [|c s IH]; simpl.
  - congruence.
  - destruct (Byte.eqb c x2a) eqn:E; simpl.
    + intros _. unfold slice_to; simpl; auto.
    + apply Byte.eqb_false in E.
      destruct (Index s star =? -1) eqn:E1; [congruence|].
      apply Z.eqb_neq in E1. intros _. pose proof (Index_ge s star).
      unfold slice_to. replace (Z.to_nat (Index s star + 1)) with (S (Z.to_nat (Index s star))) by lia.
      simpl. intros [H1|H1]; [congruence|]. apply (IH E1). exact H1.
Qed.

(** A [**] starts with a [*]: the first [*] is never after the first [**]. *)
Lemma Index_star_le_starstar s :
  Index s starstar <> -1 -> Index s star <> -1 /\ Index s star <= Index s starstar.
Proof.
  induction s as [|c s IH].
  - simpl. congruence.
  - cbn [Index]. destruct (HasPrefix (c :: s) starstar) eqn:E.
    + apply HasPrefix_true in E as [t E]. injection E as -> ->. cbn. lia.
    + destruct (Index s starstar =? -1) eqn:E1; [congruence|].
      apply Z.eqb_neq in E1. destruct (IH E1) as [H1 H2]. intros _.
      destruct (HasPrefix (c :: s) star) eqn:E2.
      * pose proof (Index_ge s starstar). lia.
      * apply Z.eqb_neq in H1. rewrite H1. pose proof (Index_ge s star). lia.
Qed.

Lemma len_starstar : len starstar = 2. Proof. reflexivity. Qed.
Lemma len_star : len star = 1. Proof. reflexivity. Qed.

Lemma inlineBody_break temp c o rs :
  Index temp star = -1 ->
  inlineBody temp c o rs = Break (c ++ temp) rs.
Proof.
  intros Hi. unfold inlineBody.
  destruct (Z.eq_dec (Index temp starstar) (-1)) as [Hb|Hb].
  - rewrite Hb, Hi. reflexivity.
  - apply Index_star_le_starstar in Hb. tauto.
Qed.

Lemma inlineBody_bold temp c o rs :
  Index temp starstar <> -1 ->
  Index temp starstar <= Index temp star ->
  let before := slice_to temp (Index temp starstar) in
  let rest := slice_from temp (Index temp starstar + 2) in
  let o' := wrap64 (o + utf16CodeUnitCount before) in
  inlineBody temp c o rs =
  if Index rest starstar =? -1
  then Continue rest ((c ++ before) ++ starstar) (wrap64 (o' + 2)) rs
  else
    let inner := slice_to rest (Index rest starstar) in
    Continue (slice_from rest (Index rest starstar + 2)) ((c ++ before) ++ inner)
             (wrap64 (o' + utf16CodeUnitCount inner))
             (rs ++ [spanRange o' inner true]).
Proof.
  intros Hb Hle. unfold inlineBody.
  destruct (Index temp starstar =? -1) eqn:E; [apply Z.eqb_eq in E; contradiction|].
  apply Z.leb_le in Hle. rewrite Hle.
  rewrite orb_true_r. cbn [andb negb].
  destruct (Index (slice_from _ _) starstar =? -1); reflexivity.
Qed.

Lemma inlineBody_italic temp c o rs :
  Index temp star <> -1 ->
  Index temp starstar = -1 \/ Index temp star < Index temp starstar ->
  let before := slice_to temp (Index temp star) in
  let rest := slice_from temp (Index temp star + 1) in
  let o' := wrap64 (o + utf16CodeUnitCount before) in
  inlineBody temp c o rs =
  if Index rest star =? -1
  then Continue rest ((c ++ before) ++ star) (wrap64 (o' + 1)) rs
  else
    let inner := slice_to rest (Index rest star) in
    Continue (slice_from rest (Index rest star + 1)) ((c ++ before) ++ inner)
             (wrap64 (o' + utf16CodeUnitCount inner))
             (rs ++ [spanRange o' inner false]).
Proof.
  intros Hi Hb. unfold inlineBody.
  assert (E : negb (Index temp starstar =? -1)
              && ((Index temp star =? -1) || (Index temp starstar <=? Index temp star)) = false).
  { destruct Hb as [Hb|Hb].
    - rewrite Hb. reflexivity.
    - apply Z.leb_gt in Hb. rewrite Hb.
      destruct (Index temp star =? -1) eqn:E1; [apply Z.eqb_eq in E1; contradiction|].
      apply andb_false_r. }
  rewrite E.
  destruct (Index temp star =? -1) eqn:E1; [apply Z.eqb_eq in E1; contradiction|].
  rewrite andb_false_r. cbn [negb].
  destruct (Index (slice_from _ _) star =? -1); reflexivity.
Qed.

(** The three ways an iteration can go, decided by the two searches. *)
Lemma inlineBody_trichotomy temp :
  Index temp star = -1 \/
  (Index temp starstar <> -1 /\ Index temp starstar = Index temp star) \/
  (Index temp star <> -1 /\
   (Index temp starstar = -1 \/ Index temp star < Index temp starstar)).
Proof.
  destruct (Z.eq_dec (Index temp star) (-1)); [auto|].
  destruct (Z.eq_dec (Index temp starstar) (-1)); [auto|].
  pose proof (Index_star_le_starstar temp). lia.
Qed.

(** An induction principle that follows the iterations of the loop, with
    the text of each iteration cut at the markers it found. *)
Lemma inlineLoop_elim
  (P : gostring -> gostring -> Z -> list formatRange ->
       gostring * list formatRange -> Prop) :
  (forall temp c o rs, ~ In x2a temp -> P temp c o rs (c ++ temp, rs)) ->
  (forall before inner rest c o rs res,
      ~ In x2a before ->
      Index (inner ++ starstar ++ rest) starstar = len inner ->
      let o' := wrap64 (o + utf16CodeUnitCount before) in
      P rest ((c ++ before) ++ inner) (wrap64 (o' + utf16CodeUnitCount inner))
        (rs ++ [spanRange o' inner true]) res ->
      P (before ++ starstar ++ inner ++ starstar ++ rest) c o rs res) ->
  (forall before rest c o rs res,
      ~ In x2a before ->
      Index rest starstar = -1 ->
      let o' := wrap64 (o + utf16CodeUnitCount before) in
      P rest ((c ++ before) ++ starstar) (wrap64 (o' + 2)) rs res ->
      P (before ++ starstar ++ rest) c o rs res) ->
  (forall before inner rest c o rs res,
      ~ In x2a before -> ~ In x2a inner ->
      HasPrefix (inner ++ star ++ rest) star = false ->
      let o' := wrap64 (o + utf16CodeUnitCount before) in
      P rest ((c ++ before) ++ inner) (wrap64 (o' + utf16CodeUnitCount inner))
        (rs ++ [spanRange o' inner false]) res ->
      P (before ++ star ++ inner ++ star ++ rest) c o rs res) ->
  (forall before rest c o rs res,
      ~ In x2a before -> ~ In x2a rest ->
      let o' := wrap64 (o + utf16CodeUnitCount before) in
      P rest ((c ++ before) ++ star) (wrap64 (o' + 1)) rs res ->
      P (before ++ star ++ rest) c o rs res) ->
  forall fuel temp c o rs res,
    inlineLoop fuel temp c o rs = Some res -> P temp c o rs res.
Proof.
  intros Hbreak Hbold Hboldopen Hital Hitalopen.
  induction fuel as [|fuel IH]; intros temp c o rs res; [discriminate|].
  cbn [inlineLoop].
  destruct (inlineBody_trichotomy temp) as [Hn | [[Hb He] | [Hi Hb]]].
  - rewrite inlineBody_break by assumption. intros [= <-].
    apply Hbreak. apply Index_star_none; assumption.
  - rewrite inlineBody_bold by lia.
    destruct (Index_split _ _ Hb) as (_ & Et & _). rewrite len_starstar in Et.
    assert (Hbefore : ~ In x2a (slice_to temp (Index temp starstar))).
    { rewrite He. apply Index_star_before. lia. }
    set (before := slice_to temp (Index temp starstar)) in *.
    set (rest := slice_from temp (Index temp starstar + 2)) in *.
    destruct (Index rest starstar =? -1) eqn:Ee.
    + apply Z.eqb_eq in Ee. intros H. rewrite Et.
      apply Hboldopen; auto.
    + apply Z.eqb_neq in Ee. intros H.
      destruct (Index_split _ _ Ee) as (_ & Er & _). rewrite len_starstar in Er.
      rewrite Et, Er. apply Hbold; auto.
      rewrite <- Er.
      destruct (Index_found _ _ Ee) as (a & b & Eab & Hlen).
      rewrite Hlen. f_equal. rewrite Eab. symmetry. apply slice_to_app_len.
  - rewrite inlineBody_italic by assumption.
    destruct (Index_split _ _ Hi) as (_ & Et & _). rewrite len_star in Et.
    pose proof (Index_star_before _ Hi) as Hbefore.
    set (before := slice_to temp (Index temp star)) in *.
    set (rest := slice_from temp (Index temp star + 1)) in *.
    destruct (Index rest star =? -1) eqn:Ee.
    + apply Z.eqb_eq in Ee. intros H. rewrite Et.
      apply Hitalopen; auto. apply Index_star_none; assumption.
    + apply Z.eqb_neq in Ee. intros H.
      destruct (Index_split _ _ Ee) as (_ & Er & _). rewrite len_star in Er.
      pose proof (Index_star_before _ Ee) as Hinner.
      rewrite Et, Er. apply Hital; auto.
      rewrite <- Er.
      (* the first [*] of [temp] does not start a [**] *)
      destruct (HasPrefix rest star) eqn:Hp; [|reflexivity].
      exfalso. apply HasPrefix_true in Hp as [t Hp].
      assert (Hss : Index temp starstar <> -1 /\ Index temp starstar <= Index temp star).
      { rewrite Et, Hp. clear - Hbefore.
        induction before as [|x before IHb].
        - cbn. lia.
        - assert (x <> x2a) by (intros ->; apply Hbefore; left; reflexivity).
          assert (Hb' : ~ In x2a before) by (intros H1; apply Hbefore; right; exact H1).
          specialize (IHb Hb'). destruct IHb as [I1 I2].
          change ((x :: before) ++ star ++ star ++ t)
            with (x :: (before ++ star ++ star ++ t)).
          cbn [Index].
          assert (Ex : Byte.eqb x x2a = false).
          { destruct (Byte.eqb x x2a) eqn:Ex; auto.
            apply Byte.byte_dec_bl in Ex; congruence. }
          cbn [HasPrefix starstar star]. rewrite Ex. cbn [andb].
          apply Z.eqb_neq in I1. rewrite I1.
          destruct (Index_star_le_starstar (before ++ star ++ star ++ t)) as [J1 J2].
          { apply Z.eqb_neq; assumption. }
          apply Z.eqb_neq in J1. rewrite J1.
          pose proof (Index_ge (before ++ star ++ star ++ t) starstar). lia. }
      lia.
Qed.

Lemma slice_from_length_le {A} (s : list A) i :
  (length (slice_from s i) <= length s)%nat.
Proof. unfold slice_from. rewrite length_skipn. lia. Qed.

(** The loop ends: every iteration that goes round again has consumed at
    least one byte of [tempText]. *)
Lemma inlineLoop_total fuel : forall temp c o rs,
  (length temp < fuel)%nat ->
  exists res, inlineLoop fuel temp c o rs = Some res.
Proof.
  induction fuel as [|fuel IH]; intros temp c o rs Hf; [lia|].
  cbn [inlineLoop].
  destruct (inlineBody_trichotomy temp) as [Hn | [[Hb He] | [Hi Hb]]].
  - rewrite inlineBody_break by assumption. eauto.
  - rewrite inlineBody_bold by lia.
    destruct (Index_split _ _ Hb) as (H0 & _ & Hl). rewrite len_starstar in Hl.
    set (rest := slice_from temp (Index temp starstar + 2)) in *.
    assert (Hr : (length rest < fuel)%nat) by (unfold len in Hl; lia).
    destruct (Index rest starstar =? -1) eqn:Ee.
    + apply IH; assumption.
    + apply IH. pose proof (slice_from_length_le rest (Index rest starstar + 2)). lia.
  - rewrite inlineBody_italic by assumption.
    destruct (Index_split _ _ Hi) as (H0 & _ & Hl). rewrite len_star in Hl.
    set (rest := slice_from temp (Index temp star + 1)) in *.
    assert (Hr : (length rest < fuel)%nat) by (unfold len in Hl; lia).
    destruct (Index rest star =? -1) eqn:Ee.
    + apply IH; assumption.
    + apply IH. pose proof (slice_from_length_le rest (Index rest star + 1)). lia.
Qed.

Lemma parseInline_total text : exists res, parseInline text = Some res.
Proof. apply inlineLoop_total. lia. Qed.

Lemma parseLine_total line : exists seg, parseLine line = Some seg.
Proof.
  unfold parseLine.
  destruct (bytes_eqb _ []); [eauto|].
  destruct (bytes_eqb _ _); [eauto|].
  destruct (headingOf _ _) as [sty text0].
  destruct (listItemOf _ _) as [[bullet numbered] text1].
  destruct (parseInline_total text1) as [[cl rs] ->]. eauto.
Qed.

Lemma parseLines_total lines : exists segs, parseLines lines = Some segs.
Proof.
  induction lines as [|l lines [segs IH]]; cbn [parseLines]; [eauto|].
  destruct (parseLine_total l) as [seg ->]. rewrite IH. eauto.
Qed.

Lemma parseMarkdown_total markdown : exists segs, parseMarkdown markdown = Some segs.
Proof. unfold parseMarkdown. apply parseLines_total. Qed.

(** What the loop has built so far is kept: the builder and the range list
    only grow. *)
Lemma inlineLoop_extends fuel temp c o rs res :
  inlineLoop fuel temp c o rs = Some res ->
  (exists x, fst res = c ++ x) /\ (exists y, snd res = rs ++ y).
Proof.
  revert fuel temp c o rs res.
  apply (inlineLoop_elim (fun temp c o rs res =>
    (exists x, fst res = c ++ x) /\ (exists y, snd res = rs ++ y))).
  - intros temp c o rs _. split; [exists temp | exists []]; cbn [fst snd]; rewrite ?app_nil_r; auto.
  - intros before inner rest c o rs res _ _ o' [[x Hx] [y Hy]]. split.
    + exists (before ++ inner ++ x). rewrite Hx, <- !app_assoc. reflexivity.
    + eexists. rewrite Hy, <- app_assoc. reflexivity.
  - intros before rest c o rs res _ _ o' [[x Hx] [y Hy]]. split; [|eauto].
    exists (before ++ starstar ++ x). rewrite Hx, <- !app_assoc. reflexivity.
  - intros before inner rest c o rs res _ _ _ o' [[x Hx] [y Hy]]. split.
    + exists (before ++ inner ++ x). rewrite Hx, <- !app_assoc. reflexivity.
    + eexists. rewrite Hy, <- app_assoc. reflexivity.
  - intros before rest c o rs res _ _ o' [[x Hx] [y Hy]]. split; [|eauto].
    exists (before ++ star ++ x). rewrite Hx, <- !app_assoc. reflexivity.
Qed.

(** The text and the kinds of the ranges a run adds do not depend on the
    state the loop is started in. *)
Lemma inlineLoop_state_independent fuel : forall temp c o rs res c0 o0 rs0 res0,
  inlineLoop fuel temp c o rs = Some res ->
  inlineLoop fuel temp c0 o0 rs0 = Some res0 ->
  exists x y y0,
    fst res = c ++ x /\ fst res0 = c0 ++ x /\
    snd res = rs ++ y /\ snd res0 = rs0 ++ y0 /\
    map bold y = map bold y0.
Proof.
  induction fuel as [|fuel IH]; intros temp c o rs res c0 o0 rs0 res0; [discriminate|].
  cbn [inlineLoop].
  destruct (inlineBody_trichotomy temp) as [Hn | [[Hb He] | [Hi Hb]]].
  - rewrite (inlineBody_break temp c o rs Hn), (inlineBody_break temp c0 o0 rs0 Hn).
    intros [= <-] [= <-].
    exists temp, [], []. cbn [fst snd map]. rewrite !app_nil_r. auto 6.
  - assert (Hle : Index temp starstar <= Index temp star) by lia.
    rewrite (inlineBody_bold temp c o rs Hb Hle), (inlineBody_bold temp c0 o0 rs0 Hb Hle).
    cbv zeta.
    destruct (Index (slice_from temp (Index temp starstar + 2)) starstar =? -1).
    + intros H1 H2.
      destruct (IH _ _ _ _ _ _ _ _ _ H1 H2) as (x & y & y0 & E1 & E2 & E3 & E4 & E5).
      exists (slice_to temp (Index temp starstar) ++ starstar ++ x), y, y0.
      rewrite E1, E2, <- !app_assoc. auto 6.
    + intros H1 H2.
      destruct (IH _ _ _ _ _ _ _ _ _ H1 H2) as (x & y & y0 & E1 & E2 & E3 & E4 & E5).
      rewrite E1, E2, E3, E4, <- !app_assoc. cbn [app].
      do 3 eexists. do 4 (split; [reflexivity|]).
      cbn [map]. unfold spanRange. cbn [bold]. f_equal. exact E5.
  - rewrite (inlineBody_italic temp c o rs Hi Hb), (inlineBody_italic temp c0 o0 rs0 Hi Hb).
    cbv zeta.
    destruct (Index (slice_from temp (Index temp star + 1)) star =? -1).
    + intros H1 H2.
      destruct (IH _ _ _ _ _ _ _ _ _ H1 H2) as (x & y & y0 & E1 & E2 & E3 & E4 & E5).
      exists (slice_to temp (Index temp star) ++ star ++ x), y, y0.
      rewrite E1, E2, <- !app_assoc. auto 6.
    + intros H1 H2.
      destruct (IH _ _ _ _ _ _ _ _ _ H1 H2) as (x & y & y0 & E1 & E2 & E3 & E4 & E5).
      rewrite E1, E2, E3, E4, <- !app_assoc. cbn [app].
      do 3 eexists. do 4 (split; [reflexivity|]).
      cbn [map]. unfold spanRange. cbn [bold]. f_equal. exact E5.
Qed.

Lemma byteZ_range b : 0 <= byteZ b <= 255.
Proof. unfold byteZ. pose proof (Byte.to_N_bounded b). lia. Qed.

Lemma first_Lead z sz lo hi :
  first z = Lead sz lo hi -> (sz = 2 \/ sz = 3 \/ sz = 4) /\ 0x80 <= lo.
Proof.
  unfold first, locb.
  repeat match goal with
         | |- context [?x <? ?y] => destruct (x <? y)
         | |- context [?x =? ?y] => destruct (x =? y)
         end; intros [= <- <- <-] || discriminate; lia.
Qed.

Lemma first_ASCII z : z < 0x80 -> first z = ASCII.
Proof. intros H. unfold first. destruct (Z.ltb_spec z 128); [reflexivity | lia]. Qed.

Ltac zcases :=
  repeat match goal with
         | |- context [?x <? ?y] => destruct (Z.ltb_spec x y)
         | |- context [?x <=? ?y] => destruct (Z.leb_spec x y)
         | |- context [?x =? ?y] => destruct (Z.eqb_spec x y)
         end; cbn [orb andb negb].

Ltac unfold_decode :=
  unfold DecodeRuneInString, at_, len, locb, hicb; cbn [nth length app].

(** The width of a decoded rune: at least one byte, at most the string. *)
Lemma Decode_width s :
  s <> [] -> 1 <= snd (DecodeRuneInString s) <= len s.
Proof.
  destruct s as [|b0 s]; [congruence|]. intros _.
  unfold_decode.
  destruct (first (byteZ b0)) as [| |sz lo hi] eqn:F.
  - zcases; cbn [snd]; lia.
  - zcases; cbn [snd]; lia.
  - destruct (first_Lead _ _ _ _ F) as [[->|[->| ->]] Hlo];
      zcases; cbn [snd]; lia.
Qed.

(** A rune that takes two UTF-16 units is never one byte wide. *)
Lemma Decode_wide s :
  s <> [] -> snd (DecodeRuneInString s) = 1 -> fst (DecodeRuneInString s) < 0x10000.
Proof.
  destruct s as [|b0 s]; [congruence|]. intros _.
  unfold_decode. pose proof (byteZ_range b0).
  destruct (first (byteZ b0)) as [| |sz lo hi] eqn:F.
  - zcases; cbn [fst snd]; unfold RuneError; lia.
  - zcases; cbn [fst snd]; unfold RuneError; lia.
  - destruct (first_Lead _ _ _ _ F) as [[->|[->| ->]] Hlo];
      zcases; cbn [fst snd]; unfold RuneError; lia.
Qed.

(** Decoding looks at the bytes of one rune only: a well-formed rune at the
    start of [a] is decoded the same whatever follows [a]. *)
Lemma Decode_app_valid a b :
  a <> [] -> DecodeRuneInString a <> (RuneError, 1) ->
  DecodeRuneInString (a ++ b) = DecodeRuneInString a.
Proof.
  destruct a as [|b0 a]; [congruence|]. intros _.
  unfold_decode.
  destruct (first (byteZ b0)) as [| |sz lo hi] eqn:F.
  - zcases; try reflexivity; lia.
  - zcases; try reflexivity; lia.
  - destruct (first_Lead _ _ _ _ F) as [[->|[->| ->]] Hlo];
      destruct a as [|b1 [|b2 [|b3 a]]]; cbn [nth length app];
      rewrite ?length_app; zcases; try reflexivity; try congruence; try lia.
Qed.

(** An ASCII byte is never taken as part of the rune before it. *)
Lemma Decode_app_ascii a c b :
  a <> [] -> byteZ c < 0x80 ->
  DecodeRuneInString (a ++ c :: b) = DecodeRuneInString a.
Proof.
  destruct a as [|b0 a]; [congruence|]. intros _ Hc.
  unfold_decode.
  destruct (first (byteZ b0)) as [| |sz lo hi] eqn:F.
  - zcases; try reflexivity; lia.
  - zcases; try reflexivity; lia.
  - destruct (first_Lead _ _ _ _ F) as [[->|[->| ->]] Hlo];
      destruct a as [|b1 [|b2 [|b3 a]]]; cbn [nth length app];
      rewrite ?length_app; cbn [length]; zcases; try reflexivity; try lia.
Qed.

Lemma Decode_ascii c s :
  byteZ c < 0x80 -> DecodeRuneInString (c :: s) = (byteZ c, 1).
Proof.
  intros Hc. unfold_decode. rewrite first_ASCII by assumption.
  zcases; [lia | reflexivity].
Qed.

Lemma slice_from_length {A} (s : list A) i :
  0 <= i <= len s -> len (slice_from s i) = len s - i.
Proof. unfold slice_from, len. rewrite length_skipn. lia. Qed.

Lemma slice_from_app {A} (a b : list A) i :
  0 <= i <= len a -> slice_from (a ++ b) i = slice_from a i ++ b.
Proof.
  unfold slice_from, len. intros H. rewrite skipn_app.
  replace (Z.to_nat i - length a)%nat with 0%nat by lia. reflexivity.
Qed.

(** Enough fuel: the decoding loop does not depend on it. *)
Lemma decodeAll_loop_fuel2 fuel : forall fuel' s,
  (length s <= fuel)%nat -> (length s <= fuel')%nat ->
  decodeAll_loop fuel s = decodeAll_loop fuel' s.
Proof.
  induction fuel as [|fuel IH]; intros fuel' s Hs Hs'.
  - destruct s; [destruct fuel'; reflexivity | cbn in Hs; lia].
  - destruct s as [|b0 s]; [destruct fuel'; reflexivity|].
    destruct fuel' as [|fuel']; [cbn in Hs'; lia|].
    cbn [decodeAll_loop]. f_equal.
    pose proof (Decode_width (b0 :: s) ltac:(congruence)) as Hw.
    pose proof (slice_from_length (b0 :: s) (snd (DecodeRuneInString (b0 :: s))) ltac:(lia)) as Hl.
    unfold len in Hl, Hw. cbn [length] in Hl, Hw, Hs, Hs'.
    apply IH; lia.
Qed.

Lemma decodeAll_loop_fuel fuel s :
  (length s <= fuel)%nat -> decodeAll_loop fuel s = decodeAll s.
Proof. intros H. apply decodeAll_loop_fuel2; [assumption | lia]. Qed.

Lemma decodeAll_nil : decodeAll [] = [].
Proof. reflexivity. Qed.

Lemma decodeAll_step s :
  s <> [] ->
  decodeAll s =
  DecodeRuneInString s :: decodeAll (slice_from s (snd (DecodeRuneInString s))).
Proof.
  destruct s as [|b0 s]; [congruence|]. intros _.
  unfold decodeAll at 1. cbn [length decodeAll_loop]. f_equal.
  apply decodeAll_loop_fuel.
  pose proof (Decode_width (b0 :: s) ltac:(congruence)) as Hw.
  pose proof (slice_from_length (b0 :: s) (snd (DecodeRuneInString (b0 :: s))) ltac:(lia)) as Hl.
  unfold len in Hl, Hw. cbn [length] in Hl, Hw. lia.
Qed.

Lemma wellFormed_neq rw : wellFormed rw = true -> rw <> (RuneError, 1).
Proof.
  unfold wellFormed. intros H ->. cbn in H. discriminate.
Qed.

Lemma decodeAll_app_valid a : forall b,
  ValidString a = true -> decodeAll (a ++ b) = decodeAll a ++ decodeAll b.
Proof.
  remember (length a) as n eqn:Hn. revert a Hn.
  induction n as [n IH] using lt_wf_ind. intros a Hn b Hv.
  destruct a as [|b0 a]; [reflexivity|].
  assert (Hne : b0 :: a <> []) by congruence.
  unfold ValidString in Hv. rewrite (decodeAll_step _ Hne) in Hv.
  cbn [forallb] in Hv. apply andb_true_iff in Hv as [Hv1 Hv2].
  pose proof (Decode_width _ Hne) as Hw.
  rewrite (decodeAll_step (b0 :: a)) by assumption.
  rewrite (decodeAll_step ((b0 :: a) ++ b)) by (cbn; congruence).
  rewrite Decode_app_valid by (auto using wellFormed_neq).
  cbn [app]. f_equal.
  change (b0 :: a ++ b) with ((b0 :: a) ++ b).
  rewrite slice_from_app by lia.
  apply (IH (length (slice_from (b0 :: a) (snd (DecodeRuneInString (b0 :: a)))))); auto.
  pose proof (slice_from_length (b0 :: a) (snd (DecodeRuneInString (b0 :: a))) ltac:(lia)) as Hl.
  unfold len in Hl, Hw. lia.
Qed.

Lemma decodeAll_app_ascii a : forall c b,
  byteZ c < 0x80 ->
  decodeAll (a ++ c :: b) = decodeAll a ++ (byteZ c, 1) :: decodeAll b.
Proof.
  remember (length a) as n eqn:Hn. revert a Hn.
  induction n as [n IH] using lt_wf_ind. intros a Hn c b Hc.
  destruct a as [|b0 a].
  - cbn [app]. rewrite decodeAll_step by congruence.
    rewrite Decode_ascii by assumption. reflexivity.
  - assert (Hne : b0 :: a <> []) by congruence.
    pose proof (Decode_width _ Hne) as Hw.
    rewrite (decodeAll_step (b0 :: a)) by assumption.
    rewrite (decodeAll_step ((b0 :: a) ++ c :: b)) by (cbn; congruence).
    rewrite Decode_app_ascii by assumption.
    cbn [app]. f_equal.
    change (b0 :: a ++ c :: b) with ((b0 :: a) ++ c :: b).
    rewrite slice_from_app by lia.
    apply (IH (length (slice_from (b0 :: a) (snd (DecodeRuneInString (b0 :: a)))))); auto.
    pose proof (slice_from_length (b0 :: a) (snd (DecodeRuneInString (b0 :: a))) ltac:(lia)) as Hl.
    unfold len in Hl, Hw. lia.
Qed.

(** ** UTF-16 length without the machine arithmetic *)

Lemma wrap64_small z : - 2 ^ 63 <= z < 2 ^ 63 -> wrap64 z = z.
Proof.
  intros H. unfold wrap64. rewrite Z.mod_small; lia.
Qed.

Lemma units_bounds s : 0 <= units s <= len s.
Proof.
  remember (length s) as n eqn:Hn. revert s Hn.
  induction n as [n IH] using lt_wf_ind. intros s Hn.
  destruct s as [|b0 s]; [cbn; lia|].
  assert (Hne : b0 :: s <> []) by congruence.
  unfold units. rewrite (decodeAll_step _ Hne). cbn [fold_right].
  pose proof (Decode_width _ Hne) as Hw.
  pose proof (Decode_wide _ Hne) as Hr.
  pose proof (slice_from_length (b0 :: s) (snd (DecodeRuneInString (b0 :: s))) ltac:(lia)) as Hl.
  specialize (IH (length (slice_from (b0 :: s) (snd (DecodeRuneInString (b0 :: s)))))).
  fold (units (slice_from (b0 :: s) (snd (DecodeRuneInString (b0 :: s))))).
  assert (Hlt : (length (slice_from (b0 :: s) (snd (DecodeRuneInString (b0 :: s)))) < n)%nat)
    by (unfold len in Hl, Hw; lia).
  specialize (IH Hlt _ eq_refl).
  unfold unitsOf. destruct (Z.leb_spec 0x10000 (fst (DecodeRuneInString (b0 :: s)))); lia.
Qed.

Lemma fold_units_nowrap (l : list (Z * Z)) : forall acc,
  0 <= acc ->
  acc + fold_right (fun (rw : Z * Z) a => unitsOf (fst rw) + a) 0 l < 2 ^ 63 ->
  fold_left (fun count r => if 0x10000 <=? r then wrap64 (count + 2)
                            else wrap64 (count + 1)) (map fst l) acc
  = acc + fold_right (fun (rw : Z * Z) a => unitsOf (fst rw) + a) 0 l.
Proof.
  induction l as [|rw l IH]; intros acc H0 Hb; cbn [map fold_left fold_right] in *.
  - lia.
  - assert (Hs : 0 <= fold_right (fun (rw : Z * Z) a => unitsOf (fst rw) + a) 0 l).
    { clear. induction l; cbn [fold_right]; [lia|].
      unfold unitsOf at 1. destruct (_ <=? _); lia. }
    unfold unitsOf at 1 in Hb. unfold unitsOf at 1.
    destruct (0x10000 <=? fst rw).
    + rewrite wrap64_small by lia. rewrite IH; lia.
    + rewrite wrap64_small by lia. rewrite IH; lia.
Qed.

(** Below the word size, [utf16CodeUnitCount] is the plain sum. *)
Lemma utf16_units s : len s < 2 ^ 63 -> utf16CodeUnitCount s = units s.
Proof.
  intros H. unfold utf16CodeUnitCount, range_runes.
  pose proof (units_bounds s). unfold units in *.
  rewrite fold_units_nowrap; lia.
Qed.

Lemma units_app_valid a b :
  ValidString a = true -> units (a ++ b) = units a + units b.
Proof.
  intros Hv. unfold units. rewrite decodeAll_app_valid by assumption.
  induction (decodeAll a) as [|rw l IH]; cbn [app fold_right]; lia.
Qed.

Lemma units_app_ascii a c b :
  byteZ c < 0x80 -> units (a ++ c :: b) = units a + 1 + units b.
Proof.
  intros Hc. unfold units. rewrite decodeAll_app_ascii by assumption.
  assert (unitsOf (byteZ c) = 1).
  { unfold unitsOf. destruct (Z.leb_spec 0x10000 (byteZ c)); lia. }
  induction (decodeAll a) as [|rw l IH]; cbn [app fold_right fst]; lia.
Qed.

Lemma ValidString_app_ascii a c b :
  byteZ c < 0x80 ->
  ValidString (a ++ c :: b) = ValidString a && ValidString b.
Proof.
  intros Hc. unfold ValidString. rewrite decodeAll_app_ascii by assumption.
  rewrite forallb_app. cbn [forallb fst snd].
  replace (byteZ c =? RuneError) with false; [reflexivity|].
  symmetry. apply Z.eqb_neq. unfold RuneError. lia.
Qed.

Lemma ValidString_app a b :
  ValidString a = true -> ValidString (a ++ b) = ValidString b.
Proof.
  intros Hv. unfold ValidString in *. rewrite decodeAll_app_valid by assumption.
  rewrite forallb_app, Hv. reflexivity.
Qed.

Lemma ValidString_nil : ValidString [] = true.
Proof. reflexivity. Qed.

Lemma byteZ_star : byteZ x2a = 42. Proof. reflexivity. Qed.

Lemma ValidString_star : ValidString star = true. Proof. reflexivity. Qed.
Lemma ValidString_starstar : ValidString starstar = true. Proof. reflexivity. Qed.
Lemma units_star : units star = 1. Proof. reflexivity. Qed.
Lemma units_starstar : units starstar = 2. Proof. reflexivity. Qed.

Lemma ValidString_cons_ascii c b :
  byteZ c < 0x80 -> ValidString (c :: b) = ValidString b.
Proof.
  intros Hc. change (c :: b) with ([] ++ c :: b).
  rewrite ValidString_app_ascii by assumption. reflexivity.
Qed.

Lemma ValidString_split_star a b :
  ValidString (a ++ star ++ b) = ValidString a && ValidString b.
Proof. apply ValidString_app_ascii. rewrite byteZ_star. lia. Qed.

Lemma ValidString_split_starstar a b :
  ValidString (a ++ starstar ++ b) = ValidString a && ValidString b.
Proof.
  unfold starstar. cbn [app]. rewrite ValidString_app_ascii by (rewrite byteZ_star; lia).
  rewrite ValidString_cons_ascii by (rewrite byteZ_star; lia). reflexivity.
Qed.

Lemma ValidString_app_both a b :
  ValidString a = true -> ValidString b = true -> ValidString (a ++ b) = true.
Proof. intros Ha Hb. rewrite ValidString_app; assumption. Qed.

Ltac len_norm := rewrite ?len_app, ?len_star, ?len_starstar in *.


Lemma Byte_eqb_neq x y : x <> y -> Byte.eqb x y = false.
Proof.
  intros H. destruct (Byte.eqb x y) eqn:E; [|reflexivity].
  apply Byte.byte_dec_bl in E. contradiction.
Qed.

(** Searching for a delimiter skips any text without a [*]. *)
Lemma Index_skip_nostar a s sub :
  ~ In x2a a ->
  Index (a ++ x2a :: sub ++ s) (x2a :: sub) = len a.
Proof.
  induction a as [|x a IH]; intros Ha.
  - cbn [app Index HasPrefix].
    assert (E : HasPrefix (sub ++ s) sub = true) by (apply HasPrefix_true; eauto).
    rewrite E. reflexivity.
  - assert (Hx : x <> x2a) by (intros ->; apply Ha; left; reflexivity).
    assert (Ha' : ~ In x2a a) by (intros H1; apply Ha; right; exact H1).
    specialize (IH Ha').
    change ((x :: a) ++ x2a :: sub ++ s) with (x :: (a ++ x2a :: sub ++ s)).
    cbn [Index HasPrefix]. rewrite (Byte_eqb_neq _ _ Hx). cbn [andb].
    rewrite IH. pose proof (len_nonneg a).
    destruct (Z.eqb_spec (len a) (-1)); [lia|].
    unfold len. cbn [length]. lia.
Qed.

Lemma Index_starstar_app a s :
  ~ In x2a a -> Index (a ++ starstar ++ s) starstar = len a.
Proof. intros H. apply (Index_skip_nostar a s [x2a] H). Qed.

Lemma Index_star_app a s :
  ~ In x2a a -> Index (a ++ star ++ s) star = len a.
Proof. intros H. apply (Index_skip_nostar a s [] H). Qed.

Lemma Index_star_app_starstar a s :
  ~ In x2a a -> Index (a ++ starstar ++ s) star = len a.
Proof. intros H. apply (Index_skip_nostar a (x2a :: s) [] H). Qed.

(** More fuel does not change a finished run. *)
Lemma inlineLoop_fuel_mono fuel : forall fuel' temp c o rs res,
  inlineLoop fuel temp c o rs = Some res -> (fuel <= fuel')%nat ->
  inlineLoop fuel' temp c o rs = Some res.
Proof.
  induction fuel as [|fuel IH]; intros fuel' temp c o rs res H Hle; [discriminate|].
  destruct fuel' as [|fuel']; [lia|].
  cbn [inlineLoop] in *.
  destruct (inlineBody temp c o rs); [assumption|].
  apply IH; [assumption | lia].
Qed.

(** The first closed bold span of a line, cut out of [temp] by hand. *)
Lemma inlineLoop_first_bold fuel before inner rest c o rs :
  ~ In x2a before ->
  Index (inner ++ starstar ++ rest) starstar = len inner ->
  let o' := wrap64 (o + utf16CodeUnitCount before) in
  inlineLoop (S fuel) (before ++ starstar ++ inner ++ starstar ++ rest) c o rs =
  inlineLoop fuel rest ((c ++ before) ++ inner)
             (wrap64 (o' + utf16CodeUnitCount inner))
             (rs ++ [spanRange o' inner true]).
Proof.
  intros Hb Hi o'. cbn [inlineLoop].
  set (temp := before ++ starstar ++ inner ++ starstar ++ rest).
  assert (E1 : Index temp starstar = len before) by (apply Index_starstar_app; assumption).
  assert (E2 : Index temp star = len before) by (apply Index_star_app_starstar; assumption).
  pose proof (len_nonneg before). pose proof (len_nonneg inner).
  rewrite inlineBody_bold by lia. cbv zeta.
  rewrite E1.
  assert (E3 : slice_from temp (len before + 2) = inner ++ starstar ++ rest).
  { unfold temp. apply slice_from_app_len_plus. reflexivity. }
  assert (E4 : slice_to temp (len before) = before) by apply slice_to_app_len.
  rewrite E3, E4, Hi.
  destruct (Z.eqb_spec (len inner) (-1)); [lia|].
  rewrite slice_to_app_len.
  rewrite (slice_from_app_len_plus inner starstar rest) by reflexivity.
  reflexivity.
Qed.

(** ** Validity and length through the tokenizer *)













Lemma parseLines_Forall2 lines : forall segs,
  parseLines lines = Some segs ->
  Forall2 (fun line seg => parseLine line = Some seg) lines segs.
Proof.
  induction lines as [|l lines IH]; intros segs; cbn [parseLines].
  - intros [= <-]. constructor.
  - destruct (parseLine l) as [seg|] eqn:E; [|discriminate].
    destruct (parseLines lines) as [ss|]; [|discriminate].
    intros [= <-]. constructor; auto.
Qed.







Lemma C4_counterexample :
  parseInline brokenEacuteLine =
    Some ([xc3; xa9; x79],
          [{| start := 1; end_ := 1; bold := true; italic := false |};
           {| start := 2; end_ := 3; bold := true; italic := false |}]) /\
  ~ utf16Span [xc3; xa9; x79] {| start := 2; end_ := 3; bold := true; italic := false |}.
Proof.
  split; [vm_compute; reflexivity|].
  intros (pre & inner & post & E & _ & He). cbn [end_] in He.
  rewrite app_assoc in E. remember (pre ++ inner) as p eqn:Ep. clear Ep pre inner.
  assert (Hp : p = [] \/ p = [xc3] \/ p = [xc3; xa9] \/ p = [xc3; xa9; x79]).
  { destruct p as [|p0 p]; [auto|]. injection E as <- E.
    destruct p as [|p1 p]; [auto|]. injection E as <- E.
    destruct p as [|p2 p]; [auto|]. injection E as <- E.
    destruct p as [|p3 p]; [auto 6 | discriminate E]. }
  clear E.
  destruct Hp as [-> | [-> | [-> | ->]]]; vm_compute in He; discriminate He.
Qed.

(** A [**] ahead leaves a [*] in every suffix that starts at or before
    its second byte. *)
Lemma star_after_starstar temp k :
  Index temp starstar <> -1 ->
  0 <= k <= Index temp starstar + 1 ->
  Index (slice_from temp k) star <> -1.
Proof.
  intros Hb Hk. destruct (Index_found _ _ Hb) as (a & b & Et & Hi).
  rewrite Hi in Hk. intros Hn. apply Index_star_none in Hn. apply Hn.
  rewrite Et. change (a ++ starstar ++ b) with (a ++ [x2a] ++ x2a :: b).
  rewrite app_assoc. unfold slice_from. rewrite skipn_app.
  replace (Z.to_nat k - length (a ++ [x2a]))%nat with 0%nat
    by (rewrite length_app; unfold len in Hk; cbn [length]; lia).
  apply in_or_app. right. left. reflexivity.
Qed.

(** The paragraph ranges of the style loop, as the code computes them. *)
Lemma paraRanges_chain segments : forall idx,
  Forall2 (fun seg rg => EndIndex rg = wrap64 (StartIndex rg + len (text seg)))
          segments (paraRanges segments idx) /\
  (forall d, StartIndex (hd d (paraRanges segments idx)) = idx \/ segments = []) /\
  (forall i rg rg',
      nth_error (paraRanges segments idx) i = Some rg ->
      nth_error (paraRanges segments idx) (S i) = Some rg' ->
      StartIndex rg' = EndIndex rg).
Proof.
  induction segments as [|seg segs IH]; intros idx; cbn [paraRanges].
  - split; [constructor|]. split; [auto|]. intros [|i] rg rg'; discriminate.
  - destruct (IH (paraEndIdx idx seg)) as (F & Hh & Hn).
    split; [constructor; [reflexivity | exact F]|].
    split; [left; reflexivity|].
    intros [|i] rg rg' H1 H2; cbn [nth_error] in H1, H2.
    + injection H1 as <-. cbn [EndIndex].
      destruct segs as [|seg' segs']; [discriminate|].
      cbn [paraRanges nth_error] in H2. injection H2 as <-. reflexivity.
    + eapply Hn; eassumption.
Qed.

(** The requests of the style loop are those of each segment at its
    paragraph range. *)
Lemma styleLoop_paraRanges segments : forall idx acc,
  styleLoop segments idx acc =
  acc ++ flat_map (fun p => segmentRequests (StartIndex (snd p)) (fst p))
                  (combine segments (paraRanges segments idx)).
Proof.
  induction segments as [|seg segs IH]; intros idx acc; cbn [styleLoop paraRanges combine flat_map].
  - rewrite app_nil_r. reflexivity.
  - rewrite IH, <- app_assoc. reflexivity.
Qed.

(** C1 (what the code does at the failing input).  For the markdown made of
    "# " and the two bytes C3 A9 of the letter e-acute, written at index 1,
    the one segment has the text of that letter and a newline, of UTF-16
    length 2, but the style loop gives it the range [1, 4): the end is the
    start plus the number of bytes of the text. *)
Theorem C1_paragraph_end_counts_bytes :
  let seg := {| text := [xc3; xa9; x0a]; style := "HEADING_1"; isBullet := false;
                isNumbered := false; ranges := [] |} in
  parseMarkdown headingEacute = Some [seg] /\
  utf16CodeUnitCount (text seg) = 2 /\
  paraRanges [seg] 1 = [{| StartIndex := 1; EndIndex := 4 |}] /\
  styleLoop [seg] 1 [] =
    [UpdateParagraphStyle {| StartIndex := 1; EndIndex := 4 |}
                          "HEADING_1" "namedStyleType"].
Proof. vm_compute. repeat split. Qed.

(** C6 (what the code does at the failing input).  The line "  # Title"
    becomes a HEADING_1 segment whose text still holds the prefix, while
    "# Title" becomes a HEADING_1 segment with the text "Title\n". *)
Theorem C6_heading_prefix_kept_after_indent :
  parseMarkdown (lit "  # Title") =
    Some [{| text := lit "  # Title" ++ newline; style := "HEADING_1";
             isBullet := false; isNumbered := false; ranges := [] |}] /\
  parseMarkdown (lit "# Title") =
    Some [{| text := lit "Title" ++ newline; style := "HEADING_1";
             isBullet := false; isNumbered := false; ranges := [] |}].
Proof. split; vm_compute; reflexivity. Qed.

(** ** Vocabulary for the service claims *)

(** ** Chunks *)

Lemma chunks_loop_fuel {A : Type} (n : nat) fuel : forall fuel' (l : list A),
  (0 < n)%nat -> (length l <= fuel)%nat -> (length l <= fuel')%nat ->
  chunks_loop fuel n l = chunks_loop fuel' n l.
Proof.
  induction fuel as [|fuel IH]; intros fuel' l Hn H H'.
  - destruct l; [destruct fuel'; reflexivity | cbn in H; lia].
  - destruct l as [|x l]; [destruct fuel'; reflexivity|].
    destruct fuel' as [|fuel']; [cbn in H'; lia|].
    cbn [chunks_loop]. f_equal.
    pose proof (length_skipn n (x :: l)) as Hs. cbn [length] in *.
    apply IH; lia.
Qed.

Lemma chunks_nil {A : Type} n : @chunks A n [] = [].
Proof. reflexivity. Qed.

Lemma chunks_step {A : Type} (n : nat) (l : list A) :
  (0 < n)%nat -> l <> [] ->
  chunks n l = firstn n l :: chunks n (skipn n l).
Proof.
  intros Hn Hl. destruct l as [|x l]; [congruence|].
  unfold chunks at 1. cbn [length chunks_loop]. f_equal.
  apply chunks_loop_fuel; [assumption | | lia].
  pose proof (length_skipn n (x :: l)) as Hs. cbn [length] in *. lia.
Qed.

Lemma chunks_spec {A : Type} (n : nat) (l : list A) :
  (0 < n)%nat ->
  concat (chunks n l) = l /\
  Forall (fun b => (1 <= length b <= n)%nat) (chunks n l).
Proof.
  intros Hn. remember (length l) as k eqn:Hk. revert l Hk.
  induction k as [k IH] using lt_wf_ind. intros l Hk.
  destruct l as [|x l]; [split; [reflexivity | constructor]|].
  rewrite chunks_step by (auto; congruence).
  pose proof (length_skipn n (x :: l)) as Hs.
  destruct (IH (length (skipn n (x :: l)))) with (l := skipn n (x :: l)) as [Hc Hf];
    [cbn [length] in *; lia | reflexivity |].
  split.
  - cbn [concat]. rewrite Hc. apply firstn_skipn.
  - constructor; [|exact Hf].
    rewrite length_firstn. cbn [length]. lia.
Qed.

(** ** The batch loop *)

Section BatchLoop.
Context {W : Type} (api : DocsAPI W).

Lemma slice_is_chunk (reqs : list Request) i :
  0 <= i < len reqs ->
  slice reqs i (if len reqs <? i + batchSize then len reqs else i + batchSize)
  = firstn 50 (skipn (Z.to_nat i) reqs).
Proof.
  intros Hi. unfold slice, slice_to, slice_from, batchSize, len in *.
  destruct (Z.ltb_spec (Z.of_nat (length reqs)) (i + 50)).
  - rewrite Nat2Z.id, firstn_all. symmetry. apply firstn_all2.
    rewrite length_skipn. lia.
  - rewrite firstn_skipn_comm. f_equal. f_equal. lia.
Qed.

(** The whole run of the loop from index [i]: the batches it submits are
    the first [k] chunks of what is left, every one but the last
    succeeds, and the state is the one those calls leave. *)
Lemma batchLoop_run docID (reqs : list Request) fuel : forall i s,
  0 <= i ->
  (length (skipn (Z.to_nat i) reqs) < fuel)%nat ->
  exists k s' r outcomes,
    batchLoop api fuel docID reqs i s = Some (s', r) /\
    (k <= length (chunks 50 (skipn (Z.to_nat i) reqs)))%nat /\
    trace s' = trace s ++ map (EvBatchUpdate docID)
                             (firstn k (chunks 50 (skipn (Z.to_nat i) reqs))) /\
    replay api docID (firstn k (chunks 50 (skipn (Z.to_nat i) reqs))) (remote s)
      = (remote s', outcomes) /\
    match r with
    | inr _ => k = length (chunks 50 (skipn (Z.to_nat i) reqs)) /\
               Forall (fun o => o = None) outcomes
    | inl e => exists e0 earlier,
               e = Wrapf "apply styles batch" e0 /\
               outcomes = earlier ++ [Some e0] /\
               Forall (fun o => o = None) earlier
    end.
Proof.
  induction fuel as [|fuel IH]; intros i s Hi Hf; [lia|].
  cbn [batchLoop].
  destruct (Z.ltb_spec i (len reqs)) as [Hlt|Hge].
  - assert (Hne : skipn (Z.to_nat i) reqs <> []).
    { intros E. apply (f_equal (@length _)) in E. rewrite length_skipn in E.
      unfold len in Hlt. cbn in E. lia. }
    rewrite slice_is_chunk by lia.
    rewrite (chunks_step 50 (skipn (Z.to_nat i) reqs)) by (auto; lia).
    rewrite skipn_skipn.
    replace (50 + Z.to_nat i)%nat with (Z.to_nat (i + batchSize)) by (unfold batchSize; lia).
    set (batch := firstn 50 (skipn (Z.to_nat i) reqs)).
    unfold bind, wrapErr, docsBatchUpdate.
    destruct (Documents_BatchUpdate api docID batch (remote s)) as [w r0] eqn:Ecall.
    destruct r0 as [e0|].
    + (* the call fails: the loop returns at once *)
      exists 1%nat. eexists. exists (inl (Wrapf "apply styles batch" e0)), [Some e0].
      split; [reflexivity|].
      split; [cbn [length]; lia|].
      cbn [firstn map replay trace remote]. rewrite Ecall.
      split; [reflexivity|]. split; [reflexivity|].
      exists e0, []. repeat split; constructor.
    + (* the call succeeds: on to the next batch *)
      pose proof (length_skipn 50 (skipn (Z.to_nat i) reqs)) as Hs.
      rewrite skipn_skipn in Hs.
      replace (50 + Z.to_nat i)%nat with (Z.to_nat (i + batchSize)) in Hs
        by (unfold batchSize; lia).
      destruct (IH (i + batchSize)
                   {| remote := w; trace := trace s ++ [EvBatchUpdate docID batch] |})
        as (k & s' & r & outcomes & Hrun & Hk & Htr & Hrep & Hr).
      { unfold batchSize. lia. }
      { destruct (skipn (Z.to_nat i) reqs); [congruence|]. cbn [length] in *. lia. }
      exists (S k), s', r, (None :: outcomes).
      split; [exact Hrun|].
      split; [cbn [length]; lia|].
      cbn [firstn map replay trace remote] in *. rewrite Ecall, Hrep.
      split; [rewrite Htr, <- app_assoc; reflexivity|].
      split; [reflexivity|].
      destruct r as [e|u].
      * destruct Hr as (e0 & earlier & -> & -> & Hall).
        exists e0, (None :: earlier). repeat split. constructor; auto.
      * destruct Hr as [-> Hall]. split; [reflexivity | constructor; auto].
  - exists 0%nat, s, (inr tt), [].
    split; [reflexivity|]. split; [lia|].
    cbn [firstn map replay]. rewrite app_nil_r.
    split; [reflexivity|]. split; [reflexivity|].
    split; [|constructor].
    rewrite skipn_all2 by (unfold len in Hge; lia). reflexivity.
Qed.

Lemma applyStyleBatches_run docID (reqs : list Request) s :
  exists k s' r outcomes,
    applyStyleBatches api docID reqs s = Some (s', r) /\
    (k <= length (chunks 50 reqs))%nat /\
    trace s' = trace s ++ map (EvBatchUpdate docID) (firstn k (chunks 50 reqs)) /\
    replay api docID (firstn k (chunks 50 reqs)) (remote s) = (remote s', outcomes) /\
    match r with
    | inr _ => k = length (chunks 50 reqs) /\ Forall (fun o => o = None) outcomes
    | inl e => exists e0 earlier,
               e = Wrapf "apply styles batch" e0 /\
               outcomes = earlier ++ [Some e0] /\
               Forall (fun o => o = None) earlier
    end.
Proof.
  unfold applyStyleBatches.
  destruct (Z.ltb_spec 0 (len reqs)) as [Hpos|Hnil].
  - apply (batchLoop_run docID reqs (S (length reqs)) 0 s); [lia|].
    cbn [Z.to_nat skipn]. lia.
  - assert (reqs = []) as ->.
    { destruct reqs; [reflexivity|]. unfold len in Hnil. cbn [length] in Hnil. lia. }
    exists 0%nat, s, (inr tt), [].
    cbn. rewrite app_nil_r. repeat split; constructor.
Qed.
End BatchLoop.

Lemma concat_firstn_prefix {A : Type} (cs : list (list A)) k :
  concat cs = concat (firstn k cs) ++ concat (skipn k cs).
Proof. rewrite <- concat_app, firstn_skipn. reflexivity. Qed.

Lemma Forall_firstn {A : Type} (P : A -> Prop) l k :
  Forall P l -> Forall P (firstn k l).
Proof.
  intros H. revert k. induction H as [|x l Hx Hl IH]; intros [|k]; cbn [firstn];
    constructor; auto.
Qed.

(** C2.  The style requests are submitted as the first [k] of their
    consecutive chunks of at most 50, in order, one [batchUpdate] call per
    chunk.  On success all chunks were submitted.  On failure the failing
    call is the last one made, all calls before it succeeded, the error is
    returned wrapped, and the remote state is the one the submitted calls
    left: nothing is undone. *)
Theorem C2_style_batches_in_order
    {W : Type} (api : DocsAPI W) (docID : gostring) (reqs : list Request) (s : St W) :
  exists k s' r outcomes,
    applyStyleBatches api docID reqs s = Some (s', r) /\
    let submitted := firstn k (chunks 50 reqs) in
    trace s' = trace s ++ map (EvBatchUpdate docID) submitted /\
    Forall (fun b => 1 <= len b <= batchSize) submitted /\
    (exists rest, reqs = concat submitted ++ rest) /\
    replay api docID submitted (remote s) = (remote s', outcomes) /\
    match r with
    | inr _ => concat submitted = reqs /\ Forall (fun o => o = None) outcomes
    | inl e => exists e0 earlier,
               e = Wrapf "apply styles batch" e0 /\
               outcomes = earlier ++ [Some e0] /\
               Forall (fun o => o = None) earlier
    end.
Proof.
  destruct (applyStyleBatches_run api docID reqs s)
    as (k & s' & r & outcomes & Hrun & Hk & Htr & Hrep & Hr).
  destruct (chunks_spec 50 reqs ltac:(lia)) as [Hc Hf].
  exists k, s', r, outcomes. split; [exact Hrun|]. cbv zeta.
  split; [exact Htr|].
  split.
  { apply Forall_firstn. eapply Forall_impl; [|exact Hf].
    intros b Hb. unfold len, batchSize. cbv beta in Hb. lia. }
  split.
  { exists (concat (skipn k (chunks 50 reqs))).
    rewrite <- concat_firstn_prefix. symmetry. exact Hc. }
  split; [exact Hrep|].
  destruct r as [e|u]; [exact Hr|].
  destruct Hr as [-> Hall]. rewrite firstn_all. split; assumption.
Qed.

Section Runs.
Context {W : Type} (api : DocsAPI W).

Lemma writeMarkdownToDoc_run docID markdown startIdx segs (s : St W) :
  parseMarkdown markdown = Some segs ->
  exists s' r rest,
    writeMarkdownToDoc api docID markdown startIdx s = Some (s', r) /\
    trace s' = trace s ++
               EvBatchUpdate docID [InsertText startIdx (fullText segs)] :: rest.
Proof.
  intros Hp. unfold writeMarkdownToDoc. rewrite Hp.
  unfold bind, wrapErr, docsBatchUpdate.
  destruct (Documents_BatchUpdate api docID _ (remote s)) as [w [e|]].
  - eexists. eexists. exists []. split; reflexivity.
  - destruct (applyStyleBatches_run api docID (styleLoop segs startIdx [])
                {| remote := w;
                   trace := trace s ++
                     [EvBatchUpdate docID [InsertText startIdx (fullText segs)]] |})
      as (k & s' & r & outcomes & Hrun & _ & Htr & _).
    exists s', r. eexists. split; [exact Hrun|].
    rewrite Htr. cbn [trace]. rewrite <- app_assoc. reflexivity.
Qed.

Lemma report_run (env : Env) format id (s : St W) :
  exists s' r rest, report env format id s = Some (s', r) /\ trace s' = trace s ++ rest.
Proof.
  unfold report. destruct (IsJSON env).
  - unfold bind, emit, check. eexists. eexists. eexists. split; reflexivity.
  - unfold emit. eexists. eexists. eexists. split; reflexivity.
Qed.

(** After a successful insertion the command goes on to the report. *)
Lemma write_then_report env docID markdown startIdx format segs (s : St W) :
  parseMarkdown markdown = Some segs ->
  exists s' r rest,
    bind (writeMarkdownToDoc api docID markdown startIdx)
         (fun _ => report env format docID) s = Some (s', r) /\
    trace s' = trace s ++
               EvBatchUpdate docID [InsertText startIdx (fullText segs)] :: rest.
Proof.
  intros Hp.
  destruct (writeMarkdownToDoc_run docID markdown startIdx segs s Hp)
    as (s1 & r1 & rest1 & Hrun & Htr).
  unfold bind. rewrite Hrun. destruct r1 as [e|u].
  - exists s1, (inl e), rest1. split; [reflexivity | exact Htr].
  - destruct (report_run env format docID s1) as (s2 & r2 & rest2 & Hrep & Htr2).
    exists s2, r2, (rest1 ++ rest2). split; [exact Hrep|].
    rewrite Htr2, Htr, <- app_assoc. reflexivity.
Qed.

Lemma fold_max_endIndex (content : list StructuralElement) : forall acc,
  0 <= acc ->
  fold_left (fun endIndex el =>
               if endIndex <? el_EndIndex el then el_EndIndex el else endIndex)
            content acc
  = Z.max acc (fold_right Z.max 0 (map el_EndIndex content)).
Proof.
  induction content as [|el content IH]; intros acc Hacc; cbn [fold_left fold_right map].
  - lia.
  - destruct (Z.ltb_spec acc (el_EndIndex el)); rewrite IH by lia; lia.
Qed.

(** What [clearDocsContent] does, by the end-of-document offset. *)
Lemma clearDocsContent_run docID doc w1 (s : St W) :
  Documents_Get api docID (remote s) = (w1, inr doc) ->
  endOfDoc doc < 2 ^ 63 ->
  let s1 := {| remote := w1; trace := trace s ++ [EvGet docID] |} in
  let del := [DeleteContentRange {| StartIndex := 1; EndIndex := endOfDoc doc - 1 |}] in
  (endOfDoc doc <= 2 -> clearDocsContent api docID s = Some (s1, inr tt)) /\
  (2 < endOfDoc doc -> clearDocsContent api docID s = docsBatchUpdate api docID del s1).
Proof.
  intros Hget Hlt s1 del.
  unfold clearDocsContent, bind, docsGet. rewrite Hget. fold s1.
  unfold endOfDoc in *. destruct (DocBody doc) as [body|].
  - destruct (Z.eqb_spec (len (Content body)) 0) as [E|E].
    + assert (Content body = []) as Hc
        by (destruct (Content body); [reflexivity | unfold len in E; cbn in E; lia]).
      rewrite Hc in *. cbn [map fold_right] in *. split; [reflexivity | lia].
    + rewrite fold_max_endIndex by lia.
      assert (H0 : 0 <= fold_right Z.max 0 (map el_EndIndex (Content body))).
      { clear. induction (Content body); cbn [map fold_right]; lia. }
      rewrite Z.max_r by lia.
      destruct (Z.leb_spec (fold_right Z.max 0 (map el_EndIndex (Content body))) 2).
      * split; [reflexivity | lia].
      * split; [lia|]. intros _. unfold del. rewrite wrap64_small by lia. reflexivity.
  - split; [reflexivity | lia].
Qed.
End Runs.

(** C3.  A write on a document whose end-of-document offset is [endOfDoc]:
    when [endOfDoc <= 2] no delete is issued and the first batch call
    inserts the converted text at index 1; otherwise the first batch call
    deletes exactly [1, endOfDoc - 1), and when it succeeds the next one
    inserts the converted text at index 1, and when it fails the command
    stops with that error. *)
Theorem C3_write_clears_then_inserts
    {W : Type} (api : DocsAPI W) (env : Env) (DocID input : gostring)
    (account : gostring) (doc : Document) (w1 : W) (s : St W) :
  requireAccount env = inr account ->
  TrimSpace DocID <> [] ->
  newDocsService env = None ->
  readInput env = inr input ->
  Documents_Get api (TrimSpace DocID) (remote s) = (w1, inr doc) ->
  endOfDoc doc < 2 ^ 63 ->
  let id := TrimSpace DocID in
  let del := [DeleteContentRange {| StartIndex := 1; EndIndex := endOfDoc doc - 1 |}] in
  exists segs,
    parseMarkdown input = Some segs /\
    let ins := [InsertText 1 (fullText segs)] in
    (endOfDoc doc <= 2 ->
     exists s' r rest,
       DocsWriteCmd_Run api env DocID s = Some (s', r) /\
       trace s' = trace s ++ EvGet id :: EvBatchUpdate id ins :: rest) /\
    (2 < endOfDoc doc ->
     forall w2,
       Documents_BatchUpdate api id del w1 = (w2, None) ->
       exists s' r rest,
         DocsWriteCmd_Run api env DocID s = Some (s', r) /\
         trace s' = trace s ++
                    EvGet id :: EvBatchUpdate id del :: EvBatchUpdate id ins :: rest) /\
    (2 < endOfDoc doc ->
     forall w2 err,
       Documents_BatchUpdate api id del w1 = (w2, Some err) ->
       DocsWriteCmd_Run api env DocID s =
       Some ({| remote := w2; trace := trace s ++ [EvGet id; EvBatchUpdate id del] |},
             inl (Wrapf "clear doc content" err))).
Proof.
  intros Hacc Hid Hsvc Hin Hget Hlt id del.
  destruct (parseMarkdown_total input) as [segs Hp]. exists segs.
  split; [exact Hp|]. cbv zeta.
  assert (Hrun : DocsWriteCmd_Run api env DocID s =
                 bind (wrapErr "clear doc content" (clearDocsContent api id))
                      (fun _ => bind (writeMarkdownToDoc api id input 1)
                                     (fun _ => report env "wrote document %s" id)) s).
  { unfold DocsWriteCmd_Run. unfold bind at 1, lift at 1. rewrite Hacc.
    fold id. unfold bytes_eqb. destruct (list_eq_dec Byte.byte_eq_dec id []); [contradiction|].
    unfold bind at 1, check at 1. rewrite Hsvc.
    unfold bind at 1, lift at 1. rewrite Hin. reflexivity. }
  destruct (clearDocsContent_run api id doc w1 s Hget Hlt) as [Hempty Hfull].
  split; [|split].
  - intros He. rewrite Hrun. unfold bind at 1, wrapErr. rewrite (Hempty He).
    destruct (write_then_report api env id input 1 "wrote document %s" segs
                {| remote := w1; trace := trace s ++ [EvGet id] |} Hp)
      as (s' & r & rest & Hw & Htr).
    exists s', r, rest. split; [exact Hw|].
    rewrite Htr. cbn [trace]. rewrite <- app_assoc. reflexivity.
  - intros He w2 Hdel. rewrite Hrun. unfold bind at 1, wrapErr. rewrite (Hfull He).
    unfold docsBatchUpdate. cbn [remote trace]. fold del. rewrite Hdel.
    destruct (write_then_report api env id input 1 "wrote document %s" segs
                {| remote := w2;
                   trace := (trace s ++ [EvGet id]) ++ [EvBatchUpdate id del] |} Hp)
      as (s' & r & rest & Hw & Htr).
    exists s', r, rest. split; [exact Hw|].
    rewrite Htr. cbn [trace]. rewrite <- !app_assoc. reflexivity.
  - intros He w2 err Hdel. rewrite Hrun. unfold bind at 1, wrapErr. rewrite (Hfull He).
    unfold docsBatchUpdate. cbn [remote trace]. fold del. rewrite Hdel.
    rewrite <- app_assoc. reflexivity.
Qed.

Lemma C3_witness :
  (exists s' r rest,
      DocsWriteCmd_Run (scriptedAPI (docWithEnds [1; 14]) 7) (okEnv (lit "# T"))
                       (lit " doc1 ") st0 = Some (s', r) /\
      trace s' = EvGet (lit "doc1")
                 :: EvBatchUpdate (lit "doc1")
                      [DeleteContentRange {| StartIndex := 1; EndIndex := 13 |}]
                 :: EvBatchUpdate (lit "doc1") [InsertText 1 (lit "T" ++ newline)]
                 :: rest) /\
  (exists s' r rest,
      DocsWriteCmd_Run (scriptedAPI (docWithEnds [2]) 7) (okEnv (lit "# T"))
                       (lit " doc1 ") st0 = Some (s', r) /\
      trace s' = EvGet (lit "doc1")
                 :: EvBatchUpdate (lit "doc1") [InsertText 1 (lit "T" ++ newline)]
                 :: rest) /\
  DocsWriteCmd_Run (scriptedAPI (docWithEnds [1; 14]) 1) (okEnv (lit "# T"))
                   (lit " doc1 ") st0 =
  Some ({| remote := 2;
           trace := [] ++ [EvGet (lit "doc1");
                           EvBatchUpdate (lit "doc1")
                             [DeleteContentRange {| StartIndex := 1; EndIndex := 13 |}]] |},
        inl (Wrapf "clear doc content" (ApiError 500))).
Proof.
  split; [|split].
  - destruct (C3_write_clears_then_inserts
                (scriptedAPI (docWithEnds [1; 14]) 7) (okEnv (lit "# T")) (lit " doc1 ")
                (lit "# T") (lit "me") (docWithEnds [1; 14]) 1 st0)
      as (segs & Hp & _ & Hfull & _);
      [reflexivity | vm_compute; discriminate | reflexivity | reflexivity
       | reflexivity | vm_compute; reflexivity |].
    vm_compute in Hp. injection Hp as <-.
    apply (Hfull ltac:(vm_compute; reflexivity) 2). reflexivity.
  - destruct (C3_write_clears_then_inserts
                (scriptedAPI (docWithEnds [2]) 7) (okEnv (lit "# T")) (lit " doc1 ")
                (lit "# T") (lit "me") (docWithEnds [2]) 1 st0)
      as (segs & Hp & Hempty & _);
      [reflexivity | vm_compute; discriminate | reflexivity | reflexivity
       | reflexivity | vm_compute; reflexivity |].
    vm_compute in Hp. injection Hp as <-.
    apply Hempty. vm_compute. discriminate.
  - destruct (C3_write_clears_then_inserts
                (scriptedAPI (docWithEnds [1; 14]) 1) (okEnv (lit "# T")) (lit " doc1 ")
                (lit "# T") (lit "me") (docWithEnds [1; 14]) 1 st0)
      as (segs & _ & _ & _ & Hfail);
      [reflexivity | vm_compute; discriminate | reflexivity | reflexivity
       | reflexivity | vm_compute; reflexivity |].
    apply (Hfail ltac:(vm_compute; reflexivity) 2 (ApiError 500)). reflexivity.
Defined.

Lemma nth_pred_last {A : Type} (l : list A) (d : A) :
  nth (length l - 1) l d = match rev l with [] => d | x :: _ => x end.
Proof.
  destruct l as [|x l] using rev_ind; [reflexivity|].
  rewrite rev_app_distr. cbn [rev app].
  rewrite length_app. cbn [length].
  replace (length l + 1 - 1)%nat with (length l) by lia.
  rewrite app_nth2 by lia. rewrite Nat.sub_diag. reflexivity.
Qed.

Lemma appendEndIndex_last doc : appendEndIndex doc = lastEndIndex doc.
Proof.
  unfold appendEndIndex, lastEndIndex. destruct (DocBody doc) as [body|]; [|reflexivity].
  destruct (Z.ltb_spec 0 (len (Content body))) as [H|H].
  - unfold len. replace (Z.to_nat (Z.of_nat (length (Content body)) - 1))
      with (length (Content body) - 1)%nat by lia.
    rewrite nth_pred_last.
    destruct (Content body) as [|x l] using rev_ind; [unfold len in H; cbn in H; lia|].
    rewrite rev_app_distr. reflexivity.
  - destruct (Content body); [reflexivity | unfold len in H; cbn [length] in H; lia].
Qed.

(** C10.  An append inserts the converted text at index 1 when the fetched
    document has no body or no content, and otherwise at the [EndIndex] of
    its last content element. *)
Theorem C10_append_insertion_index
    {W : Type} (api : DocsAPI W) (env : Env) (DocID input : gostring)
    (account : gostring) (doc : Document) (w1 : W) (s : St W) :
  requireAccount env = inr account ->
  TrimSpace DocID <> [] ->
  newDocsService env = None ->
  readInput env = inr input ->
  Documents_Get api (TrimSpace DocID) (remote s) = (w1, inr doc) ->
  let id := TrimSpace DocID in
  let index := match DocBody doc with
               | None => 1
               | Some body =>
                   match rev (Content body) with
                   | [] => 1
                   | el :: _ => el_EndIndex el
                   end
               end in
  exists segs s' r rest,
    parseMarkdown input = Some segs /\
    DocsAppendCmd_Run api env DocID s = Some (s', r) /\
    trace s' = trace s ++
               EvGet id :: EvBatchUpdate id [InsertText index (fullText segs)] :: rest.
Proof.
  intros Hacc Hid Hsvc Hin Hget id index.
  destruct (parseMarkdown_total input) as [segs Hp]. exists segs.
  assert (Hrun : DocsAppendCmd_Run api env DocID s =
                 bind (writeMarkdownToDoc api id input (appendEndIndex doc))
                      (fun _ => report env "appended to document %s" id)
                      {| remote := w1; trace := trace s ++ [EvGet id] |}).
  { unfold DocsAppendCmd_Run. unfold bind at 1, lift at 1. rewrite Hacc.
    fold id. unfold bytes_eqb. destruct (list_eq_dec Byte.byte_eq_dec id []); [contradiction|].
    unfold bind at 1, check at 1. rewrite Hsvc.
    unfold bind at 1, lift at 1. rewrite Hin.
    unfold bind at 1, docsGet. cbv beta. unfold id. rewrite Hget. reflexivity. }
  destruct (write_then_report api env id input (appendEndIndex doc)
              "appended to document %s" segs
              {| remote := w1; trace := trace s ++ [EvGet id] |} Hp)
    as (s' & r & rest & Hw & Htr).
  exists s', r, rest. split; [exact Hp|]. split; [rewrite Hrun; exact Hw|].
  rewrite Htr. cbn [trace]. rewrite <- app_assoc.
  rewrite appendEndIndex_last. reflexivity.
Qed.

Lemma C10_witness :
  (exists segs s' r rest,
      parseMarkdown (lit "hi") = Some segs /\
      DocsAppendCmd_Run (scriptedAPI (docWithEnds [1; 14]) 7) (okEnv (lit "hi"))
                        (lit "doc1") st0 = Some (s', r) /\
      trace s' = [] ++ EvGet (lit "doc1")
                 :: EvBatchUpdate (lit "doc1") [InsertText 14 (fullText segs)] :: rest) /\
  (exists segs s' r rest,
      parseMarkdown (lit "hi") = Some segs /\
      DocsAppendCmd_Run (scriptedAPI {| DocBody := None |} 7) (okEnv (lit "hi"))
                        (lit "doc1") st0 = Some (s', r) /\
      trace s' = [] ++ EvGet (lit "doc1")
                 :: EvBatchUpdate (lit "doc1") [InsertText 1 (fullText segs)] :: rest).
Proof.
  split.
  - apply (C10_append_insertion_index
             (scriptedAPI (docWithEnds [1; 14]) 7) (okEnv (lit "hi")) (lit "doc1")
             (lit "hi") (lit "me") (docWithEnds [1; 14]) 1 st0);
      [reflexivity | vm_compute; discriminate | reflexivity | reflexivity | reflexivity].
  - apply (C10_append_insertion_index
             (scriptedAPI {| DocBody := None |} 7) (okEnv (lit "hi")) (lit "doc1")
             (lit "hi") (lit "me") {| DocBody := None |} 1 st0);
      [reflexivity | vm_compute; discriminate | reflexivity | reflexivity | reflexivity].
Defined.

(** ** The text walk *)

(** Induction on an element with the elements of its table cells and of its
    table of contents as smaller. *)
Lemma Element_induction (P : Element -> Prop) :
  (forall para table toc,
      (forall rows, table = Some rows -> Forall (Forall (Forall (onSome P))) rows) ->
      (forall content, toc = Some content -> Forall (onSome P) content) ->
      P (mkElement para table toc)) ->
  forall e, P e.
Proof.
  intros H.
  refine (fix rec (e : Element) : P e := _).
  destruct e as [para table toc]. apply H.
  - destruct table as [rows|]; [|discriminate]. intros rows' [= <-].
    induction rows as [|row rows IHrows]; constructor; [|exact IHrows].
    induction row as [|cell row IHrow]; constructor; [|exact IHrow].
    induction cell as [|c cell IHcell]; constructor; [|exact IHcell].
    destruct c as [e|]; [apply rec | exact I].
  - destruct toc as [content|]; [|discriminate]. intros content' [= <-].
    induction content as [|c content IHc]; constructor; [|exact IHc].
    destruct c as [e|]; [apply rec | exact I].
Qed.

Lemma slice_to_all {A : Type} (s : list A) m : len s <= m -> slice_to s m = s.
Proof. intros H. unfold slice_to, len in *. apply firstn_all2. lia. Qed.

Lemma slice_to_app_long {A : Type} (s t : list A) m :
  0 <= m <= len s -> slice_to (s ++ t) m = slice_to s m.
Proof.
  intros H. unfold slice_to, len in *. rewrite firstn_app.
  replace (Z.to_nat m - length s)%nat with 0%nat by lia.
  cbn [firstn]. apply app_nil_r.
Qed.

Lemma slice_to_len {A : Type} (s : list A) m :
  0 <= m <= len s -> len (slice_to s m) = m.
Proof. intros H. unfold slice_to, len in *. rewrite length_firstn. lia. Qed.

Lemma slice_to_app_short {A : Type} (s t : list A) m :
  len s <= m -> slice_to (s ++ t) m = s ++ slice_to t (m - len s).
Proof.
  intros H. unfold slice_to, len in *. rewrite firstn_app.
  rewrite firstn_all2 by lia. f_equal. f_equal. lia.
Qed.

(** What [appendLimited] does, without a limit and with one. *)
Lemma appendLimited_unlimited buf m s :
  m <= 0 -> appendLimited buf m s = (buf ++ s, true).
Proof. intros H. unfold appendLimited. destruct (Z.leb_spec m 0); [reflexivity | lia]. Qed.

Lemma appendLimited_extends m s : m <= 0 -> extends (fun buf => appendLimited buf m s).
Proof.
  intros H buf. rewrite appendLimited_unlimited by assumption. cbn [fst snd]. eauto.
Qed.

Lemma appendLimited_truncates m s :
  0 < m ->
  truncates m (fun buf => appendLimited buf m s) (fun buf => appendLimited buf 0 s).
Proof.
  intros Hm buf Hb. rewrite (appendLimited_unlimited buf 0) by lia. cbn [fst].
  unfold appendLimited. pose proof (len_nonneg buf). pose proof (len_nonneg s).
  destruct (Z.leb_spec m 0); [lia|].
  destruct (Z.leb_spec (m - len buf) 0).
  - cbn [fst snd]. split; [lia|]. rewrite slice_to_app_long by lia.
    symmetry. apply slice_to_all. lia.
  - destruct (Z.ltb_spec (m - len buf) (len s)); cbn [fst snd].
    + rewrite slice_to_app_short by lia. split; [|reflexivity].
      rewrite len_app, slice_to_len by lia. lia.
    + split; [reflexivity|]. rewrite len_app. lia.
Qed.

Lemma skip_extends : extends (fun buf => (buf, true)).
Proof. intros buf. cbn. split; [reflexivity|]. exists []. symmetry. apply app_nil_r. Qed.

Lemma skip_truncates m : truncates m (fun buf => (buf, true)) (fun buf => (buf, true)).
Proof. intros buf Hb. cbn. auto. Qed.

Lemma andThen_extends a b : extends a -> extends b -> extends (andThen a b).
Proof.
  intros Ha Hb buf. unfold andThen.
  destruct (Ha buf) as [Ok [t Et]]. destruct (a buf) as [b1 ok1]. cbn [fst snd] in *.
  subst ok1 b1. destruct (Hb (buf ++ t)) as [Ok2 [t2 Et2]].
  split; [exact Ok2|]. exists (t ++ t2). rewrite Et2, app_assoc. reflexivity.
Qed.

Lemma andThen_truncates m a a0 b b0 :
  0 <= m -> extends a0 -> extends b0 ->
  truncates m a a0 -> truncates m b b0 ->
  truncates m (andThen a b) (andThen a0 b0).
Proof.
  intros Hm Ea Eb Ta Tb buf Hbuf. unfold andThen.
  specialize (Ta buf Hbuf). destruct (Ea buf) as [Ok [t Et]].
  destruct (a buf) as [b1 ok1]. destruct (a0 buf) as [u1 ok0]. cbn [fst snd] in *.
  subst ok0. destruct ok1.
  - destruct Ta as [-> Hl]. apply Tb. exact Hl.
  - destruct Ta as [Hl ->]. cbn [fst snd]. split; [exact Hl|].
    destruct (Eb u1) as [_ [t2 ->]].
    assert (m <= len u1).
    { destruct (Z.le_gt_cases m (len u1)); [assumption|].
      rewrite slice_to_all in Hl by lia. lia. }
    symmetry. apply slice_to_app_long. lia.
Qed.

Lemma forRange_extends {A : Type} (body : Z -> A -> walk) l : forall i,
  Forall (fun x => forall i, extends (body i x)) l ->
  extends (forRange body i l).
Proof.
  induction l as [|x l IH]; intros i H; cbn [forRange].
  - apply skip_extends.
  - inversion H; subst. apply andThen_extends; auto.
Qed.

Lemma forRange_truncates {A : Type} m (lim unl : Z -> A -> walk) l : forall i,
  0 <= m ->
  Forall (fun x => forall i, extends (unl i x)) l ->
  Forall (fun x => forall i, truncates m (lim i x) (unl i x)) l ->
  truncates m (forRange lim i l) (forRange unl i l).
Proof.
  induction l as [|x l IH]; intros i Hm He Ht; cbn [forRange].
  - apply skip_truncates.
  - inversion He; subst. inversion Ht; subst.
    apply andThen_truncates; auto. apply forRange_extends. assumption.
Qed.

Lemma forRange_ext {A : Type} (f g : Z -> A -> walk) l : forall i buf,
  Forall (fun x => forall i buf, f i x buf = g i x buf) l ->
  forRange f i l buf = forRange g i l buf.
Proof.
  induction l as [|x l IH]; intros i buf H; cbn [forRange]; [reflexivity|].
  inversion H; subst. unfold andThen. rewrite H2.
  destruct (g i x buf) as [b' [|]]; auto.
Qed.

Lemma separator_extends m idx sep : m <= 0 -> extends (separator m idx sep).
Proof.
  intros H. unfold separator. destruct (0 <? idx).
  - apply appendLimited_extends. assumption.
  - apply skip_extends.
Qed.

Lemma separator_truncates m idx sep :
  0 < m -> truncates m (separator m idx sep) (separator 0 idx sep).
Proof.
  intros H. unfold separator. destruct (0 <? idx).
  - apply appendLimited_truncates. assumption.
  - apply skip_truncates.
Qed.

Lemma appendParagraph_extends m p : m <= 0 -> extends (appendParagraph m p).
Proof.
  intros H. unfold appendParagraph. apply forRange_extends.
  apply Forall_forall. intros pe _ i. destruct (pe_TextRun pe).
  - apply appendLimited_extends. assumption.
  - apply skip_extends.
Qed.

Lemma appendParagraph_truncates m p :
  0 < m -> truncates m (appendParagraph m p) (appendParagraph 0 p).
Proof.
  intros H. unfold appendParagraph. apply forRange_truncates; [lia| |].
  - apply Forall_forall. intros pe _ i. destruct (pe_TextRun pe).
    + apply appendLimited_extends. lia.
    + apply skip_extends.
  - apply Forall_forall. intros pe _ i. destruct (pe_TextRun pe).
    + apply appendLimited_truncates. assumption.
    + apply skip_truncates.
Qed.

(** Without a limit the walk of an element never stops and only adds. *)
Lemma appendElement_extends m : m <= 0 -> forall e, extends (appendElement m e).
Proof.
  intros Hm. apply Element_induction. intros para table toc Htable Htoc.
  assert (Hcontent : forall content,
             Forall (onSome (fun e => extends (appendElement m e))) content ->
             extends (forRange (fun _ (c : option Element) buf =>
                                  match c with
                                  | None => (buf, true)
                                  | Some e => appendElement m e buf
                                  end) 0 content)).
  { intros content H. apply forRange_extends.
    eapply Forall_impl; [|exact H]. intros [e|] He i; [|apply skip_extends].
    intros buf. apply He. }
  destruct para as [p|]; [apply appendParagraph_extends; assumption|].
  destruct table as [rows|].
  - cbn [appendElement]. apply forRange_extends.
    eapply Forall_impl; [|exact (Htable rows eq_refl)].
    intros row Hrow i. apply andThen_extends; [apply separator_extends; assumption|].
    apply forRange_extends. eapply Forall_impl; [|exact Hrow].
    intros cell Hcell j. apply andThen_extends; [apply separator_extends; assumption|].
    apply Hcontent. exact Hcell.
  - destruct toc as [content|]; cbn [appendElement].
    + apply Hcontent. exact (Htoc content eq_refl).
    + apply skip_extends.
Qed.

(** With a limit the walk of an element is the unlimited walk cut at the
    limit. *)
Lemma appendElement_truncates m :
  0 < m -> forall e, truncates m (appendElement m e) (appendElement 0 e).
Proof.
  intros Hm. apply Element_induction. intros para table toc Htable Htoc.
  assert (Hext : forall content,
             Forall (fun c : option Element =>
                       forall i : Z,
                         extends (fun buf => match c with
                                             | None => (buf, true)
                                             | Some e => appendElement 0 e buf
                                             end)) content).
  { intros content. apply Forall_forall. intros [e|] _ i; [|apply skip_extends].
    intros buf. apply (appendElement_extends 0 ltac:(lia) e). }
  assert (Hcontent : forall content,
             Forall (onSome (fun e => truncates m (appendElement m e) (appendElement 0 e)))
                    content ->
             truncates m
               (forRange (fun _ (c : option Element) buf =>
                            match c with
                            | None => (buf, true)
                            | Some e => appendElement m e buf
                            end) 0 content)
               (forRange (fun _ (c : option Element) buf =>
                            match c with
                            | None => (buf, true)
                            | Some e => appendElement 0 e buf
                            end) 0 content)).
  { intros content H. apply forRange_truncates; [lia | apply Hext |].
    eapply Forall_impl; [|exact H]. intros [e|] He i; [|apply skip_truncates].
    intros buf. apply He. }
  destruct para as [p|]; [apply appendParagraph_truncates; assumption|].
  destruct table as [rows|].
  - cbn [appendElement]. apply forRange_truncates; [lia| |].
    + apply Forall_forall. intros row _ i.
      apply andThen_extends; [apply separator_extends; lia|].
      apply forRange_extends. apply Forall_forall. intros cell _ j.
      apply andThen_extends; [apply separator_extends; lia|].
      apply forRange_extends. apply Hext.
    + eapply Forall_impl; [|exact (Htable rows eq_refl)].
      intros row Hrow i.
      apply andThen_truncates;
        [lia | apply separator_extends; lia | | apply separator_truncates; assumption |].
      * apply forRange_extends. apply Forall_forall. intros cell _ j.
        apply andThen_extends; [apply separator_extends; lia|].
        apply forRange_extends. apply Hext.
      * apply forRange_truncates; [lia| |].
        -- apply Forall_forall. intros cell _ j.
           apply andThen_extends; [apply separator_extends; lia|].
           apply forRange_extends. apply Hext.
        -- eapply Forall_impl; [|exact Hrow]. intros cell Hcell j.
           apply andThen_truncates;
             [lia | apply separator_extends; lia | apply forRange_extends; apply Hext
              | apply separator_truncates; assumption | apply Hcontent; exact Hcell].
  - destruct toc as [content|]; cbn [appendElement].
    + apply Hcontent. exact (Htoc content eq_refl).
    + apply skip_truncates.
Qed.

(** A limit that is not positive is no limit. *)
Lemma appendElement_nonpositive m :
  m <= 0 -> forall e buf, appendElement m e buf = appendElement 0 e buf.
Proof.
  intros Hm. apply (Element_induction (fun e => forall buf, appendElement m e buf = appendElement 0 e buf)).
  intros para table toc Htable Htoc buf.
  assert (Hsep : forall idx sep b, separator m idx sep b = separator 0 idx sep b).
  { intros idx sep b. unfold separator. destruct (0 <? idx); [|reflexivity].
    rewrite !appendLimited_unlimited by lia. reflexivity. }
  assert (Hcontent : forall content b,
             Forall (onSome (fun e => forall buf,
                                       appendElement m e buf = appendElement 0 e buf))
                    content ->
             forRange (fun _ (c : option Element) buf =>
                         match c with
                         | None => (buf, true)
                         | Some e => appendElement m e buf
                         end) 0 content b
             = forRange (fun _ (c : option Element) buf =>
                           match c with
                           | None => (buf, true)
                           | Some e => appendElement 0 e buf
                           end) 0 content b).
  { intros content b H. apply forRange_ext.
    eapply Forall_impl; [|exact H]. intros [e|] He i b'; [|reflexivity].
    apply He. }
  destruct para as [p|].
  { cbn [appendElement]. unfold appendParagraph. apply forRange_ext.
    apply Forall_forall. intros pe _ i b. destruct (pe_TextRun pe); [|reflexivity].
    rewrite !appendLimited_unlimited by lia. reflexivity. }
  destruct table as [rows|].
  - cbn [appendElement]. apply forRange_ext.
    eapply Forall_impl; [|exact (Htable rows eq_refl)].
    intros row Hrow i b. unfold andThen at 1 3. rewrite Hsep.
    destruct (separator 0 i [x0a] b) as [b1 [|]]; [|reflexivity].
    apply forRange_ext. eapply Forall_impl; [|exact Hrow].
    intros cell Hcell j b2. unfold andThen. rewrite Hsep.
    destruct (separator 0 j [x09] b2) as [b3 [|]]; [|reflexivity].
    apply Hcontent. exact Hcell.
  - destruct toc as [content|]; cbn [appendElement]; [|reflexivity].
    apply Hcontent. exact (Htoc content eq_refl).
Qed.

Lemma selfContained_text (w : walk) : selfContained w -> forall buf, fst (w buf) = buf ++ fst (w []).
Proof. intros H buf. rewrite H. reflexivity. Qed.

Lemma skip_selfContained : selfContained (fun buf => (buf, true)).
Proof. intros buf. cbn. rewrite app_nil_r. reflexivity. Qed.

Lemma appendLimited_selfContained s : selfContained (fun buf => appendLimited buf 0 s).
Proof. intros buf. rewrite !appendLimited_unlimited by lia. reflexivity. Qed.

Lemma andThen_selfContained a b :
  selfContained a -> selfContained b ->
  selfContained (andThen a b) /\ fst (andThen a b []) = fst (a []) ++ fst (b []).
Proof.
  intros Ha Hb.
  assert (E : forall buf, andThen a b buf = (buf ++ fst (a []) ++ fst (b []), true)).
  { intros buf. unfold andThen. rewrite (Ha buf), (Hb (buf ++ fst (a []))).
    rewrite <- app_assoc. reflexivity. }
  split.
  - intros buf. rewrite (E buf), (E []). reflexivity.
  - rewrite (E []). reflexivity.
Qed.

Lemma forRange_selfContained {A : Type} (body : Z -> A -> walk) l : forall i,
  Forall (fun x => forall i, selfContained (body i x)) l ->
  selfContained (forRange body i l).
Proof.
  induction l as [|x l IH]; intros i H; cbn [forRange].
  - apply skip_selfContained.
  - inversion H; subst. apply andThen_selfContained; auto.
Qed.

(** A loop without separators adds the texts of its items, in order. *)
Lemma forRange_concat {A : Type} (body : Z -> A -> walk) (txt : A -> gostring) l :
  forall i,
    Forall (fun x => forall i, selfContained (body i x) /\ fst (body i x []) = txt x) l ->
    fst (forRange body i l []) = concat (map txt l).
Proof.
  induction l as [|x l IH]; intros i H; cbn [forRange map concat]; [reflexivity|].
  inversion H as [|? ? Hx Hl]; subst. destruct (Hx i) as [Hs Ht].
  destruct (andThen_selfContained (body i x) (forRange body (i + 1) l)) as [_ E].
  - exact Hs.
  - apply forRange_selfContained. eapply Forall_impl; [|exact Hl].
    intros y Hy j. apply Hy.
  - rewrite E, Ht, IH by assumption. reflexivity.
Qed.

Lemma joinWith_cons sep x l :
  joinWith sep (x :: l) = x ++ concat (map (fun y => sep ++ y) l).
Proof.
  revert x. induction l as [|y l IH]; intros x.
  - cbn. rewrite app_nil_r. reflexivity.
  - change (joinWith sep (x :: y :: l)) with (x ++ sep ++ joinWith sep (y :: l)).
    rewrite IH. cbn [map concat]. rewrite <- app_assoc. reflexivity.
Qed.

Lemma separator_selfContained idx sep : selfContained (separator 0 idx sep).
Proof.
  unfold separator. destruct (0 <? idx);
    [apply appendLimited_selfContained | apply skip_selfContained].
Qed.

Lemma separator_text idx sep :
  fst (separator 0 idx sep []) = if 0 <? idx then sep else [].
Proof.
  unfold separator. destruct (0 <? idx); [|reflexivity].
  rewrite appendLimited_unlimited by lia. reflexivity.
Qed.

(** A loop with a separator before every item but the first adds the texts
    of its items joined by the separator. *)
Lemma forRange_separated {A : Type} (inner : A -> walk) (txt : A -> gostring) sep l :
  Forall (fun x => selfContained (inner x) /\ fst (inner x []) = txt x) l ->
  forall i,
    0 <= i ->
    fst (forRange (fun idx x => andThen (separator 0 idx sep) (inner x)) i l [])
    = if 0 <? i then concat (map (fun x => sep ++ txt x) l)
      else joinWith sep (map txt l).
Proof.
  induction l as [|x l IH]; intros H i Hi.
  - cbn. destruct (0 <? i); reflexivity.
  - inversion H as [|? ? [Hs Ht] Hl]; subst. cbn [forRange].
    assert (Hrest : selfContained
                      (forRange (fun idx x => andThen (separator 0 idx sep) (inner x))
                                (i + 1) l)).
    { apply forRange_selfContained. eapply Forall_impl; [|exact Hl].
      intros y [Hy _] j. apply andThen_selfContained;
        [apply separator_selfContained | exact Hy]. }
    destruct (andThen_selfContained (separator 0 i sep) (inner x)
                (separator_selfContained i sep) Hs) as [Hfirst Efirst].
    destruct (andThen_selfContained _ _ Hfirst Hrest) as [_ E].
    rewrite E, Efirst, separator_text, Ht, (IH Hl (i + 1)) by lia.
    destruct (Z.ltb_spec 0 (i + 1)); [|lia].
    cbn [map]. rewrite joinWith_cons, map_map.
    destruct (0 <? i); cbn [concat app]; rewrite <- ?app_assoc; reflexivity.
Qed.

(** Without a limit the walk of an element adds the element's own text. *)
Lemma appendElement_selfContained : forall e, selfContained (appendElement 0 e).
Proof.
  apply Element_induction. intros para table toc Htable Htoc.
  assert (Hcontent : forall content,
             Forall (onSome (fun e => selfContained (appendElement 0 e))) content ->
             selfContained (forRange (fun _ (c : option Element) buf =>
                                        match c with
                                        | None => (buf, true)
                                        | Some e => appendElement 0 e buf
                                        end) 0 content)).
  { intros content H. apply forRange_selfContained.
    eapply Forall_impl; [|exact H]. intros [e|] He i; [|apply skip_selfContained].
    intros buf. apply He. }
  destruct para as [p|].
  { cbn [appendElement]. unfold appendParagraph. apply forRange_selfContained.
    apply Forall_forall. intros pe _ i. destruct (pe_TextRun pe).
    - apply appendLimited_selfContained.
    - apply skip_selfContained. }
  destruct table as [rows|].
  - cbn [appendElement]. apply forRange_selfContained.
    eapply Forall_impl; [|exact (Htable rows eq_refl)].
    intros row Hrow i. apply andThen_selfContained; [apply separator_selfContained|].
    apply forRange_selfContained. eapply Forall_impl; [|exact Hrow].
    intros cell Hcell j. apply andThen_selfContained; [apply separator_selfContained|].
    apply Hcontent. exact Hcell.
  - destruct toc as [content|]; cbn [appendElement].
    + apply Hcontent. exact (Htoc content eq_refl).
    + apply skip_selfContained.
Qed.

Lemma appendDocsElementText_selfContained el :
  selfContained (fun buf => appendDocsElementText buf 0 el).
Proof.
  destruct el as [e|]; [apply appendElement_selfContained | apply skip_selfContained].
Qed.

(** The text of a list of content entries. *)
Lemma content_text (content : list (option Element)) :
  selfContained (forRange (fun _ (c : option Element) buf =>
                             match c with
                             | None => (buf, true)
                             | Some e => appendElement 0 e buf
                             end) 0 content) /\
  fst (forRange (fun _ (c : option Element) buf =>
                   match c with
                   | None => (buf, true)
                   | Some e => appendElement 0 e buf
                   end) 0 content [])
  = concat (map plainOf content).
Proof.
  split.
  - apply forRange_selfContained. apply Forall_forall. intros c _ i.
    exact (appendDocsElementText_selfContained c).
  - apply forRange_concat. apply Forall_forall. intros c _ i.
    split; [exact (appendDocsElementText_selfContained c) | reflexivity].
Qed.

(** X1.  [appendLimited] with a positive limit, on a buffer within the limit:
    the new buffer is the first [maxBytes] bytes of the buffer followed by
    [s], so it never exceeds the limit, and the result is [true] exactly
    when the buffer was not yet full and [s] fitted whole. *)
Theorem appendLimited_cuts_at_limit (buf s : gostring) (maxBytes : Z) :
  0 < maxBytes -> len buf <= maxBytes ->
  fst (appendLimited buf maxBytes s) = slice_to (buf ++ s) maxBytes /\
  len (fst (appendLimited buf maxBytes s)) <= maxBytes /\
  (snd (appendLimited buf maxBytes s) = true <->
   len buf < maxBytes /\ len buf + len s <= maxBytes).
Proof.
  intros Hm Hb. unfold appendLimited.
  pose proof (len_nonneg buf). pose proof (len_nonneg s).
  destruct (Z.leb_spec maxBytes 0); [lia|].
  destruct (Z.leb_spec (maxBytes - len buf) 0).
  - cbn [fst snd]. rewrite slice_to_app_long by lia. rewrite slice_to_all by lia.
    split; [reflexivity|]. split; [lia|]. split; [discriminate | lia].
  - destruct (Z.ltb_spec (maxBytes - len buf) (len s)); cbn [fst snd].
    + rewrite slice_to_app_short by lia. split; [reflexivity|].
      rewrite len_app, slice_to_len by lia. split; [lia|]. split; [discriminate | lia].
    + rewrite slice_to_all by (rewrite len_app; lia).
      split; [reflexivity|]. rewrite len_app. split; [lia|]. split; [lia | reflexivity].
Qed.

Lemma appendLimited_cuts_at_limit_witness :
  0 < 5 /\ len (lit "abc") <= 5 /\
  fst (appendLimited (lit "abc") 5 (lit "defg")) = lit "abcde" /\
  snd (appendLimited (lit "abc") 5 (lit "defg")) = false.
Proof.
  destruct (appendLimited_cuts_at_limit (lit "abc") (lit "defg") 5) as (E & _ & Hok);
    [lia | vm_compute; discriminate|].
  split; [lia|]. split; [vm_compute; discriminate|].
  split; [exact E|].
  destruct (snd (appendLimited (lit "abc") 5 (lit "defg"))) eqn:Es; [|reflexivity].
  exfalso. destruct Hok as [Hok _]. specialize (Hok eq_refl).
  vm_compute in Hok. destruct Hok as [_ Hok]. apply Hok. reflexivity.
Defined.

(** X2.  With a positive limit, [docsPlainText] returns the first [maxBytes]
    bytes of the text it returns without a limit, and never more than
    [maxBytes] bytes. *)
Theorem docsPlainText_is_prefix_of_full_text (doc : option TextDocument) (maxBytes : Z) :
  0 < maxBytes ->
  docsPlainText doc maxBytes = slice_to (docsPlainText doc 0) maxBytes /\
  len (docsPlainText doc maxBytes) <= maxBytes.
Proof.
  intros Hm. unfold docsPlainText.
  assert (Hnil : @nil byte = slice_to [] maxBytes /\ len (@nil byte) <= maxBytes).
  { unfold slice_to. rewrite firstn_nil. cbn. split; [reflexivity | lia]. }
  destruct doc as [d|]; [|exact Hnil].
  destruct (td_Body d) as [content|]; [|exact Hnil].
  assert (T : truncates maxBytes
                (forRange (fun _ el buf => appendDocsElementText buf maxBytes el) 0 content)
                (forRange (fun _ el buf => appendDocsElementText buf 0 el) 0 content)).
  { apply forRange_truncates; [lia| |].
    - apply Forall_forall. intros [e|] _ i; [|apply skip_extends].
      exact (appendElement_extends 0 ltac:(lia) e).
    - apply Forall_forall. intros [e|] _ i; [|apply skip_truncates].
      exact (appendElement_truncates maxBytes Hm e). }
  specialize (T [] ltac:(cbn; lia)).
  destruct (snd (forRange (fun _ el buf => appendDocsElementText buf maxBytes el) 0 content [])).
  - destruct T as [E Hl]. split; [|exact Hl].
    rewrite <- E. symmetry. apply slice_to_all. exact Hl.
  - destruct T as [Hl E]. split; [exact E | lia].
Qed.

Lemma docsPlainText_is_prefix_of_full_text_witness :
  0 < 9 /\
  docsPlainText sampleDoc 9 = slice_to (docsPlainText sampleDoc 0) 9 /\
  len (docsPlainText sampleDoc 9) <= 9.
Proof.
  split; [lia|]. apply (docsPlainText_is_prefix_of_full_text sampleDoc 9). lia.
Defined.

(** X3.  A limit that is zero or negative is no limit: [docsPlainText]
    returns the same text as with the limit 0. *)
Theorem docsPlainText_nonpositive_limit_is_unlimited (doc : option TextDocument) (maxBytes : Z) :
  maxBytes <= 0 -> docsPlainText doc maxBytes = docsPlainText doc 0.
Proof.
  intros Hm. unfold docsPlainText.
  destruct doc as [d|]; [|reflexivity].
  destruct (td_Body d) as [content|]; [|reflexivity].
  f_equal. apply forRange_ext. apply Forall_forall. intros [e|] _ i buf; [|reflexivity].
  apply appendElement_nonpositive. assumption.
Qed.

Lemma docsPlainText_nonpositive_limit_is_unlimited_witness :
  -5 <= 0 /\ docsPlainText sampleDoc (-5) = docsPlainText sampleDoc 0.
Proof.
  split; [lia|]. apply docsPlainText_nonpositive_limit_is_unlimited. lia.
Defined.

(** X4.  Without a limit the text of a document is the concatenation of the
    texts of its content entries, in order; the text of a paragraph is the
    concatenation of its text runs, an element without a text run giving
    nothing; the text of a table of contents is the concatenation of its
    entries; a nil document and a nil body give the empty text. *)
Theorem docsPlainText_concatenates_elements :
  (forall content,
      docsPlainText (Some {| td_Body := Some content |}) 0 = concat (map plainOf content)) /\
  (forall runs, plainOf (paragraphElement runs) = runsText runs) /\
  (forall content,
      plainOf (Some (mkElement None None (Some content))) = concat (map plainOf content)) /\
  docsPlainText None 0 = [] /\
  docsPlainText (Some {| td_Body := None |}) 0 = [].
Proof.
  split; [|split; [|split; [|split; reflexivity]]].
  - intros content. unfold docsPlainText. cbn [td_Body].
    apply forRange_concat. apply Forall_forall. intros c _ i.
    split; [exact (appendDocsElementText_selfContained c) | reflexivity].
  - intros runs. unfold plainOf, paragraphElement, appendDocsElementText.
    cbn [appendElement]. unfold appendParagraph, runsText. cbn [Elements].
    rewrite (forRange_concat _ (fun pe => match pe_TextRun pe with
                                          | Some tr => tr_Content tr
                                          | None => []
                                          end)).
    + rewrite map_map. f_equal. apply map_ext. intros [s|]; reflexivity.
    + apply Forall_forall. intros pe _ i. destruct (pe_TextRun pe).
      * split; [apply appendLimited_selfContained|].
        rewrite appendLimited_unlimited by lia. reflexivity.
      * split; [apply skip_selfContained | reflexivity].
  - intros content. unfold plainOf at 1, appendDocsElementText. cbn [appendElement].
    apply content_text.
Qed.

(** X5.  Without a limit a table adds to the buffer its rows joined by a
    newline, a row being its cells joined by a tab and a cell the
    concatenation of the texts of its content: no separator is written
    before the first row or cell, or after the last. *)
Theorem table_text_is_tab_and_newline_separated
    (rows : list (list (list (option Element)))) (buf : gostring) :
  appendDocsElementText buf 0 (tableElement rows) =
  (buf ++ joinWith [x0a]
            (map (fun row =>
                    joinWith [x09] (map (fun cell => concat (map plainOf cell)) row))
                 rows),
   true).
Proof.
  rewrite (appendDocsElementText_selfContained (tableElement rows) buf).
  f_equal. f_equal.
  unfold tableElement, appendDocsElementText. cbn [appendElement].
  rewrite (forRange_separated _
             (fun row => joinWith [x09] (map (fun cell => concat (map plainOf cell)) row)));
    [reflexivity | | lia].
  apply Forall_forall. intros row _.
  assert (Hcells : Forall (fun cell : list (option Element) =>
                             selfContained
                               (forRange (fun _ (c : option Element) buf =>
                                            match c with
                                            | None => (buf, true)
                                            | Some e => appendElement 0 e buf
                                            end) 0 cell) /\
                             fst (forRange (fun _ (c : option Element) buf =>
                                              match c with
                                              | None => (buf, true)
                                              | Some e => appendElement 0 e buf
                                              end) 0 cell [])
                             = concat (map plainOf cell)) row).
  { apply Forall_forall. intros cell _. apply content_text. }
  split.
  - apply forRange_selfContained. eapply Forall_impl; [|exact Hcells].
    intros cell [Hc _] j. apply andThen_selfContained;
      [apply separator_selfContained | exact Hc].
  - rewrite (forRange_separated _ (fun cell => concat (map plainOf cell)));
      [reflexivity | exact Hcells | lia].
Qed.

(** ** Bytes of a single-byte separator *)

Lemma Index_byte_none c s : Index s [c] = -1 <-> ~ In c s.
Proof.
  induction s as [|d s IH]; simpl.
  - split; auto.
  - destruct (Byte.eqb d c) eqn:E; simpl.
    + apply Byte.byte_dec_bl in E; subst. split; [discriminate | intros H0; exfalso; auto].
    + apply Byte.eqb_false in E.
      destruct (Index s [c] =? -1) eqn:E1.
      * apply Z.eqb_eq in E1. split; auto. intros _ [H|H]; [congruence|].
        apply IH in E1; auto.
      * apply Z.eqb_neq in E1. pose proof (Index_ge s [c]).
        split; [lia|]. intros H0. exfalso. apply E1, IH. intros H1; apply H0; auto.
Qed.

Lemma Index_byte_before c s :
  Index s [c] <> -1 -> ~ In c (slice_to s (Index s [c])).
Proof.
  induction s as [|d s IH]; simpl.
  - congruence.
  - destruct (Byte.eqb d c) eqn:E; simpl.
    + intros _. unfold slice_to; simpl; auto.
    + apply Byte.eqb_false in E.
      destruct (Index s [c] =? -1) eqn:E1; [congruence|].
      apply Z.eqb_neq in E1. intros _. pose proof (Index_ge s [c]).
      unfold slice_to. replace (Z.to_nat (Index s [c] + 1)) with (S (Z.to_nat (Index s [c]))) by lia.
      simpl. intros [H1|H1]; [congruence|]. apply (IH E1). exact H1.
Qed.

Lemma countByte_app c a b : countByte c (a ++ b) = (countByte c a + countByte c b)%nat.
Proof. apply count_occ_app. Qed.

Lemma countByte_none c s : ~ In c s -> countByte c s = 0%nat.
Proof. intros H. apply count_occ_not_In. exact H. Qed.

Lemma countByte_self c : countByte c [c] = 1%nat.
Proof. unfold countByte. cbn. destruct (Byte.byte_eq_dec c c); congruence. Qed.

(** ** Cuts by bytes *)

Lemma byteCut_refl s : byteCut s s.
Proof. split; [lia | apply incl_refl]. Qed.

Lemma byteCut_trans s t u : byteCut s t -> byteCut t u -> byteCut s u.
Proof.
  intros [L1 I1] [L2 I2]. split; [lia | eapply incl_tran; eassumption].
Qed.

Lemma byteCut_app_l a b : byteCut (a ++ b) a.
Proof.
  split; [rewrite len_app; pose proof (len_nonneg b); lia | apply incl_appl, incl_refl].
Qed.

Lemma byteCut_app_r a b : byteCut (a ++ b) b.
Proof.
  split; [rewrite len_app; pose proof (len_nonneg a); lia | apply incl_appr, incl_refl].
Qed.

Lemma byteCut_slice_to s i : byteCut s (slice_to s i).
Proof.
  rewrite <- (slice_to_from s i) at 1. apply byteCut_app_l.
Qed.

Lemma byteCut_slice_from s i : byteCut s (slice_from s i).
Proof.
  rewrite <- (slice_to_from s i) at 1. apply byteCut_app_r.
Qed.

Lemma byteCut_slice s i j : byteCut s (slice s i j).
Proof.
  unfold slice. eapply byteCut_trans; [apply byteCut_slice_to | apply byteCut_slice_from].
Qed.

Lemma dropWhile_suffix {A} (f : A -> bool) l : exists p, l = p ++ dropWhile f l.
Proof.
  induction l as [|x l [p IH]]; cbn [dropWhile].
  - exists []. reflexivity.
  - destruct (f x).
    + exists (x :: p). cbn. f_equal. exact IH.
    + exists []. reflexivity.
Qed.

Lemma trimRightByte_prefix s c : exists q, s = trimRightByte s c ++ q.
Proof.
  unfold trimRightByte.
  destruct (dropWhile_suffix (Byte.eqb c) (rev s)) as [p Hp].
  exists (rev p). rewrite <- rev_app_distr, <- Hp, rev_involutive. reflexivity.
Qed.

Lemma byteCut_trimRightByte s c : byteCut s (trimRightByte s c).
Proof.
  destruct (trimRightByte_prefix s c) as [q Hq].
  rewrite Hq at 1. apply byteCut_app_l.
Qed.

Lemma byteCut_TrimPrefix s p : byteCut s (TrimPrefix s p).
Proof.
  unfold TrimPrefix. destruct (HasPrefix s p);
    [apply byteCut_slice_from | apply byteCut_refl].
Qed.

Lemma byteCut_headingOf line trimmed : byteCut line (snd (headingOf line trimmed)).
Proof.
  unfold headingOf.
  repeat match goal with
         | |- context [if ?b then _ else _] => destruct b
         end; cbn [snd]; (apply byteCut_TrimPrefix || apply byteCut_refl).
Qed.

Lemma byteCut_listItemOf sty text0 : byteCut text0 (snd (listItemOf sty text0)).
Proof.
  unfold listItemOf.
  repeat match goal with
         | |- context [if ?b then _ else _] => destruct b
         end; cbn [snd]; (apply byteCut_slice_from || apply byteCut_refl).
Qed.

Lemma byteCut_TrimRightFunc s f : byteCut s (TrimRightFunc s f).
Proof. unfold TrimRightFunc. apply byteCut_slice_to. Qed.

Lemma byteCut_nil s : byteCut s [].
Proof. split; [apply len_nonneg | intros x []]. Qed.

Lemma byteCut_TrimLeftFunc s f : byteCut s (TrimLeftFunc s f).
Proof.
  unfold TrimLeftFunc. destruct (_ =? -1);
    [apply byteCut_nil | apply byteCut_slice_from].
Qed.

Lemma byteCut_TrimSpace_stop fuel s : forall start stop,
  byteCut s (TrimSpace_stop fuel s start stop).
Proof.
  induction fuel as [|fuel IH]; intros start stop; cbn [TrimSpace_stop].
  - apply byteCut_slice.
  - repeat match goal with
           | |- context [if ?b then _ else _] => destruct b
           end; try apply byteCut_slice; try apply IH.
    eapply byteCut_trans; [apply byteCut_slice | apply byteCut_TrimRightFunc].
Qed.

Lemma byteCut_TrimSpace_start fuel s : forall start,
  byteCut s (TrimSpace_start fuel s start).
Proof.
  induction fuel as [|fuel IH]; intros start; cbn [TrimSpace_start].
  - apply byteCut_TrimSpace_stop.
  - repeat match goal with
           | |- context [if ?b then _ else _] => destruct b
           end; try apply byteCut_TrimSpace_stop; try apply IH.
    unfold TrimFunc.
    eapply byteCut_trans; [apply byteCut_slice_from|].
    eapply byteCut_trans; [apply byteCut_TrimLeftFunc | apply byteCut_TrimRightFunc].
Qed.

Lemma byteCut_TrimSpace s : byteCut s (TrimSpace s).
Proof. apply byteCut_TrimSpace_start. Qed.

(** ** strings.Split on one byte *)

Lemma Split_loop_nonempty fuel s sep : Split_loop fuel s sep <> [].
Proof.
  destruct fuel; cbn [Split_loop]; [discriminate|].
  destruct (_ <? 0); discriminate.
Qed.

Lemma joinWith_cons2 sep x l :
  l <> [] -> joinWith sep (x :: l) = x ++ sep ++ joinWith sep l.
Proof. destruct l; [congruence | reflexivity]. Qed.

Lemma Split_byte fuel c : forall s,
  (length s <= fuel)%nat ->
  length (Split_loop fuel s [c]) = S (countByte c s) /\
  Forall (fun l => byteCut s l /\ ~ In c l) (Split_loop fuel s [c]) /\
  joinWith [c] (Split_loop fuel s [c]) = s.
Proof.
  induction fuel as [|fuel IH]; intros s Hf; cbn [Split_loop].
  - destruct s; [|cbn in Hf; lia].
    cbn. repeat split. constructor; [|constructor].
    split; [apply byteCut_refl | auto].
  - destruct (Z.ltb_spec (Index s [c]) 0) as [Hm|Hm].
    + assert (Hn : ~ In c s).
      { apply Index_byte_none. pose proof (Index_ge s [c]). lia. }
      rewrite countByte_none by assumption.
      split; [reflexivity|]. split; [|reflexivity].
      constructor; [|constructor]. split; [apply byteCut_refl | exact Hn].
    + assert (Hi : Index s [c] <> -1) by lia.
      destruct (Index_split s [c] Hi) as (_ & Es & Hl).
      pose proof (Index_byte_before c s Hi) as Hb.
      set (a := slice_to s (Index s [c])) in *.
      set (b := slice_from s (Index s [c] + len [c])) in *.
      assert (Hlb : (length b <= fuel)%nat).
      { change (len [c]) with 1 in Hl. unfold len in Hl. lia. }
      destruct (IH b Hlb) as (I1 & I2 & I3).
      split; [|split].
      * cbn [length]. rewrite I1. rewrite Es at 1.
        rewrite !countByte_app, countByte_self, (countByte_none c a) by assumption.
        lia.
      * constructor.
        -- split; [|exact Hb]. rewrite Es at 1. apply byteCut_app_l.
        -- eapply Forall_impl; [|exact I2]. cbv beta. intros l [Hc Hn].
           split; [|exact Hn].
           eapply byteCut_trans; [|exact Hc].
           rewrite Es at 1. eapply byteCut_trans; [apply byteCut_app_r|].
           apply byteCut_app_r.
      * rewrite joinWith_cons2 by apply Split_loop_nonempty.
        rewrite I3. symmetry. exact Es.
Qed.

(** ** The span extractor, byte by byte *)

Lemma withoutStars_app a b : withoutStars (a ++ b) = withoutStars a ++ withoutStars b.
Proof. apply filter_app. Qed.

Lemma withoutStars_star : withoutStars star = [].
Proof. reflexivity. Qed.

Lemma withoutStars_starstar : withoutStars starstar = [].
Proof. reflexivity. Qed.

Lemma withoutStars_id s : ~ In x2a s -> withoutStars s = s.
Proof.
  induction s as [|b s IH]; intros H; [reflexivity|].
  cbn [withoutStars filter].
  rewrite Byte_eqb_neq by (intros ->; apply H; left; reflexivity).
  cbn [negb]. f_equal. apply IH. intros H1; apply H; right; exact H1.
Qed.

Ltac stars_norm :=
  rewrite ?withoutStars_app, ?withoutStars_star, ?withoutStars_starstar,
          ?app_nil_l, ?app_nil_r, <- ?app_assoc in *.

Ltac incl_apps :=
  let x := fresh "x" in
  let Hx := fresh "Hx" in
  intros x Hx;
  repeat match goal with
         | H : incl _ _ |- _ => specialize (H x)
         end;
  rewrite ?in_app_iff in *; tauto.

Lemma inlineLoop_bytes fuel temp c o rs res :
  inlineLoop fuel temp c o rs = Some res ->
  withoutStars (fst res) = withoutStars (c ++ temp) /\
  len c <= len (fst res) <= len c + len temp /\
  incl (fst res) (c ++ temp).
Proof.
  revert fuel temp c o rs res.
  apply (inlineLoop_elim
           (fun temp c o rs res =>
              withoutStars (fst res) = withoutStars (c ++ temp) /\
              len c <= len (fst res) <= len c + len temp /\
              incl (fst res) (c ++ temp))).
  - intros temp c o rs _. cbn [fst]. rewrite len_app.
    pose proof (len_nonneg temp).
    split; [reflexivity|]. split; [lia | apply incl_refl].
  - intros before inner rest c o rs res _ _ o' (F & L & I).
    split; [|split].
    + rewrite F. stars_norm. reflexivity.
    + len_norm. pose proof (len_nonneg before). pose proof (len_nonneg inner). lia.
    + incl_apps.
  - intros before rest c o rs res _ _ o' (F & L & I).
    split; [|split].
    + rewrite F. stars_norm. reflexivity.
    + len_norm. pose proof (len_nonneg before). lia.
    + incl_apps.
  - intros before inner rest c o rs res _ _ _ o' (F & L & I).
    split; [|split].
    + rewrite F. stars_norm. reflexivity.
    + len_norm. pose proof (len_nonneg before). pose proof (len_nonneg inner). lia.
    + incl_apps.
  - intros before rest c o rs res _ _ o' (F & L & I).
    split; [|split].
    + rewrite F. stars_norm. reflexivity.
    + len_norm. pose proof (len_nonneg before). lia.
    + incl_apps.
Qed.

(** ** Order of the recorded ranges *)

Lemma orderedFrom_weaken o o' rs : o' <= o -> orderedFrom o rs -> orderedFrom o' rs.
Proof.
  destruct rs as [|r rs]; cbn [orderedFrom]; [auto|]. intros H (A & B & C).
  split; [lia | split; assumption].
Qed.

Lemma utf16_le_len s : len s < 2 ^ 63 -> 0 <= utf16CodeUnitCount s <= len s.
Proof. intros H. rewrite utf16_units by assumption. apply units_bounds. Qed.

Lemma inlineLoop_ordered fuel temp c o rs res :
  inlineLoop fuel temp c o rs = Some res ->
  0 <= o <= len c -> len c + len temp < 2 ^ 63 ->
  exists y, snd res = rs ++ y /\ orderedFrom o y /\ len c <= len (fst res) /\
            Forall (fun r => end_ r + len c <= o + len (fst res)) y.
Proof.
  revert fuel temp c o rs res.
  apply (inlineLoop_elim
           (fun temp c o rs res =>
              0 <= o <= len c -> len c + len temp < 2 ^ 63 ->
              exists y, snd res = rs ++ y /\ orderedFrom o y /\
                        len c <= len (fst res) /\
                        Forall (fun r => end_ r + len c <= o + len (fst res)) y)).
  - intros temp c o rs _ _ _. exists []. cbn [snd fst]. rewrite app_nil_r.
    split; [reflexivity|]. split; [exact I|].
    split; [|constructor]. rewrite len_app. pose proof (len_nonneg temp). lia.
  - intros before inner rest c o rs res _ _ o' IH Ho Hb.
    len_norm.
    pose proof (len_nonneg before). pose proof (len_nonneg inner).
    pose proof (len_nonneg rest). pose proof (len_nonneg c).
    pose proof (utf16_le_len before ltac:(lia)).
    pose proof (utf16_le_len inner ltac:(lia)).
    assert (Eo' : o' = o + utf16CodeUnitCount before)
      by (unfold o'; apply wrap64_small; lia).
    assert (Eo'' : wrap64 (o' + utf16CodeUnitCount inner) = o' + utf16CodeUnitCount inner)
      by (apply wrap64_small; lia).
    rewrite Eo'' in IH.
    destruct IH as (y & Ey & Oy & Ly & Fy); [lia | lia |].
    exists (spanRange o' inner true :: y).
    split; [rewrite Ey, <- app_assoc; reflexivity|].
    split; [|split].
    + cbn [orderedFrom spanRange start end_]. rewrite Eo''.
      split; [lia|]. split; [lia | exact Oy].
    + lia.
    + constructor.
      * cbn [spanRange end_]. rewrite Eo''. lia.
      * eapply Forall_impl; [|exact Fy]. cbv beta. intros r Hr. lia.
  - intros before rest c o rs res _ _ o' IH Ho Hb.
    len_norm.
    pose proof (len_nonneg before).
    pose proof (len_nonneg rest). pose proof (len_nonneg c).
    pose proof (utf16_le_len before ltac:(lia)).
    assert (Eo' : o' = o + utf16CodeUnitCount before)
      by (unfold o'; apply wrap64_small; lia).
    assert (Eo'' : wrap64 (o' + 2) = o' + 2) by (apply wrap64_small; lia).
    rewrite Eo'' in IH.
    destruct IH as (y & Ey & Oy & Ly & Fy); [lia | lia |].
    exists y. split; [exact Ey|]. split; [|split].
    + eapply orderedFrom_weaken; [|exact Oy]. lia.
    + lia.
    + eapply Forall_impl; [|exact Fy]. cbv beta. intros r Hr. lia.
  - intros before inner rest c o rs res _ _ _ o' IH Ho Hb.
    len_norm.
    pose proof (len_nonneg before). pose proof (len_nonneg inner).
    pose proof (len_nonneg rest). pose proof (len_nonneg c).
    pose proof (utf16_le_len before ltac:(lia)).
    pose proof (utf16_le_len inner ltac:(lia)).
    assert (Eo' : o' = o + utf16CodeUnitCount before)
      by (unfold o'; apply wrap64_small; lia).
    assert (Eo'' : wrap64 (o' + utf16CodeUnitCount inner) = o' + utf16CodeUnitCount inner)
      by (apply wrap64_small; lia).
    rewrite Eo'' in IH.
    destruct IH as (y & Ey & Oy & Ly & Fy); [lia | lia |].
    exists (spanRange o' inner false :: y).
    split; [rewrite Ey, <- app_assoc; reflexivity|].
    split; [|split].
    + cbn [orderedFrom spanRange start end_]. rewrite Eo''.
      split; [lia|]. split; [lia | exact Oy].
    + lia.
    + constructor.
      * cbn [spanRange end_]. rewrite Eo''. lia.
      * eapply Forall_impl; [|exact Fy]. cbv beta. intros r Hr. lia.
  - intros before rest c o rs res _ _ o' IH Ho Hb.
    len_norm.
    pose proof (len_nonneg before).
    pose proof (len_nonneg rest). pose proof (len_nonneg c).
    pose proof (utf16_le_len before ltac:(lia)).
    assert (Eo' : o' = o + utf16CodeUnitCount before)
      by (unfold o'; apply wrap64_small; lia).
    assert (Eo'' : wrap64 (o' + 1) = o' + 1) by (apply wrap64_small; lia).
    rewrite Eo'' in IH.
    destruct IH as (y & Ey & Oy & Ly & Fy); [lia | lia |].
    exists y. split; [exact Ey|]. split; [|split].
    + eapply orderedFrom_weaken; [|exact Oy]. lia.
    + lia.
    + eapply Forall_impl; [|exact Fy]. cbv beta. intros r Hr. lia.
Qed.

(** ** The tokenizer, line by line *)

Lemma headingOf_knownStyle line trimmed : knownStyle (fst (headingOf line trimmed)).
Proof.
  unfold headingOf, knownStyle.
  repeat match goal with
         | |- context [if ?b then _ else _] => destruct b
         end; cbn [fst]; auto.
Qed.

Lemma listItemOf_flags sty text0 :
  (sty <> "NORMAL_TEXT"%string ->
   fst (fst (listItemOf sty text0)) = false /\ snd (fst (listItemOf sty text0)) = false) /\
  (fst (fst (listItemOf sty text0)) = true -> snd (fst (listItemOf sty text0)) = false).
Proof.
  unfold listItemOf.
  destruct (String.eqb sty "NORMAL_TEXT") eqn:E.
  - apply String.eqb_eq in E.
    repeat match goal with
           | |- context [if ?b then _ else _] => destruct b
           end; cbn [fst snd]; split; intros; try congruence; auto.
  - cbn [fst snd]. auto.
Qed.

(** What a parsed line is made of, byte by byte. *)
Lemma parseLine_bytes line seg :
  parseLine line = Some seg ->
  knownStyle (style seg) /\
  (style seg <> "NORMAL_TEXT"%string -> isBullet seg = false /\ isNumbered seg = false) /\
  (isBullet seg = true -> isNumbered seg = false) /\
  exists text1 clean rs,
    byteCut line text1 /\
    parseInline text1 = Some (clean, rs) /\
    text seg = clean ++ newline /\
    (ranges seg = rs \/ ranges seg = []).
Proof.
  unfold parseLine.
  assert (Hblank :
            forall seg0,
              Some {| text := newline; style := "NORMAL_TEXT"; isBullet := false;
                      isNumbered := false; ranges := [] |} = Some seg0 ->
              knownStyle (style seg0) /\
              (style seg0 <> "NORMAL_TEXT"%string ->
               isBullet seg0 = false /\ isNumbered seg0 = false) /\
              (isBullet seg0 = true -> isNumbered seg0 = false) /\
              exists text1 clean rs,
                byteCut line text1 /\
                parseInline text1 = Some (clean, rs) /\
                text seg0 = clean ++ newline /\
                (ranges seg0 = rs \/ ranges seg0 = [])).
  { intros seg0 [= <-]. cbn [style isBullet isNumbered text ranges].
    split; [left; reflexivity|]. split; [auto|]. split; [auto|].
    exists [], [], []. split; [apply byteCut_nil|].
    split; [reflexivity|]. split; [reflexivity | auto]. }
  destruct (bytes_eqb _ []); [apply Hblank|].
  destruct (bytes_eqb _ _); [apply Hblank|]. clear Hblank.
  pose proof (headingOf_knownStyle (trimRightByte line x0d)
                (TrimSpace (trimRightByte line x0d))) as Hk.
  pose proof (byteCut_headingOf (trimRightByte line x0d)
                (TrimSpace (trimRightByte line x0d))) as Hc1.
  destruct (headingOf _ _) as [sty text0]. cbn [fst snd] in Hk, Hc1.
  pose proof (listItemOf_flags sty text0) as [Hf1 Hf2].
  pose proof (byteCut_listItemOf sty text0) as Hc2.
  destruct (listItemOf sty text0) as [[bullet numbered] text1]. cbn [fst snd] in *.
  destruct (parseInline text1) as [[clean rs]|] eqn:E; [|discriminate].
  intros [= <-]. cbn [style isBullet isNumbered text ranges].
  split; [exact Hk|]. split; [exact Hf1|]. split; [exact Hf2|].
  exists text1, clean, rs. split; [|auto].
  eapply byteCut_trans; [apply byteCut_trimRightByte|].
  eapply byteCut_trans; eassumption.
Qed.

Lemma parseInline_cut text1 clean rs :
  parseInline text1 = Some (clean, rs) -> byteCut text1 clean.
Proof.
  intros Hp. pose proof (inlineLoop_bytes _ _ _ _ _ _ Hp) as (_ & L & I).
  cbn [fst app] in *. change (len (@nil byte)) with 0 in L.
  split; [lia | exact I].
Qed.

(** X10.  Every line yields a segment.  Its style is one of NORMAL_TEXT,
    HEADING_1, HEADING_2 and HEADING_3; a heading is never a list item; a
    segment is never both bullet and numbered; its text is made of bytes of
    the line, followed by one newline; and the style loop builds at most
    one paragraph-level request for it, before its text-style requests. *)
Theorem segment_invariants (line : gostring) :
  exists seg,
    parseLine line = Some seg /\
    knownStyle (style seg) /\
    (style seg <> "NORMAL_TEXT"%string -> isBullet seg = false /\ isNumbered seg = false) /\
    (isBullet seg = true -> isNumbered seg = false) /\
    (exists body, text seg = body ++ newline /\ byteCut line body) /\
    forall idx, exists pre,
      segmentRequests idx seg = pre ++ map (textStyleRequest idx) (ranges seg) /\
      (length pre <= 1)%nat.
Proof.
  destruct (parseLine_total line) as [seg Hp]. exists seg.
  split; [exact Hp|].
  destruct (parseLine_bytes _ _ Hp) as (Hk & Hh & Hb & text1 & clean & rs & Hc & Hi & Ht & _).
  split; [exact Hk|]. split; [exact Hh|]. split; [exact Hb|].
  split.
  { exists clean. split; [exact Ht|].
    eapply byteCut_trans; [exact Hc | eapply parseInline_cut; exact Hi]. }
  intros idx. unfold segmentRequests.
  destruct (String.eqb (style seg) "NORMAL_TEXT") eqn:En.
  - rewrite andb_false_r. cbn [app].
    destruct (isBullet seg) eqn:Eb.
    + eexists. split; [reflexivity | cbn; lia].
    + destruct (isNumbered seg).
      * eexists. split; [reflexivity | cbn; lia].
      * exists []. split; [reflexivity | cbn; lia].
  - apply String.eqb_neq in En. destruct (Hh En) as [-> ->].
    destruct (negb _ && negb _).
    + eexists. split; [reflexivity | cbn; lia].
    + exists []. split; [reflexivity | cbn; lia].
Qed.

(** ** Emphasis ranges inside the paragraph *)

Lemma orderedFrom_Forall o rs :
  orderedFrom o rs -> Forall (fun r => o <= start r /\ start r <= end_ r) rs.
Proof.
  revert o. induction rs as [|r rs IH]; intros o; cbn [orderedFrom]; [constructor|].
  intros (A & B & C). constructor; [lia|].
  eapply Forall_impl; [|apply IH; exact C]. cbv beta. intros r0 [H1 H2]. lia.
Qed.

Lemma parseInline_ordered text1 clean rs :
  parseInline text1 = Some (clean, rs) ->
  len text1 < 2 ^ 63 ->
  orderedFrom 0 rs /\ Forall (fun r => end_ r <= len clean) rs.
Proof.
  intros Hp Hl.
  destruct (inlineLoop_ordered _ _ _ _ _ _ Hp) as (y & Ey & Oy & _ & Fy).
  - change (len (@nil formatRange)) with 0. change (len (@nil byte)) with 0. lia.
  - change (len (@nil byte)) with 0. lia.
  - cbn [snd fst app] in *. subst y. split; [exact Oy|].
    eapply Forall_impl; [|exact Fy]. cbv beta. intros r Hr.
    change (len (@nil byte)) with 0 in Hr. lia.
Qed.

(** X9.  For every line, with the index arithmetic below 2^63, the recorded
    ranges are in increasing order and do not overlap, and every text-style
    request built from them for a paragraph that starts at [idx] lies
    inside the paragraph range of the segment and ends before its final
    newline: [idx <= StartIndex <= EndIndex < paraEndIdx]. *)
Theorem emphasis_requests_stay_inside_paragraph (line : gostring) (idx : Z) :
  0 <= idx -> idx + len line < 2 ^ 63 - 1 ->
  exists seg,
    parseLine line = Some seg /\
    orderedFrom 0 (ranges seg) /\
    Forall (fun r =>
              exists rg fields,
                textStyleRequest idx r = UpdateTextStyle rg (bold r) (italic r) fields /\
                idx <= StartIndex rg /\ StartIndex rg <= EndIndex rg /\
                EndIndex rg < paraEndIdx idx seg)
           (ranges seg).
Proof.
  intros Hidx Hlen.
  destruct (parseLine_total line) as [seg Hp]. exists seg.
  split; [exact Hp|].
  destruct (parseLine_bytes _ _ Hp) as (_ & _ & _ & text1 & clean & rs & [Hc _] & Hi & Ht & Hr).
  pose proof (len_nonneg line). pose proof (len_nonneg text1). pose proof (len_nonneg clean).
  destruct (parseInline_ordered _ _ _ Hi ltac:(lia)) as [Ho Hf].
  destruct (parseInline_cut _ _ _ Hi) as [Hcl _].
  assert (Ho' : orderedFrom 0 (ranges seg))
    by (destruct Hr as [-> | ->]; [exact Ho | exact I]).
  assert (Hf' : Forall (fun r => end_ r <= len clean) (ranges seg))
    by (destruct Hr as [-> | ->]; [exact Hf | constructor]).
  split; [exact Ho'|].
  apply orderedFrom_Forall in Ho'.
  rewrite Forall_forall in *. intros r Hin.
  specialize (Ho' r Hin). specialize (Hf' r Hin). cbv beta in Ho'.
  unfold textStyleRequest. eexists. eexists. split; [reflexivity|].
  cbn [StartIndex EndIndex]. unfold paraEndIdx. rewrite Ht, len_app.
  change (len newline) with 1.
  rewrite !wrap64_small by lia. lia.
Qed.

Lemma emphasis_requests_stay_inside_paragraph_witness :
  0 <= 1 /\ 1 + len (lit "a **b** *c*") < 2 ^ 63 - 1 /\
  exists seg,
    parseLine (lit "a **b** *c*") = Some seg /\
    orderedFrom 0 (ranges seg) /\
    Forall (fun r =>
              exists rg fields,
                textStyleRequest 1 r = UpdateTextStyle rg (bold r) (italic r) fields /\
                1 <= StartIndex rg /\ StartIndex rg <= EndIndex rg /\
                EndIndex rg < paraEndIdx 1 seg)
           (ranges seg).
Proof.
  split; [lia|]. split; [vm_compute; reflexivity|].
  apply (emphasis_requests_stay_inside_paragraph (lit "a **b** *c*") 1);
    [lia | vm_compute; reflexivity].
Defined.

(** ** One paragraph per line *)

Lemma fullText_concat segs : fullText segs = concat (map text segs).
Proof.
  unfold fullText.
  assert (H : forall acc, fold_left (fun acc seg => acc ++ text seg) segs acc
                          = acc ++ concat (map text segs)).
  { induction segs as [|seg segs IH]; intros acc; cbn [fold_left map concat].
    - rewrite app_nil_r. reflexivity.
    - rewrite IH, <- app_assoc. reflexivity. }
  apply (H []).
Qed.

Lemma parseMarkdown_split markdown segs :
  parseMarkdown markdown = Some segs ->
  Forall2 (fun line seg => parseLine line = Some seg) (Split markdown newline) segs /\
  length segs = S (countByte x0a markdown) /\
  Forall (fun l => byteCut markdown l /\ ~ In x0a l) (Split markdown newline).
Proof.
  unfold parseMarkdown. intros H. apply parseLines_Forall2 in H.
  destruct (Split_byte (length markdown) x0a markdown (le_n _)) as (L & F & _).
  fold newline in L, F. fold (Split markdown newline) in L, F.
  split; [exact H|]. split; [|exact F].
  rewrite <- (Forall2_length H). exact L.
Qed.

Lemma Forall2_Forall_r {A B} (R : A -> B -> Prop) (P : A -> Prop) (Q : B -> Prop) l l' :
  (forall a b, P a -> R a b -> Q b) ->
  Forall2 R l l' -> Forall P l -> Forall Q l'.
Proof.
  intros H F2. induction F2 as [|a b l l' Hab F2 IH]; intros F; [constructor|].
  inversion F; subst. constructor; eauto.
Qed.

Lemma countByte_concat_ones c (l : list gostring) :
  Forall (fun t => countByte c t = 1%nat) l -> countByte c (concat l) = length l.
Proof.
  induction 1 as [|t l Ht _ IH]; [reflexivity|].
  cbn [concat length]. rewrite countByte_app, Ht, IH. reflexivity.
Qed.

Lemma parseMarkdown_bodies markdown segs :
  parseMarkdown markdown = Some segs ->
  Forall (fun seg => exists body, text seg = body ++ newline /\ ~ In x0a body /\
                                  byteCut markdown body) segs.
Proof.
  intros Hp. destruct (parseMarkdown_split _ _ Hp) as (F2 & L & F).
  eapply Forall2_Forall_r; [|exact F2|exact F]. cbv beta.
  intros line seg [Hc Hn] Hl.
  destruct (parseLine_bytes _ _ Hl) as (_ & _ & _ & text1 & clean & rs & Hc1 & Hi & Ht & _).
  exists clean. split; [exact Ht|].
  assert (Hcc : byteCut line clean).
  { eapply byteCut_trans; [exact Hc1 | eapply parseInline_cut; exact Hi]. }
  split.
  - intros Hin. apply Hn. apply (proj2 Hcc). exact Hin.
  - eapply byteCut_trans; eassumption.
Qed.

(** X11.  A markdown text yields one segment per line: one more than it has
    newline bytes.  The text of every segment is made of bytes of the
    input, holds no newline and is followed by one, so the inserted text
    has as many newlines as there are segments. *)
Theorem one_paragraph_per_line (markdown : gostring) :
  exists segs,
    parseMarkdown markdown = Some segs /\
    length segs = S (countByte x0a markdown) /\
    Forall (fun seg => exists body, text seg = body ++ newline /\ ~ In x0a body /\
                                    byteCut markdown body) segs /\
    countByte x0a (fullText segs) = length segs.
Proof.
  destruct (parseMarkdown_total markdown) as [segs Hp]. exists segs.
  split; [exact Hp|].
  destruct (parseMarkdown_split _ _ Hp) as (_ & L & _).
  split; [exact L|].
  pose proof (parseMarkdown_bodies _ _ Hp) as Hs.
  split; [exact Hs|].
  rewrite fullText_concat.
  rewrite countByte_concat_ones; [apply length_map|].
  apply Forall_map. eapply Forall_impl; [|exact Hs]. cbv beta.
  intros seg (body & -> & Hn & _).
  rewrite countByte_app, (countByte_none x0a body) by assumption. reflexivity.
Qed.

(** ** ASCII text *)

Lemma units_ascii s : allAscii s -> units s = len s.
Proof.
  induction 1 as [|c s Hc _ IH]; [reflexivity|].
  change (c :: s) with ([] ++ c :: s).
  rewrite units_app_ascii by assumption. rewrite IH.
  change (units []) with 0. unfold len. cbn [app length]. lia.
Qed.

Lemma allAscii_incl s t : allAscii s -> incl t s -> allAscii t.
Proof.
  unfold allAscii. rewrite !Forall_forall. intros H I b Hb. apply H, I, Hb.
Qed.

Lemma units_pos s : s <> [] -> 1 <= units s.
Proof.
  intros Hne. unfold units. rewrite (decodeAll_step _ Hne). cbn [fold_right].
  fold (units (slice_from s (snd (DecodeRuneInString s)))).
  pose proof (units_bounds (slice_from s (snd (DecodeRuneInString s)))).
  unfold unitsOf. destruct (_ <=? _); lia.
Qed.

(** X6.  For a string shorter than 2^63 bytes, [utf16CodeUnitCount] lies
    between 0 and the byte length, is at least 1 for a non-empty string,
    and is the byte length for ASCII text. *)
Theorem utf16CodeUnitCount_bounds (s : gostring) :
  len s < 2 ^ 63 ->
  0 <= utf16CodeUnitCount s <= len s /\
  (s <> [] -> 1 <= utf16CodeUnitCount s) /\
  (allAscii s -> utf16CodeUnitCount s = len s).
Proof.
  intros H. rewrite utf16_units by assumption.
  split; [apply units_bounds|]. split; [apply units_pos | apply units_ascii].
Qed.

Lemma utf16CodeUnitCount_bounds_witness :
  len emoji < 2 ^ 63 /\
  0 <= utf16CodeUnitCount emoji <= len emoji /\
  (emoji <> [] -> 1 <= utf16CodeUnitCount emoji) /\
  (allAscii emoji -> utf16CodeUnitCount emoji = len emoji).
Proof.
  split; [vm_compute; reflexivity|].
  apply (utf16CodeUnitCount_bounds emoji). vm_compute. reflexivity.
Defined.

(** X7.  [utf16CodeUnitCount] is additive over a split after well-formed
    UTF-8: when [a] is valid, the count of [a ++ b] is the sum of the two
    counts, whatever [b] is. *)
Theorem utf16CodeUnitCount_app (a b : gostring) :
  ValidString a = true -> len a + len b < 2 ^ 63 ->
  utf16CodeUnitCount (a ++ b) = utf16CodeUnitCount a + utf16CodeUnitCount b.
Proof.
  intros Hv Hl. pose proof (len_nonneg a). pose proof (len_nonneg b).
  rewrite !utf16_units by (rewrite ?len_app; lia).
  apply units_app_valid. exact Hv.
Qed.

Lemma utf16CodeUnitCount_app_witness :
  ValidString emoji = true /\ len emoji + len (lit "ab") < 2 ^ 63 /\
  utf16CodeUnitCount (emoji ++ lit "ab")
  = utf16CodeUnitCount emoji + utf16CodeUnitCount (lit "ab").
Proof.
  split; [vm_compute; reflexivity|]. split; [vm_compute; reflexivity|].
  apply (utf16CodeUnitCount_app emoji (lit "ab")); vm_compute; reflexivity.
Defined.

(** X12.  For ASCII markdown the byte length that the style loop takes for a
    paragraph is its length in UTF-16 code units: every paragraph range
    ends at [idx + utf16CodeUnitCount(seg.text)]. *)
Theorem ascii_paragraph_ranges_are_utf16 (markdown : gostring) :
  allAscii markdown -> len markdown < 2 ^ 63 - 1 ->
  exists segs,
    parseMarkdown markdown = Some segs /\
    Forall (fun seg =>
              utf16CodeUnitCount (text seg) = len (text seg) /\
              forall idx, paraEndIdx idx seg
                          = wrap64 (idx + utf16CodeUnitCount (text seg)))
           segs.
Proof.
  intros Ha Hl.
  destruct (parseMarkdown_total markdown) as [segs Hp].
  exists segs. split; [exact Hp|].
  eapply Forall_impl; [|exact (parseMarkdown_bodies _ _ Hp)]. cbv beta.
  intros seg (body & Ht & _ & [Hlb Hib]).
  assert (E : utf16CodeUnitCount (text seg) = len (text seg)).
  { rewrite utf16_units by (rewrite Ht, len_app; change (len newline) with 1; lia).
    apply units_ascii. rewrite Ht. apply Forall_app. split.
    - eapply allAscii_incl; eassumption.
    - constructor; [vm_compute; reflexivity | constructor]. }
  split; [exact E|]. intros idx. unfold paraEndIdx. rewrite E. reflexivity.
Qed.

Lemma ascii_paragraph_ranges_are_utf16_witness :
  allAscii (lit "# Hi") /\ len (lit "# Hi") < 2 ^ 63 - 1 /\
  exists segs,
    parseMarkdown (lit "# Hi") = Some segs /\
    Forall (fun seg =>
              utf16CodeUnitCount (text seg) = len (text seg) /\
              forall idx, paraEndIdx idx seg
                          = wrap64 (idx + utf16CodeUnitCount (text seg)))
           segs.
Proof.
  assert (H : allAscii (lit "# Hi")).
  { repeat (constructor; [vm_compute; reflexivity|]). constructor. }
  split; [exact H|]. split; [vm_compute; reflexivity|].
  apply (ascii_paragraph_ranges_are_utf16 (lit "# Hi") H). vm_compute. reflexivity.
Defined.

(** ** Lines without markdown constructs *)

Lemma HasPrefix_without s p0 p : ~ In p0 s -> HasPrefix s (p0 :: p) = false.
Proof.
  intros H. destruct (HasPrefix s (p0 :: p)) eqn:E; [|reflexivity].
  exfalso. apply H. apply HasPrefix_true in E as [t ->]. left. reflexivity.
Qed.

Lemma bytes_eqb_true a b : bytes_eqb a b = true -> a = b.
Proof. unfold bytes_eqb. destruct (list_eq_dec _ a b); [auto | discriminate]. Qed.

Lemma byteZ_inj a b : byteZ a = byteZ b -> a = b.
Proof.
  unfold byteZ. intros H. apply N2Z.inj in H.
  pose proof (Byte.of_to_N a) as Ha. pose proof (Byte.of_to_N b) as Hb.
  rewrite H in Ha. congruence.
Qed.

Lemma headingOf_plain line trimmed :
  ~ In x23 trimmed -> headingOf line trimmed = ("NORMAL_TEXT"%string, line).
Proof.
  intros H. unfold headingOf.
  change (lit "### ") with [x23; x23; x23; x20].
  change (lit "## ") with [x23; x23; x20].
  change (lit "# ") with [x23; x20].
  rewrite !HasPrefix_without by assumption. reflexivity.
Qed.

Lemma listItemOf_plain t :
  ~ In x2a t -> ~ In x2d t -> ~ In x2e t ->
  listItemOf "NORMAL_TEXT" t = (false, false, t).
Proof.
  intros Hs Hd Hp. unfold listItemOf.
  change (String.eqb "NORMAL_TEXT" "NORMAL_TEXT") with true. cbv iota.
  change (lit "- ") with [x2d; x20].
  change (lit "* ") with [x2a; x20].
  rewrite !HasPrefix_without by assumption. cbn [orb].
  assert (Hn : (3 <=? len t) && (0x30 <=? at_ t 0) && (at_ t 0 <=? 0x39)
               && (at_ t 1 =? 0x2E) && (at_ t 2 =? 0x20) = false).
  { destruct t as [|a [|b t']]; [reflexivity | reflexivity |].
    assert (Hb : (at_ (a :: b :: t') 1 =? 0x2E) = false).
    { apply Z.eqb_neq. intros E. apply Hp. right. left.
      symmetry. apply byteZ_inj. exact (eq_sym E). }
    rewrite Hb, andb_false_r. reflexivity. }
  rewrite Hn. reflexivity.
Qed.

Lemma parseInline_plain t : ~ In x2a t -> parseInline t = Some (t, []).
Proof.
  intros H. unfold parseInline. cbn [inlineLoop].
  rewrite inlineBody_break by (apply Index_star_none; exact H). reflexivity.
Qed.

Lemma parseLine_plain line :
  Forall plainByte line ->
  parseLine line =
  Some {| text := plainLineText line; style := "NORMAL_TEXT"; isBullet := false;
          isNumbered := false; ranges := [] |}.
Proof.
  intros Hpl. rewrite Forall_forall in Hpl.
  unfold parseLine, plainLineText.
  set (l := trimRightByte line x0d).
  assert (Hl : forall b, In b l -> plainByte b).
  { intros b Hb. apply Hpl. apply (proj2 (byteCut_trimRightByte line x0d)). exact Hb. }
  assert (Ht : forall b, In b (TrimSpace l) -> plainByte b).
  { intros b Hb. apply Hl. apply (proj2 (byteCut_TrimSpace l)). exact Hb. }
  cbv zeta.
  destruct (bytes_eqb (TrimSpace l) []) eqn:E1; [reflexivity|].
  destruct (bytes_eqb (TrimSpace l) (lit "---")) eqn:E2.
  { exfalso. apply bytes_eqb_true in E2.
    assert (Hin : In x2d (TrimSpace l)) by (rewrite E2; left; reflexivity).
    apply Ht in Hin. unfold plainByte in Hin. tauto. }
  rewrite headingOf_plain
    by (intros Hin; apply Ht in Hin; unfold plainByte in Hin; tauto).
  rewrite listItemOf_plain
    by (intros Hin; apply Hl in Hin; unfold plainByte in Hin; tauto).
  rewrite parseInline_plain
    by (intros Hin; apply Hl in Hin; unfold plainByte in Hin; tauto).
  reflexivity.
Qed.

Lemma parseLines_plain lines :
  Forall (Forall plainByte) lines ->
  exists segs,
    parseLines lines = Some segs /\
    map text segs = map plainLineText lines /\
    Forall (fun seg => forall i, segmentRequests i seg = []) segs.
Proof.
  induction 1 as [|line lines Hl _ (segs & Hp & Hm & Hs)]; cbn [parseLines].
  - exists []. repeat split. constructor.
  - rewrite (parseLine_plain _ Hl), Hp. eexists. split; [reflexivity|].
    cbn [map text]. split; [f_equal; exact Hm|].
    constructor; [|exact Hs]. intros i. reflexivity.
Qed.

Lemma styleLoop_no_requests segs : forall idx acc,
  Forall (fun seg => forall i, segmentRequests i seg = []) segs ->
  styleLoop segs idx acc = acc.
Proof.
  induction segs as [|seg segs IH]; intros idx acc H; cbn [styleLoop]; [reflexivity|].
  inversion H as [|? ? H1 H2]; subst. rewrite H1, app_nil_r. apply IH. exact H2.
Qed.

(** ** The calls of [writeMarkdownToDoc] *)

Lemma replay_length {W : Type} (api : DocsAPI W) docID bs : forall w,
  length (snd (replay api docID bs w)) = length bs.
Proof.
  induction bs as [|b bs IH]; intros w; cbn [replay]; [reflexivity|].
  destruct (Documents_BatchUpdate api docID b w) as [w' r].
  specialize (IH w'). destruct (replay api docID bs w') as [w'' rs].
  cbn [snd length] in *. lia.
Qed.

Section Calls.
Context {W : Type} (api : DocsAPI W).

Lemma writeMarkdownToDoc_calls docID markdown idx (s : St W) :
  exists segs s' r k outcomes,
    parseMarkdown markdown = Some segs /\
    writeMarkdownToDoc api docID markdown idx s = Some (s', r) /\
    let batches := [InsertText idx (fullText segs)]
                   :: chunks 50 (styleLoop segs idx []) in
    (1 <= k <= length batches)%nat /\
    trace s' = trace s ++ map (EvBatchUpdate docID) (firstn k batches) /\
    replay api docID (firstn k batches) (remote s) = (remote s', outcomes) /\
    match r with
    | inr _ => k = length batches /\ Forall (fun o => o = None) outcomes
    | inl err => exists e0 earlier,
        outcomes = earlier ++ [Some e0] /\
        Forall (fun o => o = None) earlier /\
        err = Wrapf (if Nat.eqb k 1 then "insert text" else "apply styles batch") e0
    end.
Proof.
  destruct (parseMarkdown_total markdown) as [segs Hp]. exists segs.
  unfold writeMarkdownToDoc. rewrite Hp.
  unfold bind, wrapErr, docsBatchUpdate.
  destruct (Documents_BatchUpdate api docID [InsertText idx (fullText segs)] (remote s))
    as [w o] eqn:Hins.
  destruct o as [e|].
  - eexists. eexists. exists 1%nat, [Some e].
    split; [reflexivity|]. split; [reflexivity|]. cbv zeta.
    split; [cbn [length]; lia|].
    cbn [firstn map trace remote replay]. rewrite Hins.
    split; [reflexivity|]. split; [reflexivity|].
    exists e, []. split; [reflexivity|]. split; [constructor | reflexivity].
  - destruct (applyStyleBatches_run api docID (styleLoop segs idx [])
                {| remote := w;
                   trace := trace s ++
                     [EvBatchUpdate docID [InsertText idx (fullText segs)]] |})
      as (k & s' & r & outcomes & Hrun & Hk & Htr & Hrep & Hres).
    exists s', r, (S k), (None :: outcomes).
    split; [reflexivity|]. split; [exact Hrun|]. cbv zeta.
    split; [cbn [length]; lia|].
    cbn [firstn map replay trace remote] in *. rewrite Hins, Hrep.
    split; [rewrite Htr, <- app_assoc; reflexivity|].
    split; [reflexivity|].
    destruct r as [err|u].
    + destruct Hres as (e0 & earlier & -> & -> & Hearlier).
      exists e0, (None :: earlier). split; [reflexivity|].
      split; [constructor; auto|].
      destruct k as [|k]; [|reflexivity].
      exfalso. cbn [firstn replay] in Hrep. injection Hrep as _ Hnil.
      destruct earlier; discriminate.
    + destruct Hres as [-> Hall]. split; [reflexivity|]. constructor; auto.
Qed.

Lemma segmentRequests_style idx seg : Forall isStyleRequest (segmentRequests idx seg).
Proof.
  unfold segmentRequests.
  apply Forall_app; split; [|apply Forall_app; split].
  - destruct (negb (String.eqb (style seg) "") &&
              negb (String.eqb (style seg) "NORMAL_TEXT"));
      [constructor; [exact I | constructor] | constructor].
  - destruct (isBullet seg); [constructor; [exact I | constructor]|].
    destruct (isNumbered seg); [constructor; [exact I | constructor] | constructor].
  - apply Forall_map. apply Forall_forall. intros r _. exact I.
Qed.

Lemma styleLoop_style segs : forall idx acc,
  Forall isStyleRequest acc -> Forall isStyleRequest (styleLoop segs idx acc).
Proof.
  induction segs as [|seg segs IH]; intros idx acc H; cbn [styleLoop]; [exact H|].
  apply IH. apply Forall_app. split; [exact H | apply segmentRequests_style].
Qed.

Lemma isStyleRequest_keepsContent rq : isStyleRequest rq -> keepsContent rq.
Proof. destruct rq; cbn; auto. Qed.

Lemma writeMarkdownToDoc_shape docID markdown idx (s : St W) :
  exists s' r evs,
    writeMarkdownToDoc api docID markdown idx s = Some (s', r) /\
    trace s' = trace s ++ evs /\
    Forall (eventOn docID keepsContent) evs.
Proof.
  destruct (writeMarkdownToDoc_calls docID markdown idx s)
    as (segs & s' & r & k & outcomes & Hp & Hrun & _ & Htr & _).
  exists s', r. eexists. split; [exact Hrun|]. split; [exact Htr|].
  apply Forall_map. apply Forall_firstn. constructor.
  - cbn [eventOn]. split; [reflexivity|]. repeat constructor.
  - assert (Hs : Forall isStyleRequest (styleLoop segs idx []))
      by (apply styleLoop_style; constructor).
    destruct (chunks_spec 50 (styleLoop segs idx []) ltac:(lia)) as [Hc _].
    rewrite <- Hc in Hs. apply Forall_concat in Hs.
    eapply Forall_impl; [|exact Hs]. cbv beta. intros b Hb.
    cbn [eventOn]. split; [reflexivity|].
    eapply Forall_impl; [|exact Hb]. apply isStyleRequest_keepsContent.
Qed.

Lemma clearDocsContent_shape docID (s : St W) :
  exists s' r mid,
    clearDocsContent api docID s = Some (s', r) /\
    trace s' = trace s ++ EvGet docID :: mid /\
    (mid = [] \/
     exists e, mid = [EvBatchUpdate docID
                        [DeleteContentRange {| StartIndex := 1; EndIndex := e |}]]).
Proof.
  unfold clearDocsContent, bind, docsGet.
  destruct (Documents_Get api docID (remote s)) as [w [e|doc]].
  - eexists. eexists. exists []. split; [reflexivity|]. split; [reflexivity|].
    left; reflexivity.
  - assert (Hnone : forall r1 : error + unit,
               exists s' r mid,
                 Some ({| remote := w; trace := trace s ++ [EvGet docID] |}, r1)
                 = Some (s', r) /\
                 trace s' = trace s ++ EvGet docID :: mid /\
                 (mid = [] \/
                  exists e, mid = [EvBatchUpdate docID
                                     [DeleteContentRange
                                        {| StartIndex := 1; EndIndex := e |}]])).
    { intros r1. eexists. eexists. exists [].
      split; [reflexivity|]. split; [reflexivity|]. left; reflexivity. }
    destruct (DocBody doc) as [body|]; [|apply Hnone].
    destruct (len (Content body) =? 0); [apply Hnone|].
    destruct (_ <=? 2); [apply Hnone|].
    unfold docsBatchUpdate. cbn [remote trace].
    destruct (Documents_BatchUpdate api docID _ w) as [w' o].
    eexists. eexists. eexists. split; [reflexivity|].
    cbn [trace]. split; [rewrite <- app_assoc; reflexivity|].
    right; eexists; reflexivity.
Qed.

Lemma clearDocsContent_get_fails docID (s : St W) w1 e :
  Documents_Get api docID (remote s) = (w1, inl e) ->
  clearDocsContent api docID s
  = Some ({| remote := w1; trace := trace s ++ [EvGet docID] |}, inl e).
Proof.
  intros Hget. unfold clearDocsContent, bind, docsGet. rewrite Hget. reflexivity.
Qed.

Lemma report_shape (env : Env) format id (s : St W) :
  exists s' r rest,
    report env format id s = Some (s', r) /\
    trace s' = trace s ++ rest /\ remote s' = remote s /\
    (rest = [EvWriteJSON id] \/ rest = [EvPrintf format id]).
Proof.
  unfold report. destruct (IsJSON env).
  - unfold bind, emit, check. eexists. eexists. eexists.
    split; [reflexivity|]. split; [reflexivity|]. split; [reflexivity|]. auto.
  - unfold emit. eexists. eexists. eexists.
    split; [reflexivity|]. split; [reflexivity|]. split; [reflexivity|]. auto.
Qed.
End Calls.

Lemma bytes_eqb_false a b : a <> b -> bytes_eqb a b = false.
Proof. unfold bytes_eqb. destruct (list_eq_dec _ a b); [contradiction | reflexivity]. Qed.

Lemma bytes_eqb_nil_true a : bytes_eqb a [] = true -> a = [].
Proof. apply bytes_eqb_true. Qed.

(** X13.  Markdown without star, hash, dash and full stop is inserted as it
    is: every line gives its text without trailing carriage returns
    (nothing for a blank line) and a newline, no style request is built,
    and [writeMarkdownToDoc] makes one call only, the insertion. *)
Theorem plain_markdown_is_inserted_without_styles
    {W : Type} (api : DocsAPI W) (docID markdown : gostring) (idx : Z) (s : St W) :
  Forall plainByte markdown ->
  exists segs s' r,
    parseMarkdown markdown = Some segs /\
    fullText segs = concat (map plainLineText (Split markdown newline)) /\
    styleLoop segs idx [] = [] /\
    writeMarkdownToDoc api docID markdown idx s = Some (s', r) /\
    trace s' = trace s ++ [EvBatchUpdate docID [InsertText idx (fullText segs)]].
Proof.
  intros Hpl.
  assert (Hlines : Forall (Forall plainByte) (Split markdown newline)).
  { destruct (Split_byte (length markdown) x0a markdown (le_n _)) as (_ & F & _).
    eapply Forall_impl; [|exact F]. cbv beta. intros l [[_ Hi] _].
    rewrite Forall_forall in *. intros b Hb. apply Hpl, Hi, Hb. }
  destruct (parseLines_plain _ Hlines) as (segs & Hp & Hm & Hs).
  fold (parseMarkdown markdown) in Hp.
  pose proof (styleLoop_no_requests segs idx [] Hs) as Hstyle.
  destruct (writeMarkdownToDoc_calls api docID markdown idx s)
    as (segs' & s' & r & k & outcomes & Hp' & Hrun & Hk & Htr & _).
  rewrite Hp in Hp'. injection Hp' as <-.
  exists segs, s', r. split; [exact Hp|].
  split; [rewrite fullText_concat, Hm; reflexivity|].
  split; [exact Hstyle|]. split; [exact Hrun|].
  rewrite Hstyle, chunks_nil in Hk, Htr. cbn [length] in Hk.
  assert (k = 1%nat) as -> by lia. exact Htr.
Qed.

Lemma plain_markdown_is_inserted_without_styles_witness :
  Forall plainByte (lit "hello" ++ newline ++ lit "world") /\
  exists segs s' r,
    parseMarkdown (lit "hello" ++ newline ++ lit "world") = Some segs /\
    fullText segs
    = concat (map plainLineText (Split (lit "hello" ++ newline ++ lit "world") newline)) /\
    styleLoop segs 1 [] = [] /\
    writeMarkdownToDoc (scriptedAPI (docWithEnds []) 7) (lit "doc")
      (lit "hello" ++ newline ++ lit "world") 1 st0 = Some (s', r) /\
    trace s' = trace st0 ++ [EvBatchUpdate (lit "doc") [InsertText 1 (fullText segs)]].
Proof.
  assert (H : Forall plainByte (lit "hello" ++ newline ++ lit "world")).
  { repeat (constructor; [unfold plainByte; repeat split; discriminate|]).
    constructor. }
  split; [exact H|].
  exact (plain_markdown_is_inserted_without_styles
           (scriptedAPI (docWithEnds []) 7) (lit "doc")
           (lit "hello" ++ newline ++ lit "world") 1 st0 H).
Defined.

(** X14.  [writeMarkdownToDoc] always returns.  Its calls are the insertion
    of the whole text and then the style batches, in order, up to the first
    call that fails.  On success every batch was sent and every call
    succeeded; on failure the failing call is the last one, the calls
    before it succeeded, and its error is wrapped with [insert text] when
    it was the insertion and with [apply styles batch] otherwise. *)
Theorem writeMarkdownToDoc_stops_at_first_failure
    {W : Type} (api : DocsAPI W) (docID markdown : gostring) (idx : Z) (s : St W) :
  exists segs s' r k outcomes,
    parseMarkdown markdown = Some segs /\
    writeMarkdownToDoc api docID markdown idx s = Some (s', r) /\
    let batches := [InsertText idx (fullText segs)]
                   :: chunks 50 (styleLoop segs idx []) in
    (1 <= k <= length batches)%nat /\
    trace s' = trace s ++ map (EvBatchUpdate docID) (firstn k batches) /\
    replay api docID (firstn k batches) (remote s) = (remote s', outcomes) /\
    match r with
    | inr _ => k = length batches /\ Forall (fun o => o = None) outcomes
    | inl err => exists e0 earlier,
        outcomes = earlier ++ [Some e0] /\
        Forall (fun o => o = None) earlier /\
        err = Wrapf (if Nat.eqb k 1 then "insert text" else "apply styles batch") e0
    end.
Proof. exact (writeMarkdownToDoc_calls api docID markdown idx s). Qed.

Section CommandShapes.
Context {W : Type} (api : DocsAPI W).

Lemma report_events (env : Env) format id (s : St W) :
  exists s' r rest,
    report env format id s = Some (s', r) /\
    trace s' = trace s ++ rest /\
    (rest = [EvWriteJSON id] \/ rest = [EvPrintf format id]) /\
    Forall (eventOn id keepsContent) rest.
Proof.
  destruct (report_shape env format id s) as (s' & r & rest & Hr & Ht & _ & Hrest).
  exists s', r, rest. split; [exact Hr|]. split; [exact Ht|]. split; [exact Hrest|].
  destruct Hrest as [-> | ->]; repeat constructor.
Qed.

Lemma bind_inr {A B : Type} (m : M W A) (k : A -> M W B) s s' a :
  m s = Some (s', inr a) -> bind m k s = k a s'.
Proof. intros H. unfold bind. rewrite H. reflexivity. Qed.

Lemma bind_inl {A B : Type} (m : M W A) (k : A -> M W B) s s' e :
  m s = Some (s', inl e) -> bind m k s = Some (s', inl e).
Proof. intros H. unfold bind. rewrite H. reflexivity. Qed.

Lemma wrapErr_inr {A : Type} prefix (m : M W A) s s' a :
  m s = Some (s', inr a) -> wrapErr prefix m s = Some (s', inr a).
Proof. intros H. unfold wrapErr. rewrite H. reflexivity. Qed.

Lemma wrapErr_inl {A : Type} prefix (m : M W A) s s' e :
  m s = Some (s', inl e) -> wrapErr prefix m s = Some (s', inl (Wrapf prefix e)).
Proof. intros H. unfold wrapErr. rewrite H. reflexivity. Qed.

(** The part of a write after the document was cleared. *)
Lemma write_tail env id input (s : St W) :
  exists s' r evs,
    bind (writeMarkdownToDoc api id input 1)
         (fun _ => report env "wrote document %s" id) s = Some (s', r) /\
    trace s' = trace s ++ evs /\
    Forall (eventOn id keepsContent) evs.
Proof.
  destruct (writeMarkdownToDoc_shape api id input 1 s) as (s2 & r2 & evs2 & Hw & Ht2 & F2).
  destruct r2 as [e2|u2].
  - rewrite (bind_inl _ _ _ _ _ Hw). exists s2, (inl e2), evs2. auto.
  - rewrite (bind_inr _ _ _ _ _ Hw).
    destruct (report_events env "wrote document %s" id s2) as (s3 & r3 & rest & Hr & Ht3 & _ & F3).
    exists s3, r3, (evs2 ++ rest). split; [exact Hr|].
    split; [rewrite Ht3, Ht2, <- app_assoc; reflexivity|].
    apply Forall_app. split; assumption.
Qed.

Lemma append_tail env id input idx (s : St W) :
  exists s' r evs,
    bind (writeMarkdownToDoc api id input idx)
         (fun _ => report env "appended to document %s" id) s = Some (s', r) /\
    trace s' = trace s ++ evs /\
    Forall (eventOn id keepsContent) evs.
Proof.
  destruct (writeMarkdownToDoc_shape api id input idx s) as (s2 & r2 & evs2 & Hw & Ht2 & F2).
  destruct r2 as [e2|u2].
  - rewrite (bind_inl _ _ _ _ _ Hw). exists s2, (inl e2), evs2. auto.
  - rewrite (bind_inr _ _ _ _ _ Hw).
    destruct (report_events env "appended to document %s" id s2)
      as (s3 & r3 & rest & Hr & Ht3 & _ & F3).
    exists s3, r3, (evs2 ++ rest). split; [exact Hr|].
    split; [rewrite Ht3, Ht2, <- app_assoc; reflexivity|].
    apply Forall_app. split; assumption.
Qed.
End CommandShapes.

(** X15.  A write always returns, and whatever the service answers it either
    makes no call, or starts with one [Get] of the trimmed id followed by
    at most one batch, which holds a single delete starting at index 1;
    nothing sent after that deletes content, and every later event names
    the trimmed id. *)
Theorem write_deletes_only_before_inserting
    {W : Type} (api : DocsAPI W) (env : Env) (DocID : gostring) (s : St W) :
  let id := TrimSpace DocID in
  exists s' r evs,
    DocsWriteCmd_Run api env DocID s = Some (s', r) /\
    trace s' = trace s ++ evs /\
    (evs = [] \/
     exists mid rest,
       evs = EvGet id :: mid ++ rest /\
       (mid = [] \/
        exists e, mid = [EvBatchUpdate id
                           [DeleteContentRange {| StartIndex := 1; EndIndex := e |}]]) /\
       Forall (eventOn id keepsContent) rest).
Proof.
  intros id. unfold DocsWriteCmd_Run. fold id.
  assert (Hstop : forall e : error,
             exists s' (r : error + unit) evs,
               Some (s, @inl error unit e) = Some (s', r) /\
               trace s' = trace s ++ evs /\
               (evs = [] \/
                exists mid rest,
                  evs = EvGet id :: mid ++ rest /\
                  (mid = [] \/
                   exists e, mid = [EvBatchUpdate id
                                      [DeleteContentRange
                                         {| StartIndex := 1; EndIndex := e |}]]) /\
                  Forall (eventOn id keepsContent) rest)).
  { intros e. exists s, (inl e), []. split; [reflexivity|].
    split; [rewrite app_nil_r; reflexivity | left; reflexivity]. }
  unfold bind at 1. unfold lift at 1.
  destruct (requireAccount env) as [e|account]; [apply Hstop|].
  cbv zeta.
  destruct (bytes_eqb id []); [apply Hstop|].
  unfold bind at 1. unfold check at 1.
  destruct (newDocsService env) as [e|]; [apply Hstop|].
  unfold bind at 1. unfold lift at 1.
  destruct (readInput env) as [e|input]; [apply Hstop|].
  destruct (clearDocsContent_shape api id s) as (s1 & r1 & mid & Hc & Ht1 & Hmid).
  destruct r1 as [e1|u1].
  - rewrite (bind_inl _ _ _ _ _ (wrapErr_inl "clear doc content" _ _ _ _ Hc)).
    eexists. eexists. exists (EvGet id :: mid). split; [reflexivity|].
    split; [exact Ht1|]. right. exists mid, [].
    split; [rewrite app_nil_r; reflexivity|]. split; [exact Hmid | constructor].
  - rewrite (bind_inr _ _ _ _ _ (wrapErr_inr "clear doc content" _ _ _ _ Hc)).
    destruct (write_tail api env id input s1) as (s2 & r2 & evs & Hw & Ht2 & F2).
    exists s2, r2, (EvGet id :: mid ++ evs). split; [exact Hw|].
    split.
    + rewrite Ht2, Ht1, <- app_assoc. reflexivity.
    + right. exists mid, evs. split; [reflexivity|]. split; assumption.
Qed.

(** X16.  An append always returns and never deletes: every call and report
    names the trimmed id, no request of any batch is a delete, and when a
    call is made the first one is the [Get]. *)
Theorem append_never_deletes
    {W : Type} (api : DocsAPI W) (env : Env) (DocID : gostring) (s : St W) :
  let id := TrimSpace DocID in
  exists s' r evs,
    DocsAppendCmd_Run api env DocID s = Some (s', r) /\
    trace s' = trace s ++ evs /\
    Forall (eventOn id keepsContent) evs /\
    (evs = [] \/ exists rest, evs = EvGet id :: rest).
Proof.
  intros id. unfold DocsAppendCmd_Run. fold id.
  assert (Hstop : forall e : error,
             exists s' (r : error + unit) evs,
               Some (s, @inl error unit e) = Some (s', r) /\
               trace s' = trace s ++ evs /\
               Forall (eventOn id keepsContent) evs /\
               (evs = [] \/ exists rest, evs = EvGet id :: rest)).
  { intros e. exists s, (inl e), []. split; [reflexivity|].
    split; [rewrite app_nil_r; reflexivity|]. split; [constructor | left; reflexivity]. }
  unfold bind at 1. unfold lift at 1.
  destruct (requireAccount env) as [e|account]; [apply Hstop|].
  cbv zeta.
  destruct (bytes_eqb id []); [apply Hstop|].
  unfold bind at 1. unfold check at 1.
  destruct (newDocsService env) as [e|]; [apply Hstop|].
  unfold bind at 1. unfold lift at 1.
  destruct (readInput env) as [e|input]; [apply Hstop|].
  unfold bind at 1. unfold docsGet.
  destruct (Documents_Get api id (remote s)) as [w [e|doc]].
  - eexists. eexists. exists [EvGet id]. split; [reflexivity|].
    split; [reflexivity|]. split; [repeat constructor|].
    right. exists []. reflexivity.
  - destruct (append_tail api env id input (appendEndIndex doc)
                {| remote := w; trace := trace s ++ [EvGet id] |})
      as (s2 & r2 & evs & Hw & Ht2 & F2).
    exists s2, r2, (EvGet id :: evs). split; [exact Hw|].
    split; [rewrite Ht2; cbn [trace]; rewrite <- app_assoc; reflexivity|].
    split; [constructor; [reflexivity | exact F2]|].
    right. exists evs. reflexivity.
Qed.

(** X17.  A clear always returns.  It makes no call, or one [Get] followed by
    at most one batch, which holds a single delete starting at index 1,
    and then at most one report: it never inserts or styles. *)
Theorem clear_sends_at_most_one_delete
    {W : Type} (api : DocsAPI W) (env : Env) (DocID : gostring) (s : St W) :
  let id := TrimSpace DocID in
  exists s' r evs,
    DocsClearCmd_Run api env DocID s = Some (s', r) /\
    trace s' = trace s ++ evs /\
    (evs = [] \/
     exists mid rest,
       evs = EvGet id :: mid ++ rest /\
       (mid = [] \/
        exists e, mid = [EvBatchUpdate id
                           [DeleteContentRange {| StartIndex := 1; EndIndex := e |}]]) /\
       (rest = [] \/ rest = [EvWriteJSON id] \/
        rest = [EvPrintf "cleared document %s" id])).
Proof.
  intros id. unfold DocsClearCmd_Run. fold id.
  assert (Hstop : forall e : error,
             exists s' (r : error + unit) evs,
               Some (s, @inl error unit e) = Some (s', r) /\
               trace s' = trace s ++ evs /\
               (evs = [] \/
                exists mid rest,
                  evs = EvGet id :: mid ++ rest /\
                  (mid = [] \/
                   exists e, mid = [EvBatchUpdate id
                                      [DeleteContentRange
                                         {| StartIndex := 1; EndIndex := e |}]]) /\
                  (rest = [] \/ rest = [EvWriteJSON id] \/
                   rest = [EvPrintf "cleared document %s" id]))).
  { intros e. exists s, (inl e), []. split; [reflexivity|].
    split; [rewrite app_nil_r; reflexivity | left; reflexivity]. }
  unfold bind at 1. unfold lift at 1.
  destruct (requireAccount env) as [e|account]; [apply Hstop|].
  cbv zeta.
  destruct (bytes_eqb id []); [apply Hstop|].
  unfold bind at 1. unfold check at 1.
  destruct (newDocsService env) as [e|]; [apply Hstop|].
  destruct (clearDocsContent_shape api id s) as (s1 & r1 & mid & Hc & Ht1 & Hmid).
  destruct r1 as [e1|u1].
  - rewrite (bind_inl _ _ _ _ _ Hc).
    eexists. eexists. exists (EvGet id :: mid). split; [reflexivity|].
    split; [exact Ht1|]. right. exists mid, [].
    split; [rewrite app_nil_r; reflexivity|]. split; [exact Hmid | left; reflexivity].
  - rewrite (bind_inr _ _ _ _ _ Hc).
    destruct (report_events env "cleared document %s" id s1)
      as (s2 & r2 & rest & Hr & Ht2 & Hrest & _).
    exists s2, r2, (EvGet id :: mid ++ rest). split; [exact Hr|].
    split.
    + rewrite Ht2, Ht1, <- app_assoc. reflexivity.
    + right. exists mid, rest. split; [reflexivity|]. split; [exact Hmid|].
      right. exact Hrest.
Qed.

(** X18.  When the account is missing, the doc id is blank or the service
    cannot be built, write, append and clear stop with the same error and
    leave the state as it was: no call, no output.  With an account, a
    blank id gives the usage error [empty docId]. *)
Theorem early_failure_makes_no_call
    {W : Type} (api : DocsAPI W) (env : Env) (DocID : gostring) (s : St W) :
  (exists e, requireAccount env = inl e) \/ TrimSpace DocID = [] \/
  (exists e, newDocsService env = Some e) ->
  exists err,
    DocsWriteCmd_Run api env DocID s = Some (s, inl err) /\
    DocsAppendCmd_Run api env DocID s = Some (s, inl err) /\
    DocsClearCmd_Run api env DocID s = Some (s, inl err) /\
    ((exists a, requireAccount env = inr a) -> TrimSpace DocID = [] ->
     err = UsageError "empty docId").
Proof.
  intros H. unfold DocsWriteCmd_Run, DocsAppendCmd_Run, DocsClearCmd_Run.
  unfold bind, lift, check, raise.
  destruct (requireAccount env) as [e|account].
  { exists e. repeat split. intros [a Ha]. discriminate. }
  destruct (bytes_eqb (TrimSpace DocID) []) eqn:E.
  { exists (UsageError "empty docId"). repeat split. }
  destruct H as [[e He] | [Hb | [e He]]].
  - discriminate.
  - rewrite Hb in E. discriminate.
  - rewrite He.
    exists e. repeat split. intros _ Hb. rewrite Hb in E. discriminate.
Qed.

Lemma early_failure_makes_no_call_witness :
  ((exists e, requireAccount (okEnv (lit "x")) = inl e) \/
   TrimSpace (lit "  ") = [] \/
   (exists e, newDocsService (okEnv (lit "x")) = Some e)) /\
  exists err,
    DocsWriteCmd_Run (scriptedAPI (docWithEnds []) 7) (okEnv (lit "x")) (lit "  ") st0
    = Some (st0, inl err) /\
    DocsAppendCmd_Run (scriptedAPI (docWithEnds []) 7) (okEnv (lit "x")) (lit "  ") st0
    = Some (st0, inl err) /\
    DocsClearCmd_Run (scriptedAPI (docWithEnds []) 7) (okEnv (lit "x")) (lit "  ") st0
    = Some (st0, inl err) /\
    ((exists a, requireAccount (okEnv (lit "x")) = inr a) -> TrimSpace (lit "  ") = [] ->
     err = UsageError "empty docId").
Proof.
  assert (H : (exists e, requireAccount (okEnv (lit "x")) = inl e) \/
              TrimSpace (lit "  ") = [] \/
              (exists e, newDocsService (okEnv (lit "x")) = Some e)).
  { right. left. vm_compute. reflexivity. }
  split; [exact H|].
  exact (early_failure_makes_no_call (scriptedAPI (docWithEnds []) 7)
           (okEnv (lit "x")) (lit "  ") st0 H).
Defined.

(** X19.  When [Get] fails none of the three commands sends an update: the
    trace holds the [Get] only.  Write returns the error wrapped with
    [clear doc content], clear returns it as it is, and append returns the
    not-found error for a 404 and the error itself otherwise. *)
Theorem get_failure_leaves_document_untouched
    {W : Type} (api : DocsAPI W) (env : Env) (DocID input account : gostring)
    (w1 : W) (e : error) (s : St W) :
  requireAccount env = inr account ->
  TrimSpace DocID <> [] ->
  newDocsService env = None ->
  readInput env = inr input ->
  Documents_Get api (TrimSpace DocID) (remote s) = (w1, inl e) ->
  let id := TrimSpace DocID in
  let s1 := {| remote := w1; trace := trace s ++ [EvGet id] |} in
  DocsWriteCmd_Run api env DocID s = Some (s1, inl (Wrapf "clear doc content" e)) /\
  DocsAppendCmd_Run api env DocID s
  = Some (s1, inl (if isDocsNotFound e then NotFoundError id else e)) /\
  DocsClearCmd_Run api env DocID s = Some (s1, inl e).
Proof.
  intros Ha Hid Hsvc Hin Hget id s1. subst id s1.
  pose proof (clearDocsContent_get_fails api (TrimSpace DocID) s w1 e Hget) as Hc.
  pose proof (bytes_eqb_false (TrimSpace DocID) [] Hid) as Hne.
  split; [|split].
  - unfold DocsWriteCmd_Run. rewrite Ha, Hsvc, Hin.
    unfold bind at 1. unfold lift at 1. cbv zeta. rewrite Hne.
    unfold bind at 1. unfold check at 1.
    unfold bind at 1. unfold lift at 1.
    rewrite (bind_inl _ _ _ _ _ (wrapErr_inl "clear doc content" _ _ _ _ Hc)).
    reflexivity.
  - unfold DocsAppendCmd_Run. rewrite Ha, Hsvc, Hin.
    unfold bind at 1. unfold lift at 1. cbv zeta. rewrite Hne.
    unfold bind at 1. unfold check at 1.
    unfold bind at 1. unfold lift at 1.
    unfold bind at 1. unfold docsGet. rewrite Hget. reflexivity.
  - unfold DocsClearCmd_Run. rewrite Ha, Hsvc.
    unfold bind at 1. unfold lift at 1. cbv zeta. rewrite Hne.
    unfold bind at 1. unfold check at 1.
    rewrite (bind_inl _ _ _ _ _ Hc). reflexivity.
Qed.

Lemma get_failure_leaves_document_untouched_witness :
  requireAccount (okEnv (lit "x")) = inr (lit "me") /\
  TrimSpace (lit "doc") <> [] /\
  newDocsService (okEnv (lit "x")) = None /\
  readInput (okEnv (lit "x")) = inr (lit "x") /\
  Documents_Get (scriptedAPI (docWithEnds []) 0) (TrimSpace (lit "doc")) (remote st0)
  = (1, inl (ApiError 500)) /\
  let id := TrimSpace (lit "doc") in
  let s1 := {| remote := 1; trace := trace st0 ++ [EvGet id] |} in
  DocsWriteCmd_Run (scriptedAPI (docWithEnds []) 0) (okEnv (lit "x")) (lit "doc") st0
  = Some (s1, inl (Wrapf "clear doc content" (ApiError 500))) /\
  DocsAppendCmd_Run (scriptedAPI (docWithEnds []) 0) (okEnv (lit "x")) (lit "doc") st0
  = Some (s1, inl (if isDocsNotFound (ApiError 500)
                   then NotFoundError id else ApiError 500)) /\
  DocsClearCmd_Run (scriptedAPI (docWithEnds []) 0) (okEnv (lit "x")) (lit "doc") st0
  = Some (s1, inl (ApiError 500)).
Proof.
  assert (H2 : TrimSpace (lit "doc") <> []) by (vm_compute; discriminate).
  split; [reflexivity|]. split; [exact H2|]. split; [reflexivity|].
  split; [reflexivity|]. split; [reflexivity|].
  exact (get_failure_leaves_document_untouched
           (scriptedAPI (docWithEnds []) 0) (okEnv (lit "x")) (lit "doc")
           (lit "x") (lit "me") 1 (ApiError 500) st0
           eq_refl H2 eq_refl eq_refl eq_refl).
Defined.

(** ** The earlier revision *)

Lemma removeAll_star fuel : forall s,
  (length s <= fuel)%nat -> removeAll_loop fuel s star = withoutStars s.
Proof.
  induction fuel as [|fuel IH]; intros s Hf; cbn [removeAll_loop].
  - destruct s; [reflexivity | cbn in Hf; lia].
  - destruct (Z.ltb_spec (Index s star) 0) as [Hm|Hm].
    + symmetry. apply withoutStars_id. apply Index_star_none.
      pose proof (Index_ge s star). lia.
    + assert (Hi : Index s star <> -1) by lia.
      destruct (Index_split s star Hi) as (_ & Es & Hl).
      pose proof (Index_star_before s Hi) as Hb.
      rewrite len_star in *.
      set (a := slice_to s (Index s star)) in *.
      set (b := slice_from s (Index s star + 1)) in *.
      rewrite IH by (unfold len in Hl; lia).
      rewrite Es at 1. rewrite !withoutStars_app, withoutStars_star.
      rewrite (withoutStars_id a Hb). reflexivity.
Qed.

Lemma removeAll_starstar fuel : forall s,
  (length s <= fuel)%nat ->
  withoutStars (removeAll_loop fuel s starstar) = withoutStars s.
Proof.
  induction fuel as [|fuel IH]; intros s Hf; cbn [removeAll_loop].
  - reflexivity.
  - destruct (Z.ltb_spec (Index s starstar) 0) as [Hm|Hm]; [reflexivity|].
    assert (Hi : Index s starstar <> -1) by lia.
    destruct (Index_split s starstar Hi) as (_ & Es & Hl).
    rewrite len_starstar in *.
    set (a := slice_to s (Index s starstar)) in *.
    set (b := slice_from s (Index s starstar + 2)) in *.
    rewrite withoutStars_app, IH by (unfold len in Hl; lia).
    rewrite Es at 1. rewrite !withoutStars_app, withoutStars_starstar. reflexivity.
Qed.

(** X20.  [processInlineFormatting] of the earlier revision returns its input
    without its star bytes, so its result holds none.  The text built by
    the bold/italic loop of the current revision keeps unmatched markers
    but has the same other bytes: stripping it gives the same text as
    stripping the input. *)
Theorem processInlineFormatting_strips_every_star (text : gostring) :
  processInlineFormatting text = withoutStars text /\
  ~ In x2a (processInlineFormatting text) /\
  exists clean rs,
    parseInline text = Some (clean, rs) /\
    processInlineFormatting clean = processInlineFormatting text.
Proof.
  assert (E : forall t, processInlineFormatting t = withoutStars t).
  { intros t. unfold processInlineFormatting, removeAll.
    rewrite removeAll_star by apply le_n.
    apply removeAll_starstar. apply le_n. }
  split; [apply E|]. split.
  - rewrite E. unfold withoutStars. intros Hin. apply filter_In in Hin as [_ Hin].
    discriminate.
  - destruct (parseInline_total text) as [[clean rs] Hp].
    exists clean, rs. split; [exact Hp|]. rewrite !E.
    pose proof (inlineLoop_bytes _ _ _ _ _ _ Hp) as (F & _). exact F.
Qed.

(** ** The cut made by the scan *)

Lemma delimiter_cons k : delimiter k = x2a :: (if k then [x2a] else []).
Proof. destruct k; reflexivity. Qed.

(** The first star of a text fixes what stands before and behind it. *)
Lemma first_star_split a : forall a' x x',
  a ++ x2a :: x = a' ++ x2a :: x' ->
  ~ In x2a a -> ~ In x2a a' -> a = a' /\ x = x'.
Proof.
  induction a as [|b a IH]; intros [|b' a'] x x' E Ha Ha'; cbn [app] in E.
  - injection E as ->. auto.
  - injection E as <- _. exfalso. apply Ha'. left. reflexivity.
  - injection E as -> _. exfalso. apply Ha. left. reflexivity.
  - injection E as -> E.
    destruct (IH a' x x' E) as [-> ->].
    + intros H. apply Ha. right. exact H.
    + intros H. apply Ha'. right. exact H.
    + auto.
Qed.

Lemma Index_starstar_found inner rest :
  Index (inner ++ starstar ++ rest) starstar <> -1.
Proof.
  intros H.
  assert (Hs : Index (inner ++ starstar ++ rest) starstar <> -1).
  { clear H. induction inner as [|b inner IH].
    - cbn. discriminate.
    - cbn [app Index]. destruct (HasPrefix _ starstar); [discriminate|].
      destruct (Index (inner ++ starstar ++ rest) starstar =? -1) eqn:E.
      + apply Z.eqb_eq in E. contradiction.
      + pose proof (Index_ge (inner ++ starstar ++ rest) starstar). lia. }
  contradiction.
Qed.

Lemma app_inv_len {A} (a : list A) : forall a' b b',
  a ++ b = a' ++ b' -> len a = len a' -> a = a' /\ b = b'.
Proof.
  induction a as [|x a IH]; intros [|x' a'] b b' E L; cbn [app] in E.
  - auto.
  - unfold len in L. cbn [length] in L. lia.
  - unfold len in L. cbn [length] in L. lia.
  - injection E as -> E. destruct (IH a' b b' E) as [-> ->]; [|auto].
    unfold len in *. cbn [length] in L. lia.
Qed.

Lemma pieceSource_behind p rest :
  pieceSource p ++ rest = beforeOf p ++ x2a :: behind p rest.
Proof.
  destruct p as [before [|] inner | before [|]]; cbn [pieceSource beforeOf behind delimiter];
    unfold starstar, star; rewrite <- ?app_assoc; cbn [app]; rewrite <- ?app_assoc;
    reflexivity.
Qed.

Lemma scanned_cons p ps tail :
  scanned (p :: ps) tail ->
  ~ In x2a (beforeOf p) /\ scanned ps tail.
Proof.
  cbn [scanned]. destruct p as [before [|] inner | before [|]]; cbn [beforeOf]; tauto.
Qed.

(** A text has one cut only. *)
Lemma scanned_unique ps : forall tail ps' tail',
  scanned ps tail -> scanned ps' tail' ->
  sourceOf ps tail = sourceOf ps' tail' ->
  ps = ps' /\ tail = tail'.
Proof.
  induction ps as [|p ps IH]; intros tail [|p' ps'] tail' S S' E.
  - cbn in E. auto.
  - exfalso. cbn [sourceOf scanned] in E, S. apply S. rewrite E.
    rewrite pieceSource_behind. apply in_or_app. right. left. reflexivity.
  - exfalso. cbn [sourceOf scanned] in E, S'. apply S'. rewrite <- E.
    rewrite pieceSource_behind. apply in_or_app. right. left. reflexivity.
  - cbn [sourceOf] in E. rewrite !pieceSource_behind in E.
    destruct (scanned_cons _ _ _ S) as [Hb Sr].
    destruct (scanned_cons _ _ _ S') as [Hb' Sr'].
    destruct (first_star_split _ _ _ _ E Hb Hb') as [Eb Ex].
    cbn [scanned] in S, S'.
    assert (Hrest : p = p' /\ sourceOf ps tail = sourceOf ps' tail').
    { destruct p as [before [|] inner | before [|]];
        destruct p' as [before' [|] inner' | before' [|]];
        cbn [beforeOf behind] in Eb, Ex; subst before';
        destruct S as [S _]; destruct S' as [S' _].
      - (* bold, bold *)
        assert (Ey : inner ++ starstar ++ sourceOf ps tail
                     = inner' ++ starstar ++ sourceOf ps' tail')
          by (injection Ex as Ex; exact Ex).
        destruct S as [_ I], S' as [_ I'].
        rewrite Ey in I.
        destruct (app_inv_len _ _ _ _ Ey ltac:(lia)) as [-> Er].
        apply app_inv_head in Er. auto.
      - (* bold, italic *)
        exfalso. destruct S' as (_ & _ & P). rewrite <- Ex in P. cbn in P. discriminate.
      - (* bold closed, bold unclosed *)
        exfalso. destruct S' as [_ I'].
        assert (Ey : inner ++ starstar ++ sourceOf ps tail = sourceOf ps' tail')
          by (injection Ex as Ex; exact Ex).
        rewrite <- Ey in I'. exact (Index_starstar_found _ _ I').
      - (* bold, lone star *)
        exfalso. destruct S' as [_ N]. apply N. rewrite <- Ex. left. reflexivity.
      - (* italic, bold *)
        exfalso. destruct S as (_ & _ & P). rewrite Ex in P. cbn in P. discriminate.
      - (* italic, italic *)
        destruct S as (_ & Ni & _), S' as (_ & Ni' & _).
        unfold star in Ex. cbn [app] in Ex.
        destruct (first_star_split _ _ _ _ Ex Ni Ni') as [-> Er]. auto.
      - (* italic, bold unclosed *)
        exfalso. destruct S as (_ & _ & P). rewrite Ex in P. cbn in P. discriminate.
      - (* italic closed, lone star *)
        exfalso. destruct S' as [_ N]. apply N. rewrite <- Ex.
        apply in_or_app. right. left. reflexivity.
      - (* bold unclosed, bold closed *)
        exfalso. destruct S as [_ I].
        assert (Ey : sourceOf ps tail = inner' ++ starstar ++ sourceOf ps' tail')
          by (injection Ex as Ex; exact Ex).
        rewrite Ey in I. exact (Index_starstar_found _ _ I).
      - exfalso. destruct S' as (_ & _ & P). rewrite <- Ex in P. cbn in P. discriminate.
      - injection Ex as Ex. auto.
      - exfalso. destruct S' as [_ N]. apply N. rewrite <- Ex. left. reflexivity.
      - (* lone star, bold *)
        exfalso. destruct S as [_ N]. apply N. rewrite Ex. left. reflexivity.
      - exfalso. destruct S as [_ N]. apply N. rewrite Ex.
        apply in_or_app. right. left. reflexivity.
      - exfalso. destruct S as [_ N]. apply N. rewrite Ex. left. reflexivity.
      - auto. }
    destruct Hrest as [-> Er].
    destruct (IH _ _ _ Sr Sr' Er) as [-> ->]. auto.
Qed.

Lemma strippedOf_app ps1 : forall ps2 tail,
  strippedOf (ps1 ++ ps2) tail = strippedOf ps1 (strippedOf ps2 tail).
Proof.
  induction ps1 as [|p ps1 IH]; intros ps2 tail; cbn [app strippedOf]; [reflexivity|].
  rewrite IH. reflexivity.
Qed.

Lemma strippedOf_tail ps : forall x y,
  strippedOf ps (x ++ y) = strippedOf ps x ++ y.
Proof.
  induction ps as [|p ps IH]; intros x y; cbn [strippedOf]; [reflexivity|].
  rewrite IH, app_assoc. reflexivity.
Qed.

Lemma utf16Ranges_app ps1 : forall pre ps2,
  utf16Ranges pre (ps1 ++ ps2)
  = utf16Ranges pre ps1 ++ utf16Ranges (pre ++ strippedOf ps1 []) ps2.
Proof.
  induction ps1 as [|p ps1 IH]; intros pre ps2; cbn [app utf16Ranges strippedOf].
  - rewrite app_nil_r. reflexivity.
  - destruct p as [before k inner | before k]; cbn [pieceText].
    + rewrite IH. cbn [app]. rewrite <- !app_assoc. reflexivity.
    + rewrite IH. rewrite <- !app_assoc. reflexivity.
Qed.

(** The run of the loop from a state whose offset is the UTF-16 length of
    the text built so far: the remaining text is cut as [scanned] says,
    the text built is the plain text of the pieces, and the ranges are
    UTF-16 offsets into it. *)
Lemma inlineLoop_cut fuel temp c o rs res :
  inlineLoop fuel temp c o rs = Some res ->
  ValidString temp = true -> ValidString c = true ->
  o = units c -> len c + len temp < 2 ^ 63 ->
  exists ps tail,
    scanned ps tail /\ temp = sourceOf ps tail /\
    res = (c ++ strippedOf ps tail, rs ++ utf16Ranges c ps).
Proof.
  revert fuel temp c o rs res.
  apply (inlineLoop_elim (fun temp c o rs res =>
    ValidString temp = true -> ValidString c = true ->
    o = units c -> len c + len temp < 2 ^ 63 ->
    exists ps tail,
      scanned ps tail /\ temp = sourceOf ps tail /\
      res = (c ++ strippedOf ps tail, rs ++ utf16Ranges c ps))).
  - (* no marker left *)
    intros temp c o rs Hn _ _ _ _. exists [], temp.
    cbn [scanned sourceOf strippedOf utf16Ranges]. rewrite app_nil_r. auto.
  - (* a closed bold span *)
    intros before inner rest c o rs res Hb Hidx o' IH Hvt Hvc Ho Hlen.
    rewrite ValidString_split_starstar, ValidString_split_starstar in Hvt.
    apply andb_true_iff in Hvt as [Hvb Hvt]. apply andb_true_iff in Hvt as [Hvi Hvr].
    pose proof (units_bounds c). pose proof (units_bounds before).
    pose proof (units_bounds inner).
    pose proof (len_nonneg rest). pose proof (len_nonneg c).
    pose proof (len_nonneg before). pose proof (len_nonneg inner).
    len_norm.
    assert (Evcb : ValidString (c ++ before) = true) by now apply ValidString_app_both.
    assert (Eo' : o' = units c + units before).
    { unfold o'. rewrite utf16_units by lia. rewrite wrap64_small by lia. lia. }
    assert (Eo'' : wrap64 (o' + utf16CodeUnitCount inner)
                   = units c + units before + units inner).
    { rewrite utf16_units by lia. rewrite wrap64_small by lia. lia. }
    destruct IH as (ps & tail & S & Er & Eres).
    + exact Hvr.
    + now apply ValidString_app_both.
    + rewrite Eo'', !units_app_valid by assumption. reflexivity.
    + len_norm. lia.
    + exists (Closed before true inner :: ps), tail. split; [|split].
      * cbn [scanned]. rewrite <- Er. auto.
      * cbn [sourceOf pieceSource delimiter]. rewrite <- Er, <- !app_assoc. reflexivity.
      * rewrite Eres. cbn [strippedOf pieceText utf16Ranges]. f_equal.
        -- rewrite <- !app_assoc. reflexivity.
        -- rewrite <- !app_assoc. cbn [app]. f_equal. f_equal.
           unfold spanRange. cbn [negb]. f_equal.
           ++ rewrite utf16_units by (len_norm; lia).
              rewrite units_app_valid by assumption. exact Eo'.
           ++ rewrite Eo''. rewrite utf16_units by (len_norm; lia).
              rewrite app_assoc, !units_app_valid by assumption. reflexivity.
  - (* a [**] that is never closed *)
    intros before rest c o rs res Hb Hidx o' IH Hvt Hvc Ho Hlen.
    rewrite ValidString_split_starstar in Hvt.
    apply andb_true_iff in Hvt as [Hvb Hvr].
    pose proof (units_bounds c). pose proof (units_bounds before).
    pose proof (len_nonneg rest). pose proof (len_nonneg c).
    pose proof (len_nonneg before).
    len_norm.
    assert (Evcb : ValidString (c ++ before) = true) by now apply ValidString_app_both.
    assert (Eo' : o' = units c + units before).
    { unfold o'. rewrite utf16_units by lia. rewrite wrap64_small by lia. lia. }
    assert (Eo'' : wrap64 (o' + 2) = units c + units before + 2).
    { rewrite wrap64_small by lia. lia. }
    destruct IH as (ps & tail & S & Er & Eres).
    + exact Hvr.
    + apply ValidString_app_both; [assumption | apply ValidString_starstar].
    + rewrite Eo'', !units_app_valid by assumption. rewrite units_starstar. reflexivity.
    + len_norm. lia.
    + exists (Unclosed before true :: ps), tail. split; [|split].
      * cbn [scanned]. rewrite <- Er. auto.
      * cbn [sourceOf pieceSource delimiter]. rewrite <- Er, <- !app_assoc. reflexivity.
      * rewrite Eres. cbn [strippedOf pieceText utf16Ranges delimiter]. f_equal.
        -- rewrite <- !app_assoc. reflexivity.
        -- rewrite <- !app_assoc. reflexivity.
  - (* a closed italic span *)
    intros before inner rest c o rs res Hb Hin Hpre o' IH Hvt Hvc Ho Hlen.
    rewrite ValidString_split_star, ValidString_split_star in Hvt.
    apply andb_true_iff in Hvt as [Hvb Hvt]. apply andb_true_iff in Hvt as [Hvi Hvr].
    pose proof (units_bounds c). pose proof (units_bounds before).
    pose proof (units_bounds inner).
    pose proof (len_nonneg rest). pose proof (len_nonneg c).
    pose proof (len_nonneg before). pose proof (len_nonneg inner).
    len_norm.
    assert (Evcb : ValidString (c ++ before) = true) by now apply ValidString_app_both.
    assert (Eo' : o' = units c + units before).
    { unfold o'. rewrite utf16_units by lia. rewrite wrap64_small by lia. lia. }
    assert (Eo'' : wrap64 (o' + utf16CodeUnitCount inner)
                   = units c + units before + units inner).
    { rewrite utf16_units by lia. rewrite wrap64_small by lia. lia. }
    destruct IH as (ps & tail & S & Er & Eres).
    + exact Hvr.
    + now apply ValidString_app_both.
    + rewrite Eo'', !units_app_valid by assumption. reflexivity.
    + len_norm. lia.
    + exists (Closed before false inner :: ps), tail. split; [|split].
      * cbn [scanned]. rewrite <- Er. auto.
      * cbn [sourceOf pieceSource delimiter]. rewrite <- Er, <- !app_assoc. reflexivity.
      * rewrite Eres. cbn [strippedOf pieceText utf16Ranges]. f_equal.
        -- rewrite <- !app_assoc. reflexivity.
        -- rewrite <- !app_assoc. cbn [app]. f_equal. f_equal.
           unfold spanRange. cbn [negb]. f_equal.
           ++ rewrite utf16_units by (len_norm; lia).
              rewrite units_app_valid by assumption. exact Eo'.
           ++ rewrite Eo''. rewrite utf16_units by (len_norm; lia).
              rewrite app_assoc, !units_app_valid by assumption. reflexivity.
  - (* a [*] that is never closed *)
    intros before rest c o rs res Hb Hrest o' IH Hvt Hvc Ho Hlen.
    rewrite ValidString_split_star in Hvt.
    apply andb_true_iff in Hvt as [Hvb Hvr].
    pose proof (units_bounds c). pose proof (units_bounds before).
    pose proof (len_nonneg rest). pose proof (len_nonneg c).
    pose proof (len_nonneg before).
    len_norm.
    assert (Evcb : ValidString (c ++ before) = true) by now apply ValidString_app_both.
    assert (Eo' : o' = units c + units before).
    { unfold o'. rewrite utf16_units by lia. rewrite wrap64_small by lia. lia. }
    assert (Eo'' : wrap64 (o' + 1) = units c + units before + 1).
    { rewrite wrap64_small by lia. lia. }
    destruct IH as (ps & tail & S & Er & Eres).
    + exact Hvr.
    + apply ValidString_app_both; [assumption | apply ValidString_star].
    + rewrite Eo'', !units_app_valid by assumption. rewrite units_star. reflexivity.
    + len_norm. lia.
    + exists (Unclosed before false :: ps), tail. split; [|split].
      * cbn [scanned]. rewrite <- Er. auto.
      * cbn [sourceOf pieceSource delimiter]. rewrite <- Er, <- !app_assoc. reflexivity.
      * rewrite Eres. cbn [strippedOf pieceText utf16Ranges delimiter]. f_equal.
        -- rewrite <- !app_assoc. reflexivity.
        -- rewrite <- !app_assoc. reflexivity.
Qed.

(** C4 (amended).  For a line whose remaining text is valid UTF-8 and
    shorter than 2^63 bytes the span extractor returns, and its result is
    fixed by the one cut of the text that the scan makes: the plain text
    is the text of the pieces without the delimiters of the closed spans,
    and the ranges are those of the closed spans, each starting at the
    UTF-16 length of the plain text before its span and ending at the
    UTF-16 length of the plain text up to the end of its span.  So for
    every closed span of the cut, bold or italic, wherever it stands and
    whatever precedes it (an emoji counts as 2 units), the recorded range
    starts at the UTF-16 code-unit count of the plain text that precedes
    it and ends at that of the plain text up to its end. *)
Theorem C4_bold_offsets_are_utf16 (text : gostring) :
  ValidString text = true -> len text < 2 ^ 63 ->
  exists ps tail,
    scanned ps tail /\ text = sourceOf ps tail /\
    (forall ps' tail', scanned ps' tail' -> text = sourceOf ps' tail' ->
                       ps' = ps /\ tail' = tail) /\
    parseInline text = Some (strippedOf ps tail, utf16Ranges [] ps) /\
    forall ps1 before isBold inner ps2,
      ps = ps1 ++ Closed before isBold inner :: ps2 ->
      let preceding := strippedOf ps1 before in
      strippedOf ps tail = preceding ++ inner ++ strippedOf ps2 tail /\
      utf16Ranges [] ps =
        utf16Ranges [] ps1
        ++ {| start := utf16CodeUnitCount preceding;
              end_ := utf16CodeUnitCount (preceding ++ inner);
              bold := isBold; italic := negb isBold |}
        :: utf16Ranges (preceding ++ inner) ps2.
Proof.
  intros Hv Hl. destruct (parseInline_total text) as [res Hp].
  destruct (inlineLoop_cut _ _ _ _ _ _ Hp Hv eq_refl eq_refl)
    as (ps & tail & S & Et & Eres).
  { change (len (@nil byte)) with 0. lia. }
  cbn [app] in Eres. subst res.
  exists ps, tail. split; [exact S|]. split; [exact Et|].
  split.
  { intros ps' tail' S' Et'. rewrite Et in Et'.
    destruct (scanned_unique _ _ _ _ S S' Et') as [-> ->]. auto. }
  split; [exact Hp|].
  intros ps1 before isBold inner ps2 ->. cbv zeta.
  rewrite strippedOf_app, utf16Ranges_app. cbn [strippedOf pieceText utf16Ranges app].
  assert (E0 : strippedOf ps1 [] ++ before = strippedOf ps1 before)
    by (rewrite <- strippedOf_tail; reflexivity).
  split.
  - rewrite !strippedOf_tail, <- app_assoc. reflexivity.
  - rewrite (app_assoc (strippedOf ps1 []) before inner), E0. reflexivity.
Qed.

Lemma C4_witness :
  ValidString emojiBeforeSecondBold = true /\ len emojiBeforeSecondBold < 2 ^ 63 /\
  (exists ps tail,
      scanned ps tail /\ emojiBeforeSecondBold = sourceOf ps tail /\
      (forall ps' tail', scanned ps' tail' -> emojiBeforeSecondBold = sourceOf ps' tail' ->
                         ps' = ps /\ tail' = tail) /\
      parseInline emojiBeforeSecondBold = Some (strippedOf ps tail, utf16Ranges [] ps) /\
      forall ps1 before isBold inner ps2,
        ps = ps1 ++ Closed before isBold inner :: ps2 ->
        let preceding := strippedOf ps1 before in
        strippedOf ps tail = preceding ++ inner ++ strippedOf ps2 tail /\
        utf16Ranges [] ps =
          utf16Ranges [] ps1
          ++ {| start := utf16CodeUnitCount preceding;
                end_ := utf16CodeUnitCount (preceding ++ inner);
                bold := isBold; italic := negb isBold |}
          :: utf16Ranges (preceding ++ inner) ps2) /\
  parseInline emojiBeforeSecondBold =
    Some (lit "a " ++ emoji ++ lit " b b",
          [{| start := 0; end_ := 1; bold := true; italic := false |};
           {| start := 5; end_ := 6; bold := true; italic := false |}]).
Proof.
  split; [vm_compute; reflexivity|].
  split; [vm_compute; reflexivity|].
  split; [|vm_compute; reflexivity].
  apply (C4_bold_offsets_are_utf16 emojiBeforeSecondBold); vm_compute; reflexivity.
Defined.

(** ** One iteration of the scan, with its sizes *)

Lemma Index_cut s sub :
  Index s sub <> -1 ->
  s = slice_to s (Index s sub) ++ sub ++ slice_from s (Index s sub + len sub) /\
  len (slice_to s (Index s sub)) = Index s sub /\
  len s = Index s sub + len sub + len (slice_from s (Index s sub + len sub)) /\
  0 <= Index s sub.
Proof.
  intros H. destruct (Index_split s sub H) as (H0 & Es & Hl).
  pose proof (len_nonneg sub). pose proof (len_nonneg (slice_from s (Index s sub + len sub))).
  split; [exact Es|]. split; [apply slice_to_len; lia|]. split; [exact Hl | exact H0].
Qed.

(** The run behind a step: it ends, keeps what was built, and records its
    ranges in order from the offset it starts with. *)
Lemma inlineLoop_rest fuel temp c o rs :
  (length temp < fuel)%nat -> 0 <= o <= len c -> len c + len temp < 2 ^ 63 ->
  exists post more,
    inlineLoop fuel temp c o rs = Some (c ++ post, rs ++ more) /\
    orderedFrom o more.
Proof.
  intros Hf Ho Hl.
  destruct (inlineLoop_total fuel temp c o rs Hf) as [[cl rg] Hres].
  destruct (inlineLoop_extends _ _ _ _ _ _ Hres) as [[post Ec] _].
  destruct (inlineLoop_ordered _ _ _ _ _ _ Hres Ho Hl) as (more & Er & Om & _).
  cbn [fst snd] in Ec, Er. subst cl rg.
  exists post, more. auto.
Qed.

(** C5.  At any iteration of the scan with both a [**] and a [*] ahead
    (the offset within the text built so far, the arithmetic below 2^63,
    fuel for the text that is left), the loop returns, and:
    if the next [**] is at or before the next [*], the [**] is taken as a
    bold delimiter: when it is closed, the next recorded range is the bold
    span that starts there, the text before it and its inner text are
    appended, and every later range starts at or after its end; when it
    is not closed, the two bytes are kept and every later range starts
    behind them; so no italic span starts at or before that [**].  An
    italic span is attempted only when the next [*] comes strictly before
    the next [**]: it is then closed, it is the next recorded range, and
    the later ranges start at or after its end. *)
Theorem C5_bold_resolved_before_italic
    (fuel : nat) (temp c : gostring) (o : Z) (rs : list formatRange) :
  (length temp <= fuel)%nat -> 0 <= o <= len c -> len c + len temp < 2 ^ 63 ->
  Index temp starstar <> -1 -> Index temp star <> -1 ->
  (Index temp starstar <= Index temp star ->
   let before := slice_to temp (Index temp starstar) in
   let rest := slice_from temp (Index temp starstar + 2) in
   let o' := o + utf16CodeUnitCount before in
   let inner := slice_to rest (Index rest starstar) in
   let span := {| start := o'; end_ := o' + utf16CodeUnitCount inner;
                  bold := true; italic := false |} in
   (Index rest starstar <> -1 ->
    exists post more,
      inlineLoop (S fuel) temp c o rs
      = Some (c ++ before ++ inner ++ post, rs ++ span :: more) /\
      orderedFrom (end_ span) more) /\
   (Index rest starstar = -1 ->
    exists post more,
      inlineLoop (S fuel) temp c o rs
      = Some (c ++ before ++ starstar ++ post, rs ++ more) /\
      orderedFrom (o' + 2) more)) /\
  (Index temp star < Index temp starstar ->
   let before := slice_to temp (Index temp star) in
   let rest := slice_from temp (Index temp star + 1) in
   let o' := o + utf16CodeUnitCount before in
   let inner := slice_to rest (Index rest star) in
   let span := {| start := o'; end_ := o' + utf16CodeUnitCount inner;
                  bold := false; italic := true |} in
   Index rest star <> -1 /\
   exists post more,
     inlineLoop (S fuel) temp c o rs
     = Some (c ++ before ++ inner ++ post, rs ++ span :: more) /\
     orderedFrom (end_ span) more).
Proof.
  intros Hf Ho Hl Hb Hi.
  pose proof (len_nonneg c) as Hc0.
  split.
  - intros Hle before rest o' inner span.
    destruct (Index_cut temp starstar Hb) as (Et & Lb & Lt & I0).
    rewrite len_starstar in Et, Lt. fold before in Et, Lb. fold rest in Et, Lt.
    pose proof (len_nonneg rest) as Hr0.
    pose proof (utf16_le_len before ltac:(lia)) as Ub.
    assert (Ew : wrap64 (o + utf16CodeUnitCount before) = o')
      by (unfold o'; apply wrap64_small; lia).
    assert (Hstep : inlineLoop (S fuel) temp c o rs =
                    match (if Index rest starstar =? -1
                           then Continue rest ((c ++ before) ++ starstar) (wrap64 (o' + 2)) rs
                           else Continue (slice_from rest (Index rest starstar + 2))
                                         ((c ++ before) ++ inner)
                                         (wrap64 (o' + utf16CodeUnitCount inner))
                                         (rs ++ [spanRange o' inner true])) with
                    | Break cl rg => Some (cl, rg)
                    | Continue t cl off rg => inlineLoop fuel t cl off rg
                    end).
    { cbn [inlineLoop]. rewrite inlineBody_bold by assumption. cbv zeta.
      fold before. fold rest. rewrite Ew. reflexivity. }
    split.
    + intros He. destruct (Z.eqb_spec (Index rest starstar) (-1)) as [E|_]; [contradiction|].
      destruct (Index_cut rest starstar He) as (Er & Li & Lr & J0).
      rewrite len_starstar in Er, Lr. fold inner in Er, Li.
      pose proof (len_nonneg (slice_from rest (Index rest starstar + 2))) as Hs0.
      pose proof (utf16_le_len inner ltac:(lia)) as Ui.
      assert (Ew2 : wrap64 (o' + utf16CodeUnitCount inner) = o' + utf16CodeUnitCount inner)
        by (apply wrap64_small; unfold o'; lia).
      destruct (inlineLoop_rest fuel (slice_from rest (Index rest starstar + 2))
                  ((c ++ before) ++ inner) (o' + utf16CodeUnitCount inner)
                  (rs ++ [spanRange o' inner true]))
        as (post & more & Hres & Om).
      { unfold len in Lt, Lr. lia. }
      { rewrite !len_app. unfold o'. lia. }
      { rewrite !len_app. lia. }
      exists post, more. split; [|exact Om].
      rewrite Hstep, Ew2, Hres. f_equal. f_equal.
      * rewrite <- !app_assoc. reflexivity.
      * rewrite <- app_assoc. cbn [app]. f_equal. f_equal.
        unfold spanRange, span. rewrite Ew2. reflexivity.
    + intros He. rewrite He in Hstep. change (-1 =? -1) with true in Hstep. cbv iota in Hstep.
      assert (Ew2 : wrap64 (o' + 2) = o' + 2) by (apply wrap64_small; unfold o'; lia).
      destruct (inlineLoop_rest fuel rest ((c ++ before) ++ starstar) (o' + 2) rs)
        as (post & more & Hres & Om).
      { unfold len in Lt. lia. }
      { rewrite !len_app, len_starstar. unfold o'. lia. }
      { rewrite !len_app, len_starstar. lia. }
      exists post, more. split; [|exact Om].
      rewrite Hstep, Ew2, Hres. f_equal. f_equal.
      rewrite <- !app_assoc. reflexivity.
  - intros Hlt before rest o' inner span.
    destruct (Index_cut temp star Hi) as (Et & Lb & Lt & I0).
    rewrite len_star in Et, Lt. fold before in Et, Lb. fold rest in Et, Lt.
    pose proof (len_nonneg rest) as Hr0.
    pose proof (utf16_le_len before ltac:(lia)) as Ub.
    assert (Ew : wrap64 (o + utf16CodeUnitCount before) = o')
      by (unfold o'; apply wrap64_small; lia).
    assert (He : Index rest star <> -1).
    { apply star_after_starstar; [assumption|]. lia. }
    split; [exact He|].
    assert (Hstep : inlineLoop (S fuel) temp c o rs =
                    inlineLoop fuel (slice_from rest (Index rest star + 1))
                               ((c ++ before) ++ inner)
                               (wrap64 (o' + utf16CodeUnitCount inner))
                               (rs ++ [spanRange o' inner false])).
    { cbn [inlineLoop]. rewrite inlineBody_italic by auto. cbv zeta.
      fold before. fold rest. rewrite Ew.
      destruct (Z.eqb_spec (Index rest star) (-1)) as [E|_]; [contradiction|].
      reflexivity. }
    destruct (Index_cut rest star He) as (Er & Li & Lr & J0).
    rewrite len_star in Er, Lr. fold inner in Er, Li.
    pose proof (len_nonneg (slice_from rest (Index rest star + 1))) as Hs0.
    pose proof (utf16_le_len inner ltac:(lia)) as Ui.
    assert (Ew2 : wrap64 (o' + utf16CodeUnitCount inner) = o' + utf16CodeUnitCount inner)
      by (apply wrap64_small; unfold o'; lia).
    destruct (inlineLoop_rest fuel (slice_from rest (Index rest star + 1))
                ((c ++ before) ++ inner) (o' + utf16CodeUnitCount inner)
                (rs ++ [spanRange o' inner false]))
      as (post & more & Hres & Om).
    { unfold len in Lt, Lr. lia. }
    { rewrite !len_app. unfold o'. lia. }
    { rewrite !len_app. lia. }
    exists post, more. split; [|exact Om].
    rewrite Hstep, Ew2, Hres. f_equal. f_equal.
    + rewrite <- !app_assoc. reflexivity.
    + rewrite <- app_assoc. cbn [app]. f_equal. f_equal.
      unfold spanRange, span. rewrite Ew2. reflexivity.
Qed.

Lemma C5_witness :
  (* the next double star at the next star, closed *)
  ((length boldThenItalic <= 11)%nat /\ 0 <= 0 <= len (@nil byte) /\
   len (@nil byte) + len boldThenItalic < 2 ^ 63 /\
   Index boldThenItalic starstar <> -1 /\ Index boldThenItalic star <> -1 /\
   Index boldThenItalic starstar <= Index boldThenItalic star /\
   exists post more,
     inlineLoop 12 boldThenItalic [] 0 []
     = Some ([] ++ lit "x " ++ lit "b" ++ post,
             [] ++ {| start := 2; end_ := 3; bold := true; italic := false |} :: more) /\
     orderedFrom 3 more) /\
  (* the next double star at the next star, never closed *)
  ((length boldNeverClosed <= 11)%nat /\
   Index boldNeverClosed starstar <> -1 /\ Index boldNeverClosed star <> -1 /\
   Index boldNeverClosed starstar <= Index boldNeverClosed star /\
   exists post more,
     inlineLoop 12 boldNeverClosed [] 0 []
     = Some ([] ++ lit "x " ++ starstar ++ post, [] ++ more) /\
     orderedFrom 4 more) /\
  (* the next star strictly before the next double star *)
  ((length italicThenBold <= 11)%nat /\
   Index italicThenBold starstar <> -1 /\ Index italicThenBold star <> -1 /\
   Index italicThenBold star < Index italicThenBold starstar /\
   exists post more,
     inlineLoop 12 italicThenBold [] 0 []
     = Some ([] ++ [] ++ lit "a" ++ post,
             [] ++ {| start := 0; end_ := 1; bold := false; italic := true |} :: more) /\
     orderedFrom 1 more).
Proof.
  assert (B : 0 <= 0 <= len (@nil byte)) by (vm_compute; split; discriminate).
  split; [|split].
  - assert (H0 : (length boldThenItalic <= 11)%nat) by (vm_compute; lia).
    assert (HL : len (@nil byte) + len boldThenItalic < 2 ^ 63) by (vm_compute; reflexivity).
    assert (H1 : Index boldThenItalic starstar <> -1) by (vm_compute; discriminate).
    assert (H2 : Index boldThenItalic star <> -1) by (vm_compute; discriminate).
    assert (H3 : Index boldThenItalic starstar <= Index boldThenItalic star)
      by (vm_compute; discriminate).
    split; [exact H0|]. split; [exact B|]. split; [exact HL|].
    split; [exact H1|]. split; [exact H2|]. split; [exact H3|].
    destruct (C5_bold_resolved_before_italic 11 boldThenItalic [] 0 [] H0 B HL H1 H2)
      as [Hbold _].
    destruct (Hbold H3) as [Hclosed _].
    exact (Hclosed ltac:(vm_compute; discriminate)).
  - assert (H0 : (length boldNeverClosed <= 11)%nat) by (vm_compute; lia).
    assert (HL : len (@nil byte) + len boldNeverClosed < 2 ^ 63) by (vm_compute; reflexivity).
    assert (H1 : Index boldNeverClosed starstar <> -1) by (vm_compute; discriminate).
    assert (H2 : Index boldNeverClosed star <> -1) by (vm_compute; discriminate).
    assert (H3 : Index boldNeverClosed starstar <= Index boldNeverClosed star)
      by (vm_compute; discriminate).
    split; [exact H0|]. split; [exact H1|]. split; [exact H2|]. split; [exact H3|].
    destruct (C5_bold_resolved_before_italic 11 boldNeverClosed [] 0 [] H0 B HL H1 H2)
      as [Hbold _].
    destruct (Hbold H3) as [_ Hopen].
    exact (Hopen ltac:(vm_compute; reflexivity)).
  - assert (H0 : (length italicThenBold <= 11)%nat) by (vm_compute; lia).
    assert (HL : len (@nil byte) + len italicThenBold < 2 ^ 63) by (vm_compute; reflexivity).
    assert (H1 : Index italicThenBold starstar <> -1) by (vm_compute; discriminate).
    assert (H2 : Index italicThenBold star <> -1) by (vm_compute; discriminate).
    assert (H3 : Index italicThenBold star < Index italicThenBold starstar)
      by (vm_compute; reflexivity).
    split; [exact H0|]. split; [exact H1|]. split; [exact H2|]. split; [exact H3|].
    destruct (C5_bold_resolved_before_italic 11 italicThenBold [] 0 [] H0 B HL H1 H2)
      as [_ Hital].
    destruct (Hital H3) as (_ & Hres).
    exact Hres.
Defined.

(** ** The ranges of a run move with the offset it starts from *)

Lemma shift_spanRange d o inner k :
  - 2 ^ 63 <= o + utf16CodeUnitCount inner < 2 ^ 63 ->
  - 2 ^ 63 <= d + o + utf16CodeUnitCount inner < 2 ^ 63 ->
  shift d (spanRange o inner k) = spanRange (d + o) inner k.
Proof.
  intros H1 H2. unfold shift, spanRange. cbn [start end_ bold italic].
  rewrite !wrap64_small by lia. f_equal. lia.
Qed.

Lemma inlineLoop_shifted fuel : forall temp c o rs res c0 o0 rs0 res0,
  inlineLoop fuel temp c o rs = Some res ->
  inlineLoop fuel temp c0 o0 rs0 = Some res0 ->
  0 <= o -> o + len temp < 2 ^ 63 ->
  0 <= o0 -> o0 + len temp < 2 ^ 63 ->
  exists x y0,
    fst res = c ++ x /\ fst res0 = c0 ++ x /\
    snd res0 = rs0 ++ y0 /\ snd res = rs ++ map (shift (o - o0)) y0.
Proof.
  induction fuel as [|fuel IH]; intros temp c o rs res c0 o0 rs0 res0; [discriminate|].
  cbn [inlineLoop]. intros R R0 Ho Hl Ho0 Hl0.
  destruct (inlineBody_trichotomy temp) as [Hn | [[Hb He] | [Hi Hb]]].
  - rewrite (inlineBody_break temp c o rs Hn) in R.
    rewrite (inlineBody_break temp c0 o0 rs0 Hn) in R0.
    injection R as <-. injection R0 as <-.
    exists temp, []. cbn [fst snd map]. rewrite !app_nil_r. auto.
  - assert (Hle : Index temp starstar <= Index temp star) by lia.
    rewrite (inlineBody_bold temp c o rs Hb Hle) in R.
    rewrite (inlineBody_bold temp c0 o0 rs0 Hb Hle) in R0.
    cbv zeta in R, R0.
    destruct (Index_cut temp starstar Hb) as (Et & Lb & Lt & I0).
    rewrite len_starstar in Et, Lt.
    set (before := slice_to temp (Index temp starstar)) in *.
    set (rest := slice_from temp (Index temp starstar + 2)) in *.
    pose proof (len_nonneg rest) as Hr0.
    pose proof (utf16_le_len before ltac:(lia)) as Ub.
    rewrite (wrap64_small (o + utf16CodeUnitCount before)) in R by lia.
    rewrite (wrap64_small (o0 + utf16CodeUnitCount before)) in R0 by lia.
    destruct (Z.eqb_spec (Index rest starstar) (-1)) as [E|E].
    + rewrite (wrap64_small (o + utf16CodeUnitCount before + 2)) in R by lia.
      rewrite (wrap64_small (o0 + utf16CodeUnitCount before + 2)) in R0 by lia.
      destruct (IH _ _ _ _ _ _ _ _ _ R R0) as (x & y0 & E1 & E2 & E3 & E4); try lia.
      exists (before ++ starstar ++ x), y0.
      rewrite E1, E2, E3, E4, <- !app_assoc.
      replace (o + utf16CodeUnitCount before + 2 - (o0 + utf16CodeUnitCount before + 2))
        with (o - o0) by lia.
      auto.
    + destruct (Index_cut rest starstar E) as (Er & Li & Lr & J0).
      rewrite len_starstar in Er, Lr.
      set (inner := slice_to rest (Index rest starstar)) in *.
      set (rest2 := slice_from rest (Index rest starstar + 2)) in *.
      pose proof (len_nonneg rest2) as Hr2.
      pose proof (utf16_le_len inner ltac:(lia)) as Ui.
      rewrite (wrap64_small (o + utf16CodeUnitCount before + utf16CodeUnitCount inner))
        in R by lia.
      rewrite (wrap64_small (o0 + utf16CodeUnitCount before + utf16CodeUnitCount inner))
        in R0 by lia.
      destruct (IH _ _ _ _ _ _ _ _ _ R R0) as (x & y0 & E1 & E2 & E3 & E4); try lia.
      exists (before ++ inner ++ x),
             (spanRange (o0 + utf16CodeUnitCount before) inner true :: y0).
      rewrite E1, E2, E3, E4, <- !app_assoc. cbn [app map].
      rewrite shift_spanRange by lia.
      replace (o + utf16CodeUnitCount before + utf16CodeUnitCount inner
               - (o0 + utf16CodeUnitCount before + utf16CodeUnitCount inner))
        with (o - o0) by lia.
      replace (o - o0 + (o0 + utf16CodeUnitCount before))
        with (o + utf16CodeUnitCount before) by lia.
      auto.
  - rewrite (inlineBody_italic temp c o rs Hi Hb) in R.
    rewrite (inlineBody_italic temp c0 o0 rs0 Hi Hb) in R0.
    cbv zeta in R, R0.
    destruct (Index_cut temp star Hi) as (Et & Lb & Lt & I0).
    rewrite len_star in Et, Lt.
    set (before := slice_to temp (Index temp star)) in *.
    set (rest := slice_from temp (Index temp star + 1)) in *.
    pose proof (len_nonneg rest) as Hr0.
    pose proof (utf16_le_len before ltac:(lia)) as Ub.
    rewrite (wrap64_small (o + utf16CodeUnitCount before)) in R by lia.
    rewrite (wrap64_small (o0 + utf16CodeUnitCount before)) in R0 by lia.
    destruct (Z.eqb_spec (Index rest star) (-1)) as [E|E].
    + rewrite (wrap64_small (o + utf16CodeUnitCount before + 1)) in R by lia.
      rewrite (wrap64_small (o0 + utf16CodeUnitCount before + 1)) in R0 by lia.
      destruct (IH _ _ _ _ _ _ _ _ _ R R0) as (x & y0 & E1 & E2 & E3 & E4); try lia.
      exists (before ++ star ++ x), y0.
      rewrite E1, E2, E3, E4, <- !app_assoc.
      replace (o + utf16CodeUnitCount before + 1 - (o0 + utf16CodeUnitCount before + 1))
        with (o - o0) by lia.
      auto.
    + destruct (Index_cut rest star E) as (Er & Li & Lr & J0).
      rewrite len_star in Er, Lr.
      set (inner := slice_to rest (Index rest star)) in *.
      set (rest2 := slice_from rest (Index rest star + 1)) in *.
      pose proof (len_nonneg rest2) as Hr2.
      pose proof (utf16_le_len inner ltac:(lia)) as Ui.
      rewrite (wrap64_small (o + utf16CodeUnitCount before + utf16CodeUnitCount inner))
        in R by lia.
      rewrite (wrap64_small (o0 + utf16CodeUnitCount before + utf16CodeUnitCount inner))
        in R0 by lia.
      destruct (IH _ _ _ _ _ _ _ _ _ R R0) as (x & y0 & E1 & E2 & E3 & E4); try lia.
      exists (before ++ inner ++ x),
             (spanRange (o0 + utf16CodeUnitCount before) inner false :: y0).
      rewrite E1, E2, E3, E4, <- !app_assoc. cbn [app map].
      rewrite shift_spanRange by lia.
      replace (o + utf16CodeUnitCount before + utf16CodeUnitCount inner
               - (o0 + utf16CodeUnitCount before + utf16CodeUnitCount inner))
        with (o - o0) by lia.
      replace (o - o0 + (o0 + utf16CodeUnitCount before))
        with (o + utf16CodeUnitCount before) by lia.
      auto.
Qed.

(** C7 (amended).  When the scan arrives at an opening delimiter that is
    never closed, the delimiter is kept as text and no range is recorded
    for it.  For a double star with no star before it in the remaining
    text and no double star behind it, the loop returns the text before
    it, the two bytes themselves and the plain text of the rest of the
    line, and the ranges it adds are exactly those of the rest of the line,
    moved to where the rest stands.  For a star with no other star in the
    remaining text, the text is kept as it is and nothing is recorded.
    The input "a **b" gives one segment with the text "a **b\n" and no
    range. *)
Theorem C7_unterminated_markers_are_literal :
  (forall fuel temp c o rs,
      (length temp <= fuel)%nat ->
      0 <= o -> o + len temp < 2 ^ 63 ->
      Index temp starstar <> -1 ->
      Index temp starstar <= Index temp star ->
      Index (slice_from temp (Index temp starstar + 2)) starstar = -1 ->
      let before := slice_to temp (Index temp starstar) in
      let rest := slice_from temp (Index temp starstar + 2) in
      exists cleanRest rsRest,
        parseInline rest = Some (cleanRest, rsRest) /\
        inlineLoop (S fuel) temp c o rs =
          Some (c ++ before ++ starstar ++ cleanRest,
                rs ++ map (shift (o + utf16CodeUnitCount before + 2)) rsRest)) /\
  (forall fuel temp c o rs,
      Index temp star <> -1 ->
      Index (slice_from temp (Index temp star + 1)) star = -1 ->
      inlineLoop (S (S fuel)) temp c o rs = Some (c ++ temp, rs)) /\
  parseMarkdown (lit "a **b") =
    Some [{| text := lit "a **b" ++ newline; style := "NORMAL_TEXT";
             isBullet := false; isNumbered := false; ranges := [] |}].
Proof.
  split; [|split].
  - intros fuel temp c o rs Hf Ho Hl Hb Hle He before rest.
    destruct (Index_cut temp starstar Hb) as (Et & Lb & Lt & I0).
    rewrite len_starstar in Et, Lt. fold before in Et, Lb. fold rest in Et, Lt.
    pose proof (len_nonneg rest) as Hr0.
    pose proof (utf16_le_len before ltac:(lia)) as Ub.
    destruct (parseInline_total rest) as [[cleanRest rsRest] Hp].
    assert (Hstep : inlineLoop (S fuel) temp c o rs =
                    inlineLoop fuel rest ((c ++ before) ++ starstar)
                      (o + utf16CodeUnitCount before + 2) rs).
    { cbn [inlineLoop]. rewrite inlineBody_bold by assumption. cbv zeta.
      rewrite He. change (-1 =? -1) with true. cbv iota. fold before. fold rest.
      rewrite (wrap64_small (o + utf16CodeUnitCount before)) by lia.
      rewrite wrap64_small by lia. reflexivity. }
    destruct (inlineLoop_total fuel rest ((c ++ before) ++ starstar)
                (o + utf16CodeUnitCount before + 2) rs) as [res Hres].
    { unfold len in Lt. lia. }
    pose proof (inlineLoop_fuel_mono _ (Nat.max fuel (S (length rest))) _ _ _ _ _ Hres
                  (Nat.le_max_l _ _)) as M1.
    pose proof (inlineLoop_fuel_mono _ (Nat.max fuel (S (length rest))) _ _ _ _ _ Hp
                  (Nat.le_max_r _ _)) as M2.
    destruct (inlineLoop_shifted _ _ _ _ _ _ _ _ _ _ M1 M2)
      as (x & y0 & E1 & E2 & E3 & E4); try lia.
    cbn [fst snd app] in E2, E3. subst x y0.
    exists cleanRest, rsRest. split; [exact Hp|].
    rewrite Hstep, Hres. destruct res as [cl rg]. cbn [fst snd] in E1, E4.
    rewrite E1, E4, Z.sub_0_r, <- !app_assoc. reflexivity.
  - intros fuel temp c o rs Hi He.
    assert (Hb : Index temp starstar = -1 \/ Index temp star < Index temp starstar).
    { left. destruct (Z.eq_dec (Index temp starstar) (-1)) as [E|E]; [exact E|].
      exfalso. refine (star_after_starstar temp (Index temp star + 1) E _ He).
      pose proof (Index_ge temp star).
      pose proof (Index_star_le_starstar temp E). lia. }
    destruct (Index_split _ _ Hi) as (_ & Et & _). rewrite len_star in Et.
    cbn [inlineLoop]. rewrite inlineBody_italic by assumption. cbv zeta.
    rewrite He. change (-1 =? -1) with true. cbn iota. cbn [inlineLoop].
    rewrite inlineBody_break by assumption.
    rewrite <- !app_assoc. rewrite <- Et. reflexivity.
  - vm_compute. reflexivity.
Qed.

Lemma C7_witness :
  (exists cleanRest rsRest,
      parseInline (lit "b *c*") = Some (cleanRest, rsRest) /\
      inlineLoop 10 (lit "a **b *c*") [] 0 [] =
        Some ([] ++ lit "a " ++ starstar ++ cleanRest,
              [] ++ map (shift (0 + utf16CodeUnitCount (lit "a ") + 2)) rsRest)) /\
  inlineLoop 5 (lit "a *b") [] 0 [] = Some (lit "a *b", []) /\
  inlineLoop 10 (lit "a **b *c*") [] 0 [] =
    Some (lit "a **b c", [{| start := 6; end_ := 7; bold := false; italic := true |}]).
Proof.
  destruct C7_unterminated_markers_are_literal as (Hbold & Hital & _).
  split; [|split].
  - apply (Hbold 9%nat (lit "a **b *c*") [] 0 []).
    + vm_compute. lia.
    + lia.
    + vm_compute. reflexivity.
    + vm_compute. discriminate.
    + vm_compute. discriminate.
    + vm_compute. reflexivity.
  - apply (Hital 3%nat (lit "a *b") [] 0 []).
    + vm_compute. discriminate.
    + vm_compute. reflexivity.
  - vm_compute. reflexivity.
Defined.

(** Without the condition on what stands before the delimiter the
    statement fails: on a line whose double star has no closing double
    star but comes behind a lone star, the star pairs with the first byte
    of the double star, a range is recorded, and the double star is not
    kept. *)
Lemma C7_counterexample :
  Index loneStarThenBold starstar <> -1 /\
  Index (slice_from loneStarThenBold (Index loneStarThenBold starstar + 2)) starstar = -1 /\
  parseMarkdown loneStarThenBold =
    Some [{| text := lit "a *b" ++ newline; style := "NORMAL_TEXT";
             isBullet := false; isNumbered := false;
             ranges := [{| start := 0; end_ := 2; bold := false; italic := true |}] |}] /\
  Index (lit "a *b" ++ newline) starstar = -1.
Proof.
  split; [vm_compute; discriminate|].
  split; [vm_compute; reflexivity|].
  split; vm_compute; reflexivity.
Qed.

(** ** Only stars are dropped *)

Lemma starsDropped_refl s : starsDropped s s.
Proof. induction s; constructor; assumption. Qed.

Lemma starsDropped_app a a' b b' :
  starsDropped a a' -> starsDropped b b' -> starsDropped (a ++ b) (a' ++ b').
Proof.
  intros Ha Hb. induction Ha; cbn [app]; [assumption | constructor | constructor];
    assumption.
Qed.

Lemma starsDropped_star : starsDropped star [].
Proof. repeat constructor. Qed.

Lemma starsDropped_starstar : starsDropped starstar [].
Proof. repeat constructor. Qed.

Lemma starsDropped_closed t0 c before inner m :
  starsDropped t0 c -> starsDropped m [] ->
  starsDropped (t0 ++ before ++ m ++ inner ++ m) ((c ++ before) ++ inner).
Proof.
  intros H0 Hm.
  replace ((c ++ before) ++ inner) with (c ++ before ++ [] ++ inner ++ [])
    by (cbn [app]; rewrite app_nil_r, app_assoc; reflexivity).
  repeat apply starsDropped_app; auto using starsDropped_refl.
Qed.

Lemma starsDropped_without text clean :
  starsDropped text clean -> withoutStars clean = withoutStars text.
Proof.
  induction 1 as [|b text clean _ IH|text clean _ IH]; cbn [withoutStars filter].
  - reflexivity.
  - fold (withoutStars clean). fold (withoutStars text). rewrite IH. reflexivity.
  - fold (withoutStars text). exact IH.
Qed.

Lemma inlineLoop_starsDropped fuel temp c o rs res :
  inlineLoop fuel temp c o rs = Some res ->
  forall t0, starsDropped t0 c -> starsDropped (t0 ++ temp) (fst res).
Proof.
  revert fuel temp c o rs res.
  apply (inlineLoop_elim
           (fun temp c o rs res =>
              forall t0, starsDropped t0 c -> starsDropped (t0 ++ temp) (fst res))).
  - intros temp c o rs _ t0 H0. cbn [fst].
    apply starsDropped_app; [exact H0 | apply starsDropped_refl].
  - intros before inner rest c o rs res _ _ o' IH t0 H0.
    replace (t0 ++ before ++ starstar ++ inner ++ starstar ++ rest)
      with ((t0 ++ before ++ starstar ++ inner ++ starstar) ++ rest)
      by (rewrite <- !app_assoc; reflexivity).
    apply IH. apply starsDropped_closed; [exact H0 | apply starsDropped_starstar].
  - intros before rest c o rs res _ _ o' IH t0 H0.
    replace (t0 ++ before ++ starstar ++ rest)
      with ((t0 ++ before ++ starstar) ++ rest)
      by (rewrite <- !app_assoc; reflexivity).
    apply IH. rewrite <- app_assoc.
    repeat apply starsDropped_app; auto using starsDropped_refl.
  - intros before inner rest c o rs res _ _ _ o' IH t0 H0.
    replace (t0 ++ before ++ star ++ inner ++ star ++ rest)
      with ((t0 ++ before ++ star ++ inner ++ star) ++ rest)
      by (rewrite <- !app_assoc; reflexivity).
    apply IH. apply starsDropped_closed; [exact H0 | apply starsDropped_star].
  - intros before rest c o rs res _ _ o' IH t0 H0.
    replace (t0 ++ before ++ star ++ rest)
      with ((t0 ++ before ++ star) ++ rest)
      by (rewrite <- !app_assoc; reflexivity).
    apply IH. rewrite <- app_assoc.
    repeat apply starsDropped_app; auto using starsDropped_refl.
Qed.

(** X8.  The bold/italic loop ends on every text.  The text it builds is
    its input with some of its star bytes left out: every other byte is
    kept in its place and nothing is added, so the two texts have the same
    bytes other than stars, in the same order.  A text without a star is
    returned as it is, with no range. *)
Theorem span_extractor_removes_only_stars (text : gostring) :
  exists clean rs,
    parseInline text = Some (clean, rs) /\
    starsDropped text clean /\
    withoutStars clean = withoutStars text /\
    byteCut text clean /\
    (~ In x2a text -> clean = text /\ rs = []).
Proof.
  destruct (parseInline_total text) as [[clean rs] Hp].
  exists clean, rs. split; [exact Hp|].
  pose proof (inlineLoop_starsDropped _ _ _ _ _ _ Hp [] sd_nil) as D.
  cbn [fst app] in D.
  split; [exact D|].
  pose proof (inlineLoop_bytes _ _ _ _ _ _ Hp) as (F & L & I).
  cbn [fst app] in *. change (len (@nil byte)) with 0 in L.
  split; [exact F|]. split; [split; [lia | exact I]|].
  intros Hn. unfold parseInline in Hp. cbn [inlineLoop] in Hp.
  rewrite inlineBody_break in Hp by (apply Index_star_none; exact Hn).
  injection Hp as <- <-. split; reflexivity.
Qed.
